(** * Resilient generation layer of the mock-interview application

    A shallow embedding of [src/scripts/index.ts] (model catalogue and the
    candidate sweep of [chatSession.sendMessage]) and of the generation part
    of the [FormMockInterview] component (bracket scanner, response
    sanitizer, shape validation, deterministic fallback and the
    timeout/retry orchestration of [onSubmit]).

    The text of a reply, a prompt or a model identifier is modelled by
    [string]: a character is a code unit in the range 0..255, read as
    Latin-1.  The strings of a parsed JSON value are lists of 16-bit code
    units ([ustring]), an escape being able to name any of them.

    An [async] function is modelled twice: as the state transformer it is
    when nothing else runs ([Scripts], [Form]), and as a task that is
    suspended at each [await] ([Tasks]), which is what [withTimeout] races
    against its timer and leaves in flight when the timer wins
    ([Orchestration]).  [TasksFacts] shows that the two readings agree. *)

From Stdlib Require Import Bool Arith ZArith Lia List Ascii String.
Import ListNotations.

Open Scope string_scope.
Open Scope list_scope.

(** ** The fragment of the JavaScript string library the sources use *)

Module Js.

(** The double quote character; string literals of this file never contain
    it, [quoted] puts it in where a source literal has one. *)
Definition dquote : ascii := "034"%char.

(** [quoted] reads a literal written with ['] where the source text has a
    double quote. *)
Fixpoint quoted (s : string) : string :=
  match s with
  | EmptyString => EmptyString
  | String c r => String (if Ascii.eqb c "'"%char then dquote else c) (quoted r)
  end.

(** WhiteSpace and LineTerminator code units below 256:
    TAB, LF, VT, FF, CR, SP and NBSP. *)
Definition isWhiteSpace (c : ascii) : bool :=
  let n := nat_of_ascii c in
  ((9 <=? n) && (n <=? 13) || (n =? 32) || (n =? 160))%nat.

Definition isEmpty (s : string) : bool :=
  match s with EmptyString => true | String _ _ => false end.

Fixpoint trimStart (s : string) : string :=
  match s with
  | EmptyString => EmptyString
  | String c r => if isWhiteSpace c then trimStart r else s
  end.

Fixpoint trimEnd (s : string) : string :=
  match s with
  | EmptyString => EmptyString
  | String c r =>
      let r' := trimEnd r in
      if isWhiteSpace c && isEmpty r' then EmptyString else String c r'
  end.

(** [String.prototype.trim] *)
Definition trim (s : string) : string := trimEnd (trimStart s).

(** Lower-casing of one Latin-1 code unit: A-Z, and the accented capitals
    0xC0-0xDE except the multiplication sign 0xD7. *)
Definition lowerChar (c : ascii) : ascii :=
  let n := nat_of_ascii c in
  if ((65 <=? n) && (n <=? 90)
      || (192 <=? n) && (n <=? 222) && negb (n =? 215))%nat
  then ascii_of_nat (n + 32) else c.

(** [String.prototype.toLowerCase] *)
Fixpoint toLowerCase (s : string) : string :=
  match s with
  | EmptyString => EmptyString
  | String c r => String (lowerChar c) (toLowerCase r)
  end.

(** [String.prototype.includes] *)
Fixpoint includes (s pat : string) : bool :=
  prefix pat s ||
  match s with
  | EmptyString => false
  | String _ r => includes r pat
  end.

Fixpoint drop (n : nat) (s : string) : string :=
  match n, s with
  | O, _ => s
  | S _, EmptyString => EmptyString
  | S k, String _ r => drop k r
  end.

(** [s.replace(pat, rep)] with a string pattern: the first occurrence only. *)
Fixpoint replaceFirst (pat rep s : string) : string :=
  if prefix pat s then (rep ++ drop (String.length pat) s)%string
  else match s with
       | EmptyString => EmptyString
       | String c r => String c (replaceFirst pat rep r)
       end.

(** [Array.prototype.join] on an array of strings *)
Definition join (sep : string) (l : list string) : string := String.concat sep l.

(** Truthiness of a possibly undefined string: [undefined] and the empty
    string are falsy. *)
Definition truthy (v : option string) : bool :=
  match v with
  | None => false
  | Some s => negb (isEmpty s)
  end.

(** [[...new Set(l)]]: the distinct elements in order of first insertion;
    [seen] holds what the set already contains. *)
Fixpoint setSpread (seen l : list string) : list string :=
  match l with
  | [] => []
  | x :: r =>
      if existsb (String.eqb x) seen then setSpread seen r
      else x :: setSpread (x :: seen) r
  end.

Definition uniq (l : list string) : list string := setSpread [] l.

(** *** Strings with code units above 255

    A string value read by [JSON.parse] may hold any UTF-16 code unit, as an
    escape writes one: such a string is the list of its code units. *)
Definition ustring : Type := list N.

Definition units (s : string) : ustring :=
  map N_of_ascii (list_ascii_of_string s).

(** WhiteSpace and LineTerminator code units: TAB, LF, VT, FF, CR, SP,
    NBSP, U+1680, U+2000 to U+200A, U+2028, U+2029, U+202F, U+205F, U+3000
    and U+FEFF. *)
Definition isSpaceUnit (u : N) : bool :=
  ((9 <=? u) && (u <=? 13) || (u =? 32) || (u =? 160) || (u =? 5760)
   || (8192 <=? u) && (u <=? 8202) || (u =? 8232) || (u =? 8233)
   || (u =? 8239) || (u =? 8287) || (u =? 12288) || (u =? 65279))%N.

Fixpoint utrimStart (s : ustring) : ustring :=
  match s with
  | [] => []
  | u :: r => if isSpaceUnit u then utrimStart r else s
  end.

Fixpoint utrimEnd (s : ustring) : ustring :=
  match s with
  | [] => []
  | u :: r =>
      let r' := utrimEnd r in
      if isSpaceUnit u && (match r' with [] => true | _ => false end)
      then [] else u :: r'
  end.

(** [String.prototype.trim] on any string. *)
Definition utrim (s : ustring) : ustring := utrimEnd (utrimStart s).

Fixpoint sameUnits (a b : ustring) : bool :=
  match a, b with
  | [], [] => true
  | x :: a', y :: b' => (x =? y)%N && sameUnits a' b'
  | _, _ => false
  end.

End Js.

(** ** Asynchronous computations

    An [async] function is a state transformer over the process state that
    returns, throws, or never settles.  The elapsed time is explicit: a network
    request advances the [clock] by its latency in milliseconds. *)

Module Async.

(** A thrown value: an [Error] object with its message, or anything else. *)
Inductive exn : Type :=
| JsError (message : string)
| JsOther.

Inductive outcome (A : Type) : Type :=
| Return (a : A)
| Throw (e : exn)
| Pending.

Arguments Return {A} a.
Arguments Throw {A} e.
Arguments Pending {A}.

(** The process state: the module-level [cachedModelList] of index.ts, the
    elapsed time, and the observable effects (discovery requests issued,
    model identifiers of the generation requests issued, delays of the
    timers armed, [console.error] calls and the descriptions of the
    [toast.warning] calls), oldest first. *)
Record state : Type := mkState {
  cachedModelList : option (list string);
  clock : N;
  fetches : nat;
  attempts : list string;
  timers : list N;
  errorsLogged : nat;
  warnings : list string
}.

Definition initial : state := mkState None 0%N 0 [] [] 0 [].

Definition M (A : Type) : Type := state -> outcome A * state.

Definition ret {A} (a : A) : M A := fun st => (Return a, st).

Definition throw {A} (e : exn) : M A := fun st => (Throw e, st).

Definition bind {A B} (m : M A) (k : A -> M B) : M B :=
  fun st =>
    match m st with
    | (Return a, st') => k a st'
    | (Throw e, st') => (Throw e, st')
    | (Pending, st') => (Pending, st')
    end.

Definition tick (d : N) (st : state) : state :=
  mkState (cachedModelList st) (clock st + d)%N (fetches st) (attempts st)
          (timers st) (errorsLogged st) (warnings st).

Definition setClock (t : N) (st : state) : state :=
  mkState (cachedModelList st) t (fetches st) (attempts st)
          (timers st) (errorsLogged st) (warnings st).

Definition setCache (l : list string) (st : state) : state :=
  mkState (Some l) (clock st) (fetches st) (attempts st)
          (timers st) (errorsLogged st) (warnings st).

Definition countFetch (st : state) : state :=
  mkState (cachedModelList st) (clock st) (S (fetches st)) (attempts st)
          (timers st) (errorsLogged st) (warnings st).

Definition recordAttempt (modelId : string) (st : state) : state :=
  mkState (cachedModelList st) (clock st) (fetches st)
          (attempts st ++ [modelId]) (timers st) (errorsLogged st)
          (warnings st).

Definition armTimer (ms : N) (st : state) : state :=
  mkState (cachedModelList st) (clock st) (fetches st) (attempts st)
          (timers st ++ [ms]) (errorsLogged st) (warnings st).

Definition consoleError : M unit :=
  fun st =>
    (Return tt,
     mkState (cachedModelList st) (clock st) (fetches st) (attempts st)
             (timers st) (S (errorsLogged st)) (warnings st)).

Definition toastWarning (description : string) : M unit :=
  fun st =>
    (Return tt,
     mkState (cachedModelList st) (clock st) (fetches st) (attempts st)
             (timers st) (errorsLogged st) (warnings st ++ [description])).

(** A network request settles after a latency with a result, or never. *)
Definition settles (A : Type) : Type := option (N * A).

Definition await {A} (r : settles A) : M A :=
  fun st =>
    match r with
    | None => (Pending, st)
    | Some (d, a) => (Return a, tick d st)
    end.

(** *** Promises in flight

    Several [async] functions are under way at once when a promise loses
    a race against a timer: nothing cancels it, and it runs on beside what
    follows.  A function under way is a [task]: settled, never to settle,
    or suspended at an [await] until a time, with what it does to the
    process state when it is resumed.  An [async] function is then the run
    from its call to its first suspension. *)
#[warnings="-register-all"]
Inductive task (A : Type) : Type :=
| Done (a : A)
| Failed (e : exn)
| Never
| Wake (time : N) (resume : state -> state * task A).

Arguments Done {A} a.
Arguments Failed {A} e.
Arguments Never {A}.
Arguments Wake {A} time resume.

Definition T (A : Type) : Type := state -> state * task A.

Definition retT {A} (a : A) : T A := fun st => (st, Done a).

Definition throwT {A} (e : exn) : T A := fun st => (st, Failed e).

(** What follows a task once it has returned. *)
Fixpoint andThen {A B} (t : task A) (k : A -> T B) (st : state)
    : state * task B :=
  match t with
  | Done a => k a st
  | Failed e => (st, Failed e)
  | Never => (st, Never)
  | Wake time resume =>
      (st,
       Wake time (fun st' => let (st'', t') := resume st' in andThen t' k st''))
  end.

Definition bindT {A B} (m : T A) (k : A -> T B) : T B :=
  fun st => let (st', t) := m st in andThen t k st'.

(** [await] of a network request: the function is resumed when the
    request settles. *)
Definition awaitT {A} (r : settles A) : T A :=
  fun st =>
    match r with
    | None => (st, Never)
    | Some (d, a) => (st, Wake (clock st + d)%N (fun st' => (st', Done a)))
    end.

(** A task run with nothing beside it: each suspension is over at once,
    with the clock moved to its time. *)
Fixpoint alone {A} (t : task A) (st : state) : outcome A * state :=
  match t with
  | Done a => (Return a, st)
  | Failed e => (Throw e, st)
  | Never => (Pending, st)
  | Wake time resume =>
      let (st', t') := resume (setClock time st) in alone t' st'
  end.

Definition runAlone {A} (m : T A) : M A :=
  fun st => let (st', t) := m st in alone t st'.

(** Nothing in flight. *)
Definition idle : task unit := Done tt.

(** Two tasks in flight, as one: the earlier suspension is resumed first,
    the first of the two on a tie; their results are dropped. *)
Fixpoint par {A B} (a : task A) : task B -> task unit :=
  fix beside (b : task B) : task unit :=
    match a, b with
    | Wake ta ra, Wake tb rb =>
        if (ta <=? tb)%N
        then Wake ta (fun st => let (st', a') := ra st in (st', par a' b))
        else Wake tb (fun st => let (st', b') := rb st in (st', beside b'))
    | Wake ta ra, _ =>
        Wake ta (fun st => let (st', a') := ra st in (st', par a' b))
    | _, Wake tb rb =>
        Wake tb (fun st => let (st', b') := rb st in (st', beside b'))
    | _, _ => Done tt
    end.

(** What is in flight run up to a time: every suspension that is over
    before [deadline] is resumed, at its time. *)
Fixpoint elapse {A} (b : task A) (deadline : N) (st : state)
    : state * task A :=
  match b with
  | Wake tb rb =>
      if (tb <? deadline)%N
      then let (st', b') := rb (setClock tb st) in elapse b' deadline st'
      else (st, b)
  | _ => (st, b)
  end.

(** [Promise.race] of a promise and a timer that fires at [deadline], with
    [b] in flight beside them: the outcome of the promise when it settles
    before the timer fires, [Pending] when the timer fires first; the
    state at that moment; and what is then in flight, the promise itself
    when it lost.  Of two suspensions that are over at once the raced
    promise is resumed first; a promise that settles when the timer fires
    loses. *)
Fixpoint race {A} (a : task A)
    : task unit -> N -> state -> outcome A * state * task unit :=
  fix beside (b : task unit) (deadline : N) (st : state) :=
    match a with
    | Done x => (Return x, st, b)
    | Failed e => (Throw e, st, b)
    | Never => let (st', b') := elapse b deadline st in (Pending, st', b')
    | Wake ta ra =>
        let turn :=
          if (ta <? deadline)%N
          then let (st', a') := ra (setClock ta st) in race a' b deadline st'
          else (Pending, st, par a b) in
        match b with
        | Wake tb rb =>
            if ((tb <? deadline) && (tb <? ta))%N
            then let (st', b') := rb (setClock tb st) in beside b' deadline st'
            else turn
        | _ => turn
        end
    end.

End Async.

Notation "x <- m ;; k" := (Async.bind m (fun x => k))
  (at level 61, m at next level, right associativity).

(** ** JSON values and [JSON.parse]

    [JSON.parse] is a built-in of the engine, not code of the repository;
    it is transcribed here from the JSON grammar (ECMA-404): a reader that
    turns the characters into tokens and a parser of the tokens.  A number
    keeps its lexeme.  A string value is the list of its code units, which
    an escape may put above 255.  An object holds one member for each name,
    in the order the names first occur: a later duplicate overwrites the
    value of an earlier one. *)

Module Json.

Import Js.

#[warnings="-register-all"]
Inductive json : Type :=
| JNull
| JBool (b : bool)
| JNum (lexeme : string)
| JStr (s : ustring)
| JArr (items : list json)
| JObj (members : list (ustring * json)).

Inductive token : Type :=
| TLBrack | TRBrack | TLBrace | TRBrace | TComma | TColon
| TStr (s : ustring)
| TNum (lexeme : string)
| TTrue | TFalse | TNull.

(** Where the reader of a number stands: after the minus sign, after a
    lone zero, in the integer digits, after the point, in the fraction
    digits, after the exponent mark, after its sign, in its digits. *)
Inductive numState : Type :=
| NMinus | NZero | NInt | NDot | NFrac | NExpMark | NExpSign | NExp.

Inductive literal : Type := LitTrue | LitFalse | LitNull.

Definition literalName (lit : literal) : string :=
  match lit with
  | LitTrue => "true"
  | LitFalse => "false"
  | LitNull => "null"
  end.

Definition literalToken (lit : literal) : token :=
  match lit with
  | LitTrue => TTrue
  | LitFalse => TFalse
  | LitNull => TNull
  end.

(** The state of the reader: between tokens; in a string, after a
    backslash, in the hexadecimal digits of an escape, with what the
    string holds so far; in a number; or in a literal name of which [seen]
    characters are read. *)
Inductive lexState : Type :=
| LDefault
| LString (acc : ustring)
| LEscape (acc : ustring)
| LUnicode (acc : ustring) (digits : list N)
| LNumber (ns : numState) (acc : string)
| LLiteral (lit : literal) (seen : nat).

Definition code (c : ascii) : nat := nat_of_ascii c.

Definition snoc (acc : string) (c : ascii) : string :=
  (acc ++ String c EmptyString)%string.

Definition usnoc (acc : ustring) (u : N) : ustring := acc ++ [u].

Definition isJsonSpace (c : ascii) : bool :=
  ((code c =? 32) || (code c =? 9) || (code c =? 10) || (code c =? 13))%nat.

Definition isDigit (c : ascii) : bool :=
  ((48 <=? code c) && (code c <=? 57))%nat.

Definition hexValue (c : ascii) : option N :=
  let n := code c in
  if ((48 <=? n) && (n <=? 57))%nat then Some (N.of_nat (n - 48))
  else if ((65 <=? n) && (n <=? 70))%nat then Some (N.of_nat (n - 55))
  else if ((97 <=? n) && (n <=? 102))%nat then Some (N.of_nat (n - 87))
  else None.

Definition numAccepting (ns : numState) : bool :=
  match ns with
  | NZero | NInt | NFrac | NExp => true
  | NMinus | NDot | NExpMark | NExpSign => false
  end.

(** The next state of a number on a character that continues it. *)
Definition numStep (ns : numState) (c : ascii) : option numState :=
  let isE := (Ascii.eqb c "e" || Ascii.eqb c "E")%char in
  let isSign := (Ascii.eqb c "+" || Ascii.eqb c "-")%char in
  match ns with
  | NMinus =>
      if Ascii.eqb c "0" then Some NZero
      else if isDigit c then Some NInt else None
  | NZero =>
      if Ascii.eqb c "." then Some NDot
      else if isE then Some NExpMark else None
  | NInt =>
      if isDigit c then Some NInt
      else if Ascii.eqb c "." then Some NDot
      else if isE then Some NExpMark else None
  | NDot => if isDigit c then Some NFrac else None
  | NFrac =>
      if isDigit c then Some NFrac
      else if isE then Some NExpMark else None
  | NExpMark =>
      if isSign then Some NExpSign
      else if isDigit c then Some NExp else None
  | NExpSign => if isDigit c then Some NExp else None
  | NExp => if isDigit c then Some NExp else None
  end.

(** One character read between tokens. *)
Definition lexDefault (c : ascii) : option (lexState * list token) :=
  if isJsonSpace c then Some (LDefault, [])
  else if Ascii.eqb c "[" then Some (LDefault, [TLBrack])
  else if Ascii.eqb c "]" then Some (LDefault, [TRBrack])
  else if Ascii.eqb c "{" then Some (LDefault, [TLBrace])
  else if Ascii.eqb c "}" then Some (LDefault, [TRBrace])
  else if Ascii.eqb c "," then Some (LDefault, [TComma])
  else if Ascii.eqb c ":" then Some (LDefault, [TColon])
  else if Ascii.eqb c dquote then Some (LString [], [])
  else if Ascii.eqb c "-" then Some (LNumber NMinus (String c EmptyString), [])
  else if Ascii.eqb c "0" then Some (LNumber NZero (String c EmptyString), [])
  else if isDigit c then Some (LNumber NInt (String c EmptyString), [])
  else if Ascii.eqb c "t" then Some (LLiteral LitTrue 1, [])
  else if Ascii.eqb c "f" then Some (LLiteral LitFalse 1, [])
  else if Ascii.eqb c "n" then Some (LLiteral LitNull 1, [])
  else None.

Definition unescape (c : ascii) : option ascii :=
  if Ascii.eqb c dquote then Some dquote
  else if Ascii.eqb c "\" then Some "\"%char
  else if Ascii.eqb c "/" then Some "/"%char
  else if Ascii.eqb c "b" then Some "008"%char
  else if Ascii.eqb c "f" then Some "012"%char
  else if Ascii.eqb c "n" then Some "010"%char
  else if Ascii.eqb c "r" then Some "013"%char
  else if Ascii.eqb c "t" then Some "009"%char
  else None.

Definition hexNumber (digits : list N) : N :=
  fold_left (fun n d => (16 * n + d)%N) digits 0%N.

Definition lexStep (st : lexState) (c : ascii) : option (lexState * list token) :=
  match st with
  | LDefault => lexDefault c
  | LString acc =>
      if Ascii.eqb c dquote then Some (LDefault, [TStr acc])
      else if Ascii.eqb c "\" then Some (LEscape acc, [])
      else if (code c <? 32)%nat then None
      else Some (LString (usnoc acc (N_of_ascii c)), [])
  | LEscape acc =>
      if Ascii.eqb c "u" then Some (LUnicode acc [], [])
      else match unescape c with
           | Some d => Some (LString (usnoc acc (N_of_ascii d)), [])
           | None => None
           end
  | LUnicode acc digits =>
      match hexValue c with
      | None => None
      | Some h =>
          if (List.length digits <? 3)%nat
          then Some (LUnicode acc (digits ++ [h]), [])
          else Some (LString (usnoc acc (hexNumber (digits ++ [h]))), [])
      end
  | LNumber ns acc =>
      match numStep ns c with
      | Some ns' => Some (LNumber ns' (snoc acc c), [])
      | None =>
          if numAccepting ns then
            match lexDefault c with
            | Some (st', toks) => Some (st', TNum acc :: toks)
            | None => None
            end
          else None
      end
  | LLiteral lit seen =>
      match String.get seen (literalName lit) with
      | None => None
      | Some e =>
          if Ascii.eqb c e then
            if (S seen =? String.length (literalName lit))%nat
            then Some (LDefault, [literalToken lit])
            else Some (LLiteral lit (S seen), [])
          else None
      end
  end.

(** The tokens a state still owes at the end of the text. *)
Definition lexEnd (st : lexState) : option (list token) :=
  match st with
  | LDefault => Some []
  | LNumber ns acc => if numAccepting ns then Some [TNum acc] else None
  | _ => None
  end.

Fixpoint lexFrom (st : lexState) (text : string) : option (list token) :=
  match text with
  | EmptyString => lexEnd st
  | String c rest =>
      match lexStep st c with
      | None => None
      | Some (st', toks) =>
          match lexFrom st' rest with
          | None => None
          | Some more => Some (toks ++ more)
          end
      end
  end.

Definition lex (text : string) : option (list token) := lexFrom LDefault text.

(** [CreateDataProperty]: a name the object already has keeps its place
    and takes the new value; a new name goes last. *)
Fixpoint setMember (k : ustring) (v : json) (members : list (ustring * json))
    : list (ustring * json) :=
  match members with
  | [] => [(k, v)]
  | (k', v') :: rest =>
      if sameUnits k' k then (k', v) :: rest
      else (k', v') :: setMember k v rest
  end.

(** Recursive descent on the tokens; [fuel] bounds the nesting of calls. *)
Fixpoint parseValue (fuel : nat) (ts : list token) : option (json * list token) :=
  match fuel with
  | O => None
  | S f =>
      match ts with
      | TNull :: r => Some (JNull, r)
      | TTrue :: r => Some (JBool true, r)
      | TFalse :: r => Some (JBool false, r)
      | TNum n :: r => Some (JNum n, r)
      | TStr s :: r => Some (JStr s, r)
      | TLBrack :: TRBrack :: r => Some (JArr [], r)
      | TLBrack :: r => parseElements f r []
      | TLBrace :: TRBrace :: r => Some (JObj [], r)
      | TLBrace :: r => parseMembers f r []
      | _ => None
      end
  end
with parseElements (fuel : nat) (ts : list token) (acc : list json)
    : option (json * list token) :=
  match fuel with
  | O => None
  | S f =>
      match parseValue f ts with
      | Some (v, TComma :: r) => parseElements f r (acc ++ [v])
      | Some (v, TRBrack :: r) => Some (JArr (acc ++ [v]), r)
      | _ => None
      end
  end
with parseMembers (fuel : nat) (ts : list token) (acc : list (ustring * json))
    : option (json * list token) :=
  match fuel with
  | O => None
  | S f =>
      match ts with
      | TStr k :: TColon :: r =>
          match parseValue f r with
          | Some (v, TComma :: r') => parseMembers f r' (setMember k v acc)
          | Some (v, TRBrace :: r') => Some (JObj (setMember k v acc), r')
          | _ => None
          end
      | _ => None
      end
  end.

(** [JSON.parse]: [None] stands for the [SyntaxError]. *)
Definition parse (text : string) : option json :=
  match lex text with
  | None => None
  | Some ts =>
      match parseValue (2 * List.length ts + 2) ts with
      | Some (v, []) => Some v
      | _ => None
      end
  end.

(** [o[key]] on the members of an object: [None] stands for [undefined]. *)
Fixpoint getProp (key : string) (members : list (ustring * json)) : option json :=
  match members with
  | [] => None
  | (k, v) :: rest =>
      match getProp key rest with
      | Some v' => Some v'
      | None => if sameUnits k (units key) then Some v else None
      end
  end.

(** *** Bracket depth of a token sequence, and the reader's states as the
    bracket scanner sees them *)

Definition brk (t : token) : Z :=
  match t with TLBrack => 1 | TRBrack => -1 | _ => 0 end%Z.

Definition brackets (ts : list token) : Z :=
  fold_right (fun t d => (brk t + d)%Z) 0%Z ts.

(** The depth is positive before each of the tokens. *)
Fixpoint live (d : Z) (ts : list token) : Prop :=
  match ts with
  | [] => True
  | t :: r => (0 < d)%Z /\ live (d + brk t) r
  end.

(** The depth never falls below zero. *)
Fixpoint nonneg (d : Z) (ts : list token) : Prop :=
  match ts with
  | [] => True
  | t :: r => (0 <= d + brk t)%Z /\ nonneg (d + brk t) r
  end.

Definition balanced (ts : list token) : Prop :=
  brackets ts = 0%Z /\ nonneg 0 ts.

Definition isArray (v : json) : bool :=
  match v with JArr _ => true | _ => false end.

(** The reader is inside a string literal; it has just read a backslash. *)
Definition inStr (st : lexState) : bool :=
  match st with LString _ | LEscape _ | LUnicode _ _ => true | _ => false end.

Definition escaped (st : lexState) : bool :=
  match st with LEscape _ => true | _ => false end.

(** The token a state is in the middle of. *)
Definition owes (st : lexState) (t : token) : Prop :=
  match st with
  | LDefault => True
  | LString _ | LEscape _ | LUnicode _ _ => exists s, t = TStr s
  | LNumber _ _ => exists n, t = TNum n
  | LLiteral lit _ => t = literalToken lit
  end.

End Json.

(** ** src/scripts/index.ts: the model catalogue *)

Module Scripts.

Import Js Async.

Definition aliasModels : list string :=
  ["gemini-2.5-pro"; "gemini-2.5-pro-latest"; "gemini-1.5-pro-latest"].

Definition isAlias (normalized : string) : bool :=
  (normalized =? "gemini pro3") || (normalized =? "gemini-pro3")
  || (normalized =? "pro3").

Definition resolveConfiguredModels (model : option string) : list string :=
  match model with
  | None => []
  | Some m =>
      if isEmpty m then []
      else
        let normalized := toLowerCase (trim m) in
        if isAlias normalized then aliasModels else [trim m]
  end.

Definition curatedModels : list string :=
  ["gemini-1.5-flash-latest"; "gemini-1.5-pro-latest"; "gemini-2.5-pro";
   "gemini-2.5-pro-latest"; "gemini-2.5-flash"; "gemini-2.0-flash";
   "gemini-2.0-flash-exp"; "gemini-2.0-flash-lite"; "gemini-1.5-flash"].

(** [preferredModels]: the configured identifiers, then the curated ones,
    empty strings filtered out. *)
Definition preferredModels (configuredModel : option string) : list string :=
  filter (fun m => negb (isEmpty m))
         (resolveConfiguredModels configuredModel ++ curatedModels).

(** The friendly nicknames of the alias, and what it is for a configured
    string to match one after trimming and case folding. *)
Definition nicknames : list string := ["gemini pro3"; "gemini-pro3"; "pro3"].

Definition matchesNickname (model : string) : Prop :=
  In (toLowerCase (trim model)) nicknames.

(** [normalizeModelId]: [modelId.replace(/^models\//, "")] *)
Definition normalizeModelId (modelId : string) : string :=
  if prefix "models/" modelId then drop 7 modelId else modelId.

(** The discovery endpoint: an entry of [ListModelsResponse.models]. *)
Record modelDescriptor : Type := mkDescriptor {
  name : option string;
  supportedGenerationMethods : option (list string)
}.

(** What the discovery request does: [fetch] rejects, the status is not a
    success, [response.json()] rejects, or a body whose [models] may be
    absent. *)
Inductive fetchResult : Type :=
| FetchRejects
| FetchNotOk
| FetchBadJson
| FetchOk (models : option (list modelDescriptor)).

(** What one generation request does: building the model or the chat, or
    sending the message, throws; or a result whose [response.text()]
    returns or throws. *)
Inductive generation : Type :=
| GenFails (e : exn)
| GenOk (text : exn + string).

(** A request that fails after a latency. *)
Definition failing (f : N * exn) : N * generation := (fst f, GenFails (snd f)).

(** The environment of the process: the two build-time settings, the two
    remote endpoints (the n-th discovery request; the n-th generation
    request with its model identifier and prompt) and the message the
    engine gives the [SyntaxError] of [JSON.parse]. *)
Record world : Type := mkWorld {
  apiKey : option string;
  configuredModel : option string;
  fetchModels : nat -> settles fetchResult;
  generate : nat -> string -> string -> settles generation;
  syntaxErrorMessage : string -> string
}.

Definition supportsGenerateContent (m : modelDescriptor) : bool :=
  match supportedGenerationMethods m with
  | None => false
  | Some l => existsb (String.eqb "generateContent") l
  end.

(** The body of [listAvailableModels] after a successful response: filter,
    strip ["models/"], drop the absent and the empty names. *)
Definition availableOf (models : option (list modelDescriptor)) : list string :=
  let ms := match models with Some l => l | None => [] end in
  flat_map
    (fun n => if truthy n then match n with Some m => [m] | None => [] end
              else [])
    (map (fun m => option_map (replaceFirst "models/" "") (name m))
         (filter supportsGenerateContent ms)).

Section Catalogue.

Variable w : world.

Definition listAvailableModels : M (list string) :=
  if negb (truthy (apiKey w)) then ret []
  else
    fun st =>
      (r <- await (fetchModels w (fetches st)) ;;
       match r with
       | FetchRejects | FetchNotOk | FetchBadJson => ret []
       | FetchOk models => ret (availableOf models)
       end) (countFetch st).

Definition getCandidateModels : M (list string) :=
  fun st =>
    match cachedModelList st with
    | Some l => (Return l, st)
    | None =>
        (available <- listAvailableModels ;;
         let orderedCandidates :=
           if (0 <? List.length available)%nat
           then preferredModels (configuredModel w) ++ available
           else preferredModels (configuredModel w) in
         let l := uniq (map normalizeModelId orderedCandidates) in
         fun st' => (Return l, setCache l st')) st
    end.

(** One turn of the loop body's [try]: the request for [modelId]. *)
Definition requestGeneration (modelId prompt : string) : M generation :=
  fun st =>
    await (generate w (List.length (attempts st)) modelId prompt)
          (recordAttempt modelId st).

(** The [for] loop of [sendMessage]: the first result, or the last error
    when the candidates are exhausted. *)
Fixpoint sweep (prompt : string) (candidates : list string)
    (lastError : option exn) : M ((exn + string) + option exn) :=
  match candidates with
  | [] => ret (inr lastError)
  | candidate :: rest =>
      let modelId := normalizeModelId candidate in
      g <- requestGeneration modelId prompt ;;
      match g with
      | GenOk text => ret (inl text)
      | GenFails e => sweep prompt rest (Some e)
      end
  end.

(** The requests numbered from [n] on, one per candidate in order, are
    answered by [answers]. *)
Fixpoint answeredBy (n : nat) (prompt : string) (candidates : list string)
    (answers : list (N * generation)) : Prop :=
  match candidates, answers with
  | [], [] => True
  | candidate :: cs, a :: rest =>
      generate w n (normalizeModelId candidate) prompt = Some a
      /\ answeredBy (S n) prompt cs rest
  | _, _ => False
  end.

(** [lastError instanceof Error ? lastError.message : "Unknown error"] *)
Definition lastErrorMessage (lastError : option exn) : string :=
  match lastError with
  | Some (JsError m) => m
  | _ => "Unknown error"
  end.

Definition aggregateMessage (candidates : list string)
    (lastError : option exn) : string :=
  "Gemini failed for models: " ++ join ", " candidates ++ ". " ++
  lastErrorMessage lastError.

(** [chatSession.sendMessage]; the result stands for [aiResult], given by
    what its [response.text()] does. *)
Definition sendMessage (prompt : string) : M (exn + string) :=
  if negb (truthy (apiKey w)) then throw (JsError "Missing VITE_GEMINI_API_KEY")
  else
    candidates <- getCandidateModels ;;
    r <- sweep prompt candidates None ;;
    match r with
    | inl text => ret text
    | inr lastError => throw (JsError (aggregateMessage candidates lastError))
    end.

End Catalogue.

End Scripts.


(** ** The generation part of the FormMockInterview component *)

Module Form.

Import Js Async Json Scripts.

(** [FormData], as the form schema gives it; [experience] holds the
    decimal rendering of the number, which is all the prompt uses. *)
Record FormData : Type := mkFormData {
  position : string;
  description : string;
  experience : string;
  techStack : string
}.

Definition AI_TIMEOUT_MS : N := 60000.
Definition AI_RETRY_TIMEOUT_MS : N := 90000.

(** [text.slice(a, b)] for [0 <= a <= b]. *)
Definition slice (a b : nat) (text : string) : string :=
  substring a (b - a) text.

(** The loop of [extractFirstJsonArray] from index [i], with [rest] the
    characters of [text] from [i] on. *)
Fixpoint scanArray (text rest : string) (i : nat) (start : Z) (depth : nat)
    (inString isEscaped : bool) : option string :=
  match rest with
  | EmptyString => None
  | String char rest' =>
      if inString then
        if isEscaped then scanArray text rest' (S i) start depth inString false
        else if Ascii.eqb char "\" then
          scanArray text rest' (S i) start depth inString true
        else if Ascii.eqb char dquote then
          scanArray text rest' (S i) start depth false isEscaped
        else scanArray text rest' (S i) start depth inString isEscaped
      else if Ascii.eqb char dquote then
        scanArray text rest' (S i) start depth true isEscaped
      else if Ascii.eqb char "[" then
        scanArray text rest' (S i)
          (if (depth =? 0)%nat then Z.of_nat i else start) (depth + 1)
          inString isEscaped
      else if Ascii.eqb char "]" && (0 <? depth)%nat then
        let depth' := depth - 1 in
        if (depth' =? 0)%nat && (0 <=? start)%Z
        then Some (slice (Z.to_nat start) (i + 1) text)
        else scanArray text rest' (S i) start depth' inString isEscaped
      else scanArray text rest' (S i) start depth inString isEscaped
  end.

Definition extractFirstJsonArray (text : string) : option string :=
  scanArray text text 0 (-1)%Z 0 false false.

(** One turn of the loop, read off its branches: the next [inString], the
    next [isEscaped], and the change of [depth] the character asks for. *)
Definition scanIn (inS isE : bool) (c : ascii) : bool :=
  if inS then
    if isE then true
    else if Ascii.eqb c "\" then true
    else if Ascii.eqb c dquote then false else true
  else Ascii.eqb c dquote.

Definition scanEsc (inS isE : bool) (c : ascii) : bool :=
  if inS then (if isE then false else Ascii.eqb c "\") else isE.

Definition scanDelta (inS : bool) (c : ascii) : Z :=
  if inS then 0
  else if Ascii.eqb c dquote then 0
  else if Ascii.eqb c "[" then 1
  else if Ascii.eqb c "]" then -1 else 0.

(** [s.replace(re, "")] for a global regular expression that matches no
    empty string: [matchAt s] is the length of the match that starts [s],
    0 when there is none; [skip] characters of a match are still to be
    dropped. *)
Fixpoint removeAll (matchAt : string -> nat) (skip : nat) (s : string) : string :=
  match s with
  | EmptyString => EmptyString
  | String c r =>
      match skip with
      | S k => removeAll matchAt k r
      | O =>
          match matchAt s with
          | O => String c (removeAll matchAt 0 r)
          | S n => removeAll matchAt n r
          end
      end
  end.

(** The match of [/```(?:json)?/gi] at the start of [s]. *)
Definition taggedFenceAt (s : string) : nat :=
  if prefix "```" s then
    if prefix "json" (toLowerCase (drop 3 s)) then 7 else 3
  else 0.

(** The match of [/```/g] at the start of [s]. *)
Definition bareFenceAt (s : string) : nat :=
  if prefix "```" s then 3 else 0.

Definition removeFences (s : string) : string :=
  removeAll bareFenceAt 0 (removeAll taggedFenceAt 0 s).

Definition blankControl (char : ascii) : ascii :=
  if (nat_of_ascii char <? 32)%nat then " "%char else char.

Fixpoint mapChars (f : ascii -> ascii) (s : string) : string :=
  match s with
  | EmptyString => EmptyString
  | String c r => String (f c) (mapChars f r)
  end.

(** The text [cleanAiResponse] hands to [JSON.parse]. *)
Definition normalizedPayload (responseText : string) : string :=
  let cleanText := trim responseText in
  let cleanText := trim (removeFences cleanText) in
  let extractedArray :=
    match extractFirstJsonArray cleanText with
    | Some a => a
    | None => cleanText
    end in
  mapChars blankControl extractedArray.

(** [typeof v === "string" && v.trim().length > 0] on a property that may
    be absent. *)
Definition nonBlankString (v : option json) : bool :=
  match v with
  | Some (JStr s) => (0 <? List.length (utrim s))%nat
  | _ => false
  end.

(** The callback of [data.every]: an array is an object without the two
    properties; [null] and the primitives are no objects. *)
Definition validItem (item : json) : bool :=
  match item with
  | JObj members =>
      let question := getProp "question" members in
      let answer := getProp "answer" members in
      nonBlankString question && nonBlankString answer
  | JArr _ => false
  | _ => false
  end.

Definition isValidQuestions (data : json) : bool :=
  match data with
  | JArr items => forallb validItem items
  | _ => false
  end.

(** The required shape of one entry, in the words of the specification:
    an object whose [question] and [answer] are strings of positive
    trimmed length. *)
Definition wellFormedItem (item : json) : Prop :=
  exists members q a,
    item = JObj members
    /\ getProp "question" members = Some (JStr q)
    /\ getProp "answer" members = Some (JStr a)
    /\ 0 < List.length (utrim q)
    /\ 0 < List.length (utrim a).

(** An object literal [{ question, answer }]. *)
Definition interviewQuestion (question answer : string) : json :=
  JObj [(units "question", JStr (units question));
        (units "answer", JStr (units answer))].

Definition buildFallbackQuestions (data : FormData) : json :=
  JArr [
    interviewQuestion
      ("Introduce your approach to building a " ++ position data ++
       " project using " ++ techStack data ++ ".")
      "Define requirements, design architecture, break work into milestones, implement iteratively, and validate with tests and monitoring.";
    interviewQuestion
      ("How would you structure a scalable codebase for " ++ position data ++ "?")
      "Use modular boundaries, separate concerns, enforce code standards, add shared utilities, and document conventions for long-term maintainability.";
    interviewQuestion
      ("How do you handle debugging and performance issues in " ++
       techStack data ++ "?")
      "Reproduce reliably, collect logs/metrics, profile bottlenecks, fix root causes, and verify improvements with measurable benchmarks.";
    interviewQuestion
      "What testing strategy would you follow for this role?"
      "Combine unit, integration, and end-to-end tests with CI checks to prevent regressions and ensure release confidence.";
    interviewQuestion
      "How do you collaborate with product/design teams on ambiguous requirements?"
      "Clarify assumptions early, align on acceptance criteria, communicate tradeoffs, and iterate with frequent feedback loops."
  ].

(** The prompt of [generateAiResponse]. *)
Definition promptOf (data : FormData) : string :=
  quoted "
        As an experienced prompt engineer, generate a JSON array containing 5 technical interview questions along with detailed answers based on the following job information. Each object in the array should have the fields 'question' and 'answer', formatted as follows:

        [
          { 'question': '<Question text>', 'answer': '<Answer text>' },
          ...
        ]

        Job Information:
        - Job Position: " ++
  position data ++
  "
        - Job Description: " ++
  description data ++
  "
        - Years of Experience Required: " ++
  experience data ++
  "
        - Tech Stacks: " ++
  techStack data ++
  "

        The questions should assess skills in " ++
  techStack data ++
  " development and best practices, problem-solving, and experience handling complex requirements. Please format the output strictly as an array of JSON objects without any additional labels, code blocks, or explanations. Return only the JSON array with questions and answers.
        ".

Definition messageOf (e : exn) (otherwise : string) : string :=
  match e with
  | JsError m => m
  | JsOther => otherwise
  end.

(** [reason.toLowerCase().includes("timed out")] *)
Definition isTimeoutMessage (reason : string) : bool :=
  includes (toLowerCase reason) "timed out".

Section Generation.

Variable w : world.

Definition cleanAiResponse (responseText : string) : M json :=
  let normalized := normalizedPayload responseText in
  match Json.parse normalized with
  | Some v => ret v
  | None =>
      throw (JsError ("Invalid JSON format: " ++ syntaxErrorMessage w normalized))
  end.

Definition generateAiResponse (data : FormData) : M json :=
  aiResult <- sendMessage w (promptOf data) ;;
  text <- match aiResult with
          | inl e => throw e
          | inr t => ret t
          end ;;
  cleanedResponse <- cleanAiResponse text ;;
  if negb (isValidQuestions cleanedResponse)
  then throw (JsError "AI returned unexpected question format")
  else ret cleanedResponse.

(** The description of the warning toast. *)
Definition fallbackWarning (reason : string) : string :=
  "Using fallback interview questions for now. (" ++ reason ++ ")".

Definition useFallback (data : FormData) (reason : string) : M json :=
  _ <- consoleError ;;
  let questions := buildFallbackQuestions data in
  _ <- toastWarning (fallbackWarning reason) ;;
  ret questions.

End Generation.

End Form.

(** ** The asynchronous functions, in flight

    The functions of [Scripts] and [Form] that [await], as tasks: the same
    bodies, suspended at each request instead of run through.  Run alone
    they are the functions above ([TasksFacts]). *)

Module Tasks.

Import Js Async Json Scripts Form.

#[local] Notation "x <~ m ;; k" := (bindT m (fun x => k))
  (at level 61, m at next level, right associativity).

Section Catalogue.

Variable w : world.

Definition listAvailableModels : T (list string) :=
  if negb (truthy (apiKey w)) then retT []
  else
    fun st =>
      (r <~ awaitT (fetchModels w (fetches st)) ;;
       match r with
       | FetchRejects | FetchNotOk | FetchBadJson => retT []
       | FetchOk models => retT (availableOf models)
       end) (countFetch st).

Definition getCandidateModels : T (list string) :=
  fun st =>
    match cachedModelList st with
    | Some l => (st, Done l)
    | None =>
        (available <~ listAvailableModels ;;
         let orderedCandidates :=
           if (0 <? List.length available)%nat
           then preferredModels (configuredModel w) ++ available
           else preferredModels (configuredModel w) in
         let l := uniq (map normalizeModelId orderedCandidates) in
         fun st' => (setCache l st', Done l)) st
    end.

Definition requestGeneration (modelId prompt : string) : T generation :=
  fun st =>
    awaitT (generate w (List.length (attempts st)) modelId prompt)
           (recordAttempt modelId st).

Fixpoint sweep (prompt : string) (candidates : list string)
    (lastError : option exn) : T ((exn + string) + option exn) :=
  match candidates with
  | [] => retT (inr lastError)
  | candidate :: rest =>
      let modelId := normalizeModelId candidate in
      g <~ requestGeneration modelId prompt ;;
      match g with
      | GenOk text => retT (inl text)
      | GenFails e => sweep prompt rest (Some e)
      end
  end.

Definition sendMessage (prompt : string) : T (exn + string) :=
  if negb (truthy (apiKey w)) then throwT (JsError "Missing VITE_GEMINI_API_KEY")
  else
    candidates <~ getCandidateModels ;;
    r <~ sweep prompt candidates None ;;
    match r with
    | inl text => retT text
    | inr lastError => throwT (JsError (aggregateMessage candidates lastError))
    end.

Definition cleanAiResponse (responseText : string) : T json :=
  let normalized := normalizedPayload responseText in
  match Json.parse normalized with
  | Some v => retT v
  | None =>
      throwT (JsError ("Invalid JSON format: " ++ syntaxErrorMessage w normalized))
  end.

Definition generateAiResponse (data : FormData) : T json :=
  aiResult <~ sendMessage (promptOf data) ;;
  text <~ match aiResult with
          | inl e => throwT e
          | inr t => retT t
          end ;;
  cleanedResponse <~ cleanAiResponse text ;;
  if negb (isValidQuestions cleanedResponse)
  then throwT (JsError "AI returned unexpected question format")
  else retT cleanedResponse.

End Catalogue.

End Tasks.

(** ** The timeout, retry and fallback orchestration of [onSubmit] *)

Module Orchestration.

Import Js Async Json Scripts Form.

(** The process state with what is in flight. *)
Definition system : Type := (state * task unit)%type.

Definition C (A : Type) : Type := system -> outcome A * system.

(** [try { m } catch (error) { h error }] *)
Definition tryCatchC {A} (m : C A) (h : exn -> C A) : C A :=
  fun sys =>
    match m sys with
    | (Throw e, sys') => h e sys'
    | r => r
    end.

(** A computation that awaits nothing, run beside what is in flight. *)
Definition aside {A} (m : M A) : C A :=
  fun sys => let (r, st') := m (fst sys) in (r, (st', snd sys)).

(** [withTimeout]: the promise, under way since its call, races a timer of
    [ms] milliseconds.  When the timer fires first the result is the
    time-out error and the promise stays in flight: nothing cancels it. *)
Definition withTimeout {A} (promise : T A) (ms : N) (message : string) : C A :=
  fun sys =>
    let (st, inFlight) := sys in
    let deadline := (clock st + ms)%N in
    let (st0, a) := promise (armTimer ms st) in
    match race a inFlight deadline st0 with
    | (Pending, st', rest) =>
        (Throw (JsError message), (setClock deadline st', rest))
    | (r, st', rest) => (r, (st', rest))
    end.

(** The state at time [t], with what is in flight run until then. *)
Definition during (inFlight : task unit) (t : N) (st : state) : state :=
  setClock t (fst (elapse inFlight t st)).

Section Generation.

Variable w : world.

(** The generation block of [onSubmit]: the inner [try] that assigns
    [questions]. *)
Definition generation (data : FormData) : C json :=
  tryCatchC
    (withTimeout (Tasks.generateAiResponse w data) AI_TIMEOUT_MS
       "AI generation timed out")
    (fun error =>
       let reason := messageOf error "Unknown AI error" in
       let isTimeout := isTimeoutMessage reason in
       if isTimeout then
         tryCatchC
           (withTimeout (Tasks.generateAiResponse w data) AI_RETRY_TIMEOUT_MS
              "AI generation timed out after retry")
           (fun retryError =>
              let retryReason := messageOf retryError "Unknown AI error" in
              aside (useFallback data retryReason))
       else aside (useFallback data reason)).

(** The generation block started with nothing in flight: its outcome and
    the process state when it is over. *)
Definition generateQuestions (data : FormData) : M json :=
  fun st => let (r, sys) := generation data (st, idle) in (r, fst sys).

(** What the generation block, started with nothing in flight, leaves
    under way when it is over. *)
Definition abandoned (data : FormData) (st : state) : task unit :=
  snd (snd (generation data (st, idle))).

End Generation.

End Orchestration.


(** ** Sample environments *)

Module Samples.

Import Js Async Json Scripts Form Orchestration.

Definition liveModels : list modelDescriptor :=
  [mkDescriptor (Some "models/gemini-2.5-pro") (Some ["generateContent"]);
   mkDescriptor (Some "models/embedding-001") (Some ["embedContent"]);
   mkDescriptor (Some "models/gemini-3-new")
                (Some ["generateContent"; "countTokens"])].

Definition goodText : string := quoted "[{'question':'Q1','answer':'A1'}]".

(** A key and the alias are configured; discovery answers; the first two
    generation requests fail and every later one succeeds. *)
Definition thirdSucceeds : world :=
  mkWorld (Some "key") (Some "pro3")
    (fun _ => Some (120%N, FetchOk (Some liveModels)))
    (fun n _ _ =>
       match n with
       | 0 | 1 => Some (100%N, GenFails (JsError "quota exceeded"))
       | _ => Some (200%N, GenOk (inr goodText))
       end)
    (fun _ => "Unexpected token").

(** A key is configured; discovery is refused and every generation
    request fails. *)
Definition allFail : world :=
  mkWorld (Some "key") None
    (fun _ => Some (50%N, FetchNotOk))
    (fun _ _ _ => Some (100%N, GenFails (JsError "quota exceeded")))
    (fun _ => "Unexpected token").

(** No key is configured. *)
Definition noKey : world :=
  mkWorld None None
    (fun _ => Some (50%N, FetchNotOk))
    (fun _ _ _ => Some (200%N, GenOk (inr goodText)))
    (fun _ => "Unexpected token").

(** A key is configured; the first generation request never settles and
    every later one succeeds. *)
Definition firstHangs : world :=
  mkWorld (Some "key") None
    (fun _ => Some (50%N, FetchNotOk))
    (fun n _ _ =>
       match n with
       | 0 => None
       | _ => Some (200%N, GenOk (inr goodText))
       end)
    (fun _ => "Unexpected token").

(** A key is configured; no generation request ever settles. *)
Definition allHang : world :=
  mkWorld (Some "key") None
    (fun _ => Some (50%N, FetchNotOk))
    (fun _ _ _ => None)
    (fun _ => "Unexpected token").

(** A key is configured; every generation request returns an array whose
    only entry has an empty question. *)
Definition emptyQuestion : world :=
  mkWorld (Some "key") None
    (fun _ => Some (50%N, FetchNotOk))
    (fun _ _ _ =>
       Some (200%N, GenOk (inr (quoted "[{'question':'','answer':'A1'}]"))))
    (fun _ => "Unexpected token").

(** A key is configured, and a model whose identifier begins with the
    namespace prefix; discovery answers. *)
Definition prefixedModel : world :=
  mkWorld (Some "key") (Some "models/tuned-1")
    (fun _ => Some (120%N, FetchOk (Some liveModels)))
    (fun _ _ _ => Some (200%N, GenOk (inr goodText)))
    (fun _ => "Unexpected token").

(** The same with an identifier that begins with the prefix twice. *)
Definition doublePrefix : world :=
  mkWorld (Some "key") (Some "models/models/tuned-1")
    (fun _ => Some (120%N, FetchOk (Some liveModels)))
    (fun _ _ _ => Some (200%N, GenOk (inr goodText)))
    (fun _ => "Unexpected token").

(** A reply with an escape above 00FF in a string, and its value. *)
Definition escapedText : string :=
  quoted "[{'question':'What\u2019s a hook?','answer':'A1'}]".

Definition escapedQuestions : json :=
  JArr [JObj [(units "question",
               JStr (units "What" ++ [8217%N] ++ units "s a hook?"));
              (units "answer", JStr (units "A1"))]].

(** A key is configured; every generation request returns an array whose
    only entry has an empty question, beside an answer with an escape
    above 00FF. *)
Definition emptyQuestionEscaped : world :=
  mkWorld (Some "key") None
    (fun _ => Some (50%N, FetchNotOk))
    (fun _ _ _ =>
       Some (200%N,
             GenOk (inr (quoted "[{'question':'','answer':'It\u2019s A1'}]"))))
    (fun _ => "Unexpected token").

(** A key is configured; discovery is refused and every generation
    request fails with a message that holds the words a timeout is
    detected by. *)
Definition markedFailure : world :=
  mkWorld (Some "key") None
    (fun _ => Some (50%N, FetchNotOk))
    (fun _ _ _ => Some (100%N, GenFails (JsError "upstream request timed out")))
    (fun _ => "Unexpected token").

(** A key is configured; discovery answers after 95 s and every generation
    request succeeds. *)
Definition slowDiscovery : world :=
  mkWorld (Some "key") None
    (fun _ => Some (95000%N, FetchOk (Some liveModels)))
    (fun _ _ _ => Some (200%N, GenOk (inr goodText)))
    (fun _ => "Unexpected token").

Definition threeCandidates : state :=
  setCache ["model-a"; "model-b"; "model-c"] initial.

Definition job : FormData :=
  mkFormData "Frontend Developer" "Build and maintain the web client" "2"
             "React, TypeScript".

End Samples.

(** ** The submit handler of the component *)

Module Submit.

Import Js Async Json Scripts Form Orchestration.

(** What [updateDoc] and [addDoc] are called with; the server time stamps
    are left out. *)
Inductive request : Type :=
| UpdateDoc (id : string) (questions : json) (data : FormData)
| AddDoc (data : FormData) (user : option string) (questions : json).

Definition questionsOf (r : request) : json :=
  match r with
  | UpdateDoc _ questions _ => questions
  | AddDoc _ _ questions => questions
  end.

(** The component state and what the user sees of [onSubmit]: the process
    state, the [loading] flag, the write requests sent to the store, the
    [toast] calls with title and description, the descriptions of the
    [toast.error] calls, the targets of [navigate] and the values given to
    [console.log], oldest first. *)
Record page : Type := mkPage {
  process : state;
  loading : bool;
  requests : list request;
  toasts : list (string * string);
  errorToasts : list string;
  navigations : list string;
  logged : list exn
}.

(** What the component is rendered with: [userId] of [useAuth], the id of
    [initialData] when an interview is edited, [isValid] of the form state,
    and the store: its answer to the n-th write request settles after a
    latency, fulfilled or rejected, or never. *)
Record session : Type := mkSession {
  userId : option string;
  initialData : option string;
  isValid : bool;
  firestore : nat -> settles (option exn)
}.

Definition P (A : Type) : Type := page -> outcome A * page.

Definition retP {A} (a : A) : P A := fun pg => (Return a, pg).

Definition throwP {A} (e : exn) : P A := fun pg => (Throw e, pg).

Definition bindP {A B} (m : P A) (k : A -> P B) : P B :=
  fun pg =>
    match m pg with
    | (Return a, pg') => k a pg'
    | (Throw e, pg') => (Throw e, pg')
    | (Pending, pg') => (Pending, pg')
    end.

Notation "x <~ m ;; k" := (bindP m (fun x => k))
  (at level 61, m at next level, right associativity).

(** [try { m } catch (error) { h error } finally { final }] with a
    synchronous [final]; a block that stays pending reaches neither. *)
Definition tryCatchFinally {A} (m : P A) (h : exn -> P A)
    (final : page -> page) : P A :=
  fun pg =>
    match m pg with
    | (Throw e, pg') =>
        match h e pg' with
        | (Pending, pg'') => (Pending, pg'')
        | (r, pg'') => (r, final pg'')
        end
    | (Pending, pg') => (Pending, pg')
    | (r, pg') => (r, final pg')
    end.

Definition withProcess (st : state) (pg : page) : page :=
  mkPage st (loading pg) (requests pg) (toasts pg) (errorToasts pg)
         (navigations pg) (logged pg).

(** A block of the handler, started with nothing in flight: its result
    with what it leaves in flight. *)
Definition fresh {A} (m : C A) : P (A * task unit) :=
  fun pg =>
    match m (process pg, idle) with
    | (Return a, (st, rest)) => (Return (a, rest), withProcess st pg)
    | (Throw e, (st, _)) => (Throw e, withProcess st pg)
    | (Pending, (st, _)) => (Pending, withProcess st pg)
    end.

Definition setLoading (b : bool) (pg : page) : page :=
  mkPage (process pg) b (requests pg) (toasts pg) (errorToasts pg)
         (navigations pg) (logged pg).

Definition toast (title description : string) : P unit :=
  fun pg =>
    (Return tt,
     mkPage (process pg) (loading pg) (requests pg)
            (toasts pg ++ [(title, description)]) (errorToasts pg)
            (navigations pg) (logged pg)).

Definition toastError (description : string) : P unit :=
  fun pg =>
    (Return tt,
     mkPage (process pg) (loading pg) (requests pg) (toasts pg)
            (errorToasts pg ++ [description]) (navigations pg) (logged pg)).

Definition navigate (target : string) : P unit :=
  fun pg =>
    (Return tt,
     mkPage (process pg) (loading pg) (requests pg) (toasts pg)
            (errorToasts pg) (navigations pg ++ [target]) (logged pg)).

Definition consoleLog (e : exn) : P unit :=
  fun pg =>
    (Return tt,
     mkPage (process pg) (loading pg) (requests pg) (toasts pg)
            (errorToasts pg) (navigations pg) (logged pg ++ [e])).

Definition sendRequest (r : request) (pg : page) : page :=
  mkPage (process pg) (loading pg) (requests pg ++ [r]) (toasts pg)
         (errorToasts pg) (navigations pg) (logged pg).

(** The promise of [updateDoc] or [addDoc]. *)
Definition written (reply : settles (option exn)) : T unit :=
  bindT (awaitT reply)
        (fun r =>
           match r with
           | None => retT tt
           | Some e => throwT e
           end).

Definition SAVE_TIMEOUT_MS : N := 30000.

Section Component.

Variable s : session.
Variable w : world.

Definition toastMessage : string * string :=
  match initialData s with
  | Some _ => ("Updated..!", "Changes saved successfully...")
  | None => ("Created..!", "New Mock Interview created...")
  end.

(** [await withTimeout(updateDoc(..) or addDoc(..), 30000, message)]: the
    request leaves when the call is made; [inFlight] is what the generation
    block left under way. *)
Definition save (r : request) (message : string) (inFlight : task unit)
    : P unit :=
  fun pg =>
    let reply := firestore s (List.length (requests pg)) in
    let sent := sendRequest r pg in
    let (o, sys) :=
      withTimeout (written reply) SAVE_TIMEOUT_MS message
                  (process sent, inFlight) in
    (o, withProcess (fst sys) sent).

Definition onSubmit (data : FormData) : P unit :=
  tryCatchFinally
    (fun pg =>
       (_ <~ (if negb (truthy (userId s))
              then throwP (JsError "You must be signed in to create interview")
              else retP tt) ;;
        generated <~ fresh (generation w data) ;;
        let questions := fst generated in
        let inFlight := snd generated in
        _ <~ match initialData s with
             | Some id =>
                 if isValid s then
                   _ <~ save (UpdateDoc id questions data)
                             "Saving interview timed out" inFlight ;;
                   toast (fst toastMessage) (snd toastMessage)
                 else retP tt
             | None =>
                 if isValid s then
                   _ <~ save (AddDoc data (userId s) questions)
                             "Creating interview timed out" inFlight ;;
                   toast (fst toastMessage) (snd toastMessage)
                 else retP tt
             end ;;
        navigate "/generate") (setLoading true pg))
    (fun error =>
       _ <~ consoleLog error ;;
       toastError
         (messageOf error "Something went wrong. Please try again later"))
    (setLoading false).

End Component.

(** The request [onSubmit] sends for the questions it obtained. *)
Definition requestOf (s : session) (data : FormData) (questions : json)
    : request :=
  match initialData s with
  | Some id => UpdateDoc id questions data
  | None => AddDoc data (userId s) questions
  end.

Definition saveTimeoutMessage (s : session) : string :=
  match initialData s with
  | Some _ => "Saving interview timed out"
  | None => "Creating interview timed out"
  end.

(** The page after a write the store acknowledged in time. *)
Definition savedPage (s : session) (data : FormData) (q : json) (st : state)
    (pg : page) : page :=
  mkPage st false (requests pg ++ [requestOf s data q])
         (toasts pg ++ [toastMessage s]) (errorToasts pg)
         (navigations pg ++ ["/generate"]) (logged pg).

(** The page after a write that failed or was not answered in time. *)
Definition failedPage (s : session) (data : FormData) (q : json) (e : exn)
    (st : state) (pg : page) : page :=
  mkPage st false (requests pg ++ [requestOf s data q]) (toasts pg)
         (errorToasts pg
          ++ [messageOf e "Something went wrong. Please try again later"])
         (navigations pg) (logged pg ++ [e]).

End Submit.

(** ** Vocabulary of the properties *)

Module Observations.

Import Js Async Json Scripts Form Orchestration.

(** A computation keeps a filled catalogue cache when, started with the
    cache holding a list, it ends with the same list cached and no
    discovery request made. *)
Definition keepsCache {A} (m : M A) : Prop :=
  forall st l r st',
    cachedModelList st = Some l -> m st = (r, st') ->
    cachedModelList st' = Some l /\ fetches st' = fetches st.

(** A computation makes at most [n] discovery requests. *)
Definition fetchesAtMost {A} (n : nat) (m : M A) : Prop :=
  forall st r st',
    m st = (r, st') -> fetches st <= fetches st' <= fetches st + n.

(** Every resumption of the task leaves [f] of the state as it was. *)
Fixpoint keeps {A X} (f : state -> X) (t : task A) : Prop :=
  match t with
  | Wake _ resume =>
      forall st, f (fst (resume st)) = f st /\ keeps f (snd (resume st))
  | _ => True
  end.

(** Whatever the task returns satisfies [Q]. *)
Fixpoint yields {A} (Q : A -> Prop) (t : task A) : Prop :=
  match t with
  | Done a => Q a
  | Wake _ resume => forall st, yields Q (snd (resume st))
  | _ => True
  end.

(** The function keeps [f] from its call on. *)
Definition holds {A X} (f : state -> X) (m : T A) : Prop :=
  forall st, f (fst (m st)) = f st /\ keeps f (snd (m st)).

(** The suspensions of the task are over at times that do not decrease,
    none before [now], and a resumption leaves the clock at its time. *)
Fixpoint punctual {A} (t : task A) (now : N) : Prop :=
  match t with
  | Wake time resume =>
      (now <= time)%N
      /\ forall st, clock st = time ->
                    clock (fst (resume st)) = time
                    /\ punctual (snd (resume st)) time
  | _ => True
  end.

Definition onTime {A} (m : T A) : Prop :=
  forall st, clock (fst (m st)) = clock st
             /\ punctual (snd (m st)) (clock st).

(** What no task touches once it is under way: the clock, the count of
    discovery requests, the timers, the log and the warnings; and, for a
    task that found the catalogue cached, the cache. *)
Definition quietly (st : state) : N * nat * list N * nat * list string :=
  (clock st, fetches st, timers st, errorsLogged st, warnings st).

Definition stilly (st : state)
    : N * nat * list N * nat * list string * option (list string) :=
  (quietly st, cachedModelList st).

Definition unclocked (st : state) : nat * list N * nat * list string :=
  (fetches st, timers st, errorsLogged st, warnings st).

(** The function makes at most one discovery request, at its call, and
    touches nothing else of [quietly]. *)
Definition opens {A} (m : T A) : Prop :=
  forall st,
    clock (fst (m st)) = clock st
    /\ timers (fst (m st)) = timers st
    /\ errorsLogged (fst (m st)) = errorsLogged st
    /\ warnings (fst (m st)) = warnings st
    /\ fetches st <= fetches (fst (m st)) <= fetches st + 1
    /\ keeps quietly (snd (m st)).

(** A question set read from a reply of the model. *)
Definition parsedReply (q : json) : Prop :=
  isValidQuestions q = true
  /\ exists text, Json.parse (normalizedPayload text) = Some q.

(** [response.ok] of a discovery result. *)
Definition okResult (r : fetchResult) : bool :=
  match r with FetchOk _ => true | _ => false end.

(** [data.models || []] *)
Definition modelsOf (models : option (list modelDescriptor))
    : list modelDescriptor :=
  match models with Some l => l | None => [] end.

(** The loop of [extractFirstJsonArray] with the positions it stops at:
    the same branches as [scanArray], returning the bounds of the slice
    instead of the slice. *)
Fixpoint locate (rest : string) (i : nat) (start : Z) (depth : nat)
    (inString isEscaped : bool) : option (nat * nat) :=
  match rest with
  | EmptyString => None
  | String char rest' =>
      if inString then
        if isEscaped then locate rest' (S i) start depth inString false
        else if Ascii.eqb char "\" then
          locate rest' (S i) start depth inString true
        else if Ascii.eqb char dquote then
          locate rest' (S i) start depth false isEscaped
        else locate rest' (S i) start depth inString isEscaped
      else if Ascii.eqb char dquote then
        locate rest' (S i) start depth true isEscaped
      else if Ascii.eqb char "[" then
        locate rest' (S i)
          (if (depth =? 0)%nat then Z.of_nat i else start) (depth + 1)
          inString isEscaped
      else if Ascii.eqb char "]" && (0 <? depth)%nat then
        let depth' := depth - 1 in
        if (depth' =? 0)%nat && (0 <=? start)%Z
        then Some (Z.to_nat start, i + 1)
        else locate rest' (S i) start depth' inString isEscaped
      else locate rest' (S i) start depth inString isEscaped
  end.

(** A start position recorded [n] characters further into the text. *)
Definition shiftStart (n : nat) (start : Z) : Z :=
  if (0 <=? start)%Z then (start + Z.of_nat n)%Z else start.

(** Text with no double quote and no opening bracket. *)
Fixpoint plainProse (s : string) : bool :=
  match s with
  | EmptyString => true
  | String c r =>
      negb (Ascii.eqb c dquote) && negb (Ascii.eqb c "[") && plainProse r
  end.

(** Text with no code unit below 32. *)
Fixpoint noControl (s : string) : bool :=
  match s with
  | EmptyString => true
  | String c r => (32 <=? nat_of_ascii c)%nat && noControl r
  end.

End Observations.

(** ** Sample sessions *)

Module Sessions.

Import Js Async Json Scripts Form Orchestration Submit.

(** The page before anything happened. *)
Definition blankPage : page := mkPage initial false [] [] [] [] [].

(** The user id is the empty string. *)
Definition signedOut : session :=
  mkSession (Some "") None true (fun _ => Some (40%N, None)).

(** A signed-in user creates an interview; the store never answers. *)
Definition silentStore : session :=
  mkSession (Some "user-1") None true (fun _ => None).

(** A signed-in user creates an interview; the store rejects the write. *)
Definition refusingStore : session :=
  mkSession (Some "user-1") None true
            (fun _ => Some (40%N, Some (JsError "permission-denied"))).

(** A signed-in user submits a form that is not valid. *)
Definition unfinishedForm : session :=
  mkSession (Some "user-1") None false (fun _ => Some (40%N, None)).

End Sessions.

(** * Properties *)

(** ** Strings and sets *)

Module JsFacts.

Import Js.

Lemma seen_iff (x : string) (seen : list string) :
  existsb (String.eqb x) seen = true <-> In x seen.
Proof.
  rewrite existsb_exists. split.
  - intros [y [Hin Heq]]. apply String.eqb_eq in Heq. now subst.
  - intros Hin. exists x. split; [assumption | apply String.eqb_refl].
Qed.

Lemma setSpread_In (l : list string) :
  forall seen x, In x (setSpread seen l) <-> In x l /\ ~ In x seen.
Proof.
  induction l as [| a l IH]; intros seen x; simpl.
  - tauto.
  - destruct (existsb (String.eqb a) seen) eqn:E.
    + apply seen_iff in E. rewrite IH. split.
      * tauto.
      * intros [[-> | H] Hn]; [contradiction | tauto].
    + assert (Hna : ~ In a seen) by (rewrite <- seen_iff, E; discriminate).
      simpl. rewrite IH. simpl. split.
      * intros [-> | [H Hn]]; [tauto |]. split; [tauto |]. intro; apply Hn; tauto.
      * intros [[-> | H] Hn]; [tauto |].
        destruct (string_dec a x) as [-> | Hne]; [tauto |].
        right. split; [assumption |]. intros [Heq | Hs]; [contradiction | tauto].
Qed.

Lemma setSpread_NoDup (l : list string) :
  forall seen, NoDup (setSpread seen l).
Proof.
  induction l as [| a l IH]; intros seen; simpl.
  - constructor.
  - destruct (existsb (String.eqb a) seen) eqn:E; [apply IH |].
    constructor; [| apply IH].
    rewrite setSpread_In. simpl. tauto.
Qed.

(** What stands before an entry of the result is what stands before its
    first occurrence in the input. *)
Lemma setSpread_order (l : list string) :
  forall seen pre x post,
    setSpread seen l = pre ++ x :: post ->
    exists lpre lpost,
      l = lpre ++ x :: lpost /\ ~ In x lpre /\ ~ In x seen
      /\ forall y, In y pre <-> In y lpre /\ ~ In y seen.
Proof.
  induction l as [| a l IH]; intros seen pre x post H; simpl in H.
  - destruct pre; discriminate.
  - destruct (existsb (String.eqb a) seen) eqn:E.
    + apply seen_iff in E.
      destruct (IH _ _ _ _ H) as (lpre & lpost & -> & Hn & Hs & Hy).
      exists (a :: lpre), lpost. split; [reflexivity |].
      split; [| split; [assumption |]].
      * intros [-> | Hin]; tauto.
      * intros y. rewrite Hy. simpl. split; [tauto |].
        intros [[-> | Hin] Hns]; tauto.
    + assert (Hna : ~ In a seen) by (rewrite <- seen_iff, E; discriminate).
      destruct pre as [| p pre]; simpl in H; injection H as -> H.
      * exists [], l. simpl. repeat split; tauto.
      * destruct (IH _ _ _ _ H) as (lpre & lpost & -> & Hn & Hs & Hy).
        simpl in Hs.
        exists (p :: lpre), lpost. split; [reflexivity |].
        split; [| split].
        -- intros [-> | Hin]; tauto.
        -- tauto.
        -- intros y. simpl. rewrite Hy. simpl. split.
           ++ intros [-> | [Hin Hns]]; tauto.
           ++ intros [[-> | Hin] Hns]; [tauto |].
              destruct (string_dec p y) as [-> | Hne]; [tauto |].
              right. split; [assumption |]. intros [Heq | Hsn]; tauto.
Qed.

(** The strings of code units below 256 among all strings. *)
Lemma isSpaceUnit_ascii (c : ascii) : isSpaceUnit (N_of_ascii c) = isWhiteSpace c.
Proof. destruct c as [[] [] [] [] [] [] [] []]; reflexivity. Qed.

Lemma units_cons (c : ascii) (r : string) :
  units (String c r) = N_of_ascii c :: units r.
Proof. reflexivity. Qed.

Lemma length_units (s : string) : List.length (units s) = String.length s.
Proof. induction s as [| c r IH]; [reflexivity |]. simpl. now rewrite <- IH. Qed.

Lemma utrimStart_units (s : string) : utrimStart (units s) = units (trimStart s).
Proof.
  induction s as [| c r IH]; [reflexivity |].
  rewrite units_cons. simpl. rewrite isSpaceUnit_ascii.
  destruct (isWhiteSpace c); [exact IH | reflexivity].
Qed.

Lemma utrimEnd_units (s : string) : utrimEnd (units s) = units (trimEnd s).
Proof.
  induction s as [| c r IH]; [reflexivity |].
  rewrite units_cons. simpl. rewrite isSpaceUnit_ascii, IH.
  destruct (trimEnd r); simpl; destruct (isWhiteSpace c); reflexivity.
Qed.

Lemma utrim_units (s : string) : utrim (units s) = units (trim s).
Proof. unfold utrim, trim. now rewrite utrimStart_units, utrimEnd_units. Qed.

End JsFacts.

(** ** The model catalogue and the candidate sweep *)

Module ScriptsFacts.

Import Js Async Scripts JsFacts.

Lemma isAlias_nicknames (normalized : string) :
  isAlias normalized = true <-> In normalized nicknames.
Proof.
  unfold isAlias, nicknames. rewrite !orb_true_iff, !String.eqb_eq. simpl.
  intuition congruence.
Qed.

(** C7, the claim as stated fails: a configured string with blanks around
    it is not returned as it is. *)
Lemma resolveConfiguredModels_padded_counterexample :
  " x" <> "" /\ ~ matchesNickname " x"
  /\ resolveConfiguredModels (Some " x") <> [" x"].
Proof.
  split; [discriminate |]. split.
  - unfold matchesNickname. rewrite <- isAlias_nicknames. vm_compute. discriminate.
  - vm_compute. discriminate.
Qed.

(** C7, as amended: a configured string that matches a nickname after
    trimming and case folding resolves to the fixed list of the alias; any
    other non-empty configured string resolves to the singleton of that
    string trimmed. *)
Theorem resolveConfiguredModels_alias_or_trimmed (model : string) :
  (matchesNickname model -> resolveConfiguredModels (Some model) = aliasModels)
  /\ (model <> "" -> ~ matchesNickname model ->
      resolveConfiguredModels (Some model) = [trim model]).
Proof.
  unfold matchesNickname. rewrite <- isAlias_nicknames.
  unfold resolveConfiguredModels. split.
  - intros H. destruct model as [| c r]; [discriminate H |]. simpl isEmpty.
    cbv iota. now rewrite H.
  - intros Hne H. destruct model as [| c r]; [congruence |]. simpl isEmpty.
    cbv iota. now destruct (isAlias _).
Qed.

Lemma resolveConfiguredModels_alias_or_trimmed_witness :
  resolveConfiguredModels (Some "  Gemini-PRO3 ") = aliasModels
  /\ resolveConfiguredModels (Some " my-model ") = ["my-model"].
Proof.
  split.
  - apply (proj1 (resolveConfiguredModels_alias_or_trimmed "  Gemini-PRO3 ")).
    right. left. reflexivity.
  - apply (proj2 (resolveConfiguredModels_alias_or_trimmed " my-model ")).
    + discriminate.
    + unfold matchesNickname. simpl. intuition discriminate.
Defined.

Lemma ordered_candidates (preferred available : list string) :
  (if (0 <? List.length available)%nat then preferred ++ available else preferred)
  = preferred ++ available.
Proof.
  destruct available; simpl; [now rewrite app_nil_r | reflexivity].
Qed.

Lemma getCandidateModels_cached (w : world) (st : state) (l : list string) :
  cachedModelList st = Some l -> getCandidateModels w st = (Return l, st).
Proof. unfold getCandidateModels. now intros ->. Qed.

Lemma getCandidateModels_fresh (w : world) (st st0 : state)
    (available : list string) :
  cachedModelList st = None ->
  listAvailableModels w st = (Return available, st0) ->
  let l := uniq (map normalizeModelId
                   (preferredModels (configuredModel w) ++ available)) in
  getCandidateModels w st = (Return l, setCache l st0).
Proof.
  intros Hc Hl. unfold getCandidateModels. rewrite Hc. unfold bind.
  rewrite Hl, ordered_candidates. reflexivity.
Qed.

Lemma listAvailableModels_fetches (w : world) (st st0 : state)
    (r : outcome (list string)) :
  listAvailableModels w st = (r, st0) -> fetches st0 <= S (fetches st).
Proof.
  unfold listAvailableModels. destruct (negb (truthy (apiKey w))).
  - unfold ret. intros [= _ <-]. lia.
  - unfold bind, await. destruct (fetchModels w (fetches st)) as [[d a] |].
    + destruct a; unfold ret; intros [= _ <-]; simpl; lia.
    + intros [= _ <-]. simpl. lia.
Qed.

Lemma prefix_drop (p s : string) :
  prefix p s = true -> s = (p ++ drop (String.length p) s)%string.
Proof.
  revert s. induction p as [| c p IH]; intros s H; [reflexivity |].
  destruct s as [| c' s]; [discriminate H |]. simpl in H.
  destruct (Ascii.ascii_dec c c') as [<- | Hne]; [| discriminate H].
  simpl. f_equal. now apply IH.
Qed.

Lemma normalizeModelId_prefixed (t : string) :
  normalizeModelId ("models/" ++ t)%string = t.
Proof. now destruct t. Qed.

Lemma normalizeModelId_cases (s : string) :
  (prefix "models/" s = false /\ normalizeModelId s = s)
  \/ s = ("models/" ++ normalizeModelId s)%string.
Proof.
  unfold normalizeModelId. destruct (prefix "models/" s) eqn:P.
  - right. exact (prefix_drop "models/" s P).
  - left. now split.
Qed.

(** C9, the claim as stated fails: one namespace prefix is removed and no
    more, so an entry of the list can still begin with it. *)
Lemma getCandidateModels_keeps_second_prefix_counterexample :
  exists l st1,
    getCandidateModels Samples.doublePrefix initial = (Return l, st1)
    /\ In "models/tuned-1" l
    /\ prefix "models/" "models/tuned-1" = true.
Proof.
  eexists. eexists. split; [vm_compute; reflexivity |].
  split; [left; reflexivity | reflexivity].
Qed.

(** C9, as amended: the first resolution yields the sources (preferred
    list, then the live list), each with one leading namespace prefix
    [models/] removed when it has one, without duplicates and in order of
    first occurrence: a source [models/t] gives the entry [t], a source
    that does not begin with the prefix is its own entry, and every entry
    comes from a source in one of these two ways; every later call returns
    that cached list and leaves the state as it is, so no second discovery
    request is made. *)
Theorem getCandidateModels_idempotent_unique (w : world) (st st0 : state)
    (available : list string) :
  cachedModelList st = None ->
  listAvailableModels w st = (Return available, st0) ->
  let raw := preferredModels (configuredModel w) ++ available in
  let sources := map normalizeModelId raw in
  exists l st1,
    getCandidateModels w st = (Return l, st1)
    /\ NoDup l
    /\ (forall x, In x l <-> In x sources)
    /\ (forall pre x post,
          l = pre ++ x :: post ->
          exists spre spost,
            sources = spre ++ x :: spost /\ ~ In x spre
            /\ forall y, In y pre <-> In y spre)
    /\ getCandidateModels w st1 = (Return l, st1)
    /\ fetches st1 <= S (fetches st)
    /\ (forall t, In ("models/" ++ t)%string raw -> In t l)
    /\ (forall s, In s raw -> prefix "models/" s = false -> In s l)
    /\ (forall x,
          In x l ->
          (In x raw /\ prefix "models/" x = false)
          \/ In ("models/" ++ x)%string raw).
Proof.
  intros Hc Hl raw sources.
  assert (M : forall x, In x (uniq sources) <-> In x sources)
    by (intros x; unfold uniq; rewrite setSpread_In; simpl; tauto).
  exists (uniq sources), (setCache (uniq sources) st0).
  split; [now apply getCandidateModels_fresh |].
  split; [apply setSpread_NoDup |].
  split; [exact M |].
  split.
  { intros pre x post H.
    destruct (setSpread_order _ _ _ _ _ H) as (spre & spost & E & Hn & _ & Hy).
    exists spre, spost. repeat split; try assumption.
    - intros Hin. now apply Hy.
    - intros Hin. apply Hy. simpl. tauto. }
  split; [now apply getCandidateModels_cached |].
  split; [simpl; eapply listAvailableModels_fetches; eassumption |].
  split; [| split].
  - intros t H. apply M. unfold sources.
    rewrite <- (normalizeModelId_prefixed t). now apply in_map.
  - intros s H P. apply M. unfold sources.
    destruct (normalizeModelId_cases s) as [[_ E] | E].
    + rewrite <- E. now apply in_map.
    + rewrite E in P. destruct (normalizeModelId s); discriminate P.
  - intros x H. apply M in H. unfold sources in H.
    apply in_map_iff in H. destruct H as (s & E & H).
    destruct (normalizeModelId_cases s) as [[P E'] | E'].
    + left. rewrite <- E, E'. now split.
    + right. rewrite <- E, <- E'. exact H.
Qed.

Lemma getCandidateModels_idempotent_unique_witness :
  exists l st1,
    getCandidateModels Samples.prefixedModel initial = (Return l, st1)
    /\ NoDup l
    /\ In "gemini-3-new" l
    /\ In "tuned-1" l
    /\ ~ In "models/tuned-1" l
    /\ getCandidateModels Samples.prefixedModel st1 = (Return l, st1)
    /\ fetches st1 <= 1.
Proof.
  destruct (getCandidateModels_idempotent_unique Samples.prefixedModel initial
              (tick 120 (countFetch initial))
              ["gemini-2.5-pro"; "gemini-3-new"] eq_refl eq_refl)
    as (l & st1 & H1 & H2 & H3 & _ & H5 & H6 & H7 & H8 & H9).
  exists l, st1. repeat split; try assumption.
  - apply H3. vm_compute. tauto.
  - apply (H7 "tuned-1"). left. reflexivity.
  - intros H. apply H9 in H. vm_compute in H.
    repeat match goal with
           | K : _ \/ _ |- _ => destruct K as [K | K]
           | K : _ /\ _ |- _ => destruct K
           end; try discriminate; try contradiction.
Defined.

Lemma last_cons {A} (l : list A) :
  forall a d, last (a :: l) d = last l a.
Proof.
  induction l as [| b l IH]; intros a d; [reflexivity |].
  change (last (a :: b :: l) d) with (last (b :: l) d).
  rewrite !IH. reflexivity.
Qed.

Section Sweep.

Variable w : world.
Variable prompt : string.

Lemma requestGeneration_answer (modelId : string) (st : state)
    (a : N * generation) :
  generate w (List.length (attempts st)) modelId prompt = Some a ->
  requestGeneration w modelId prompt st
  = (Return (snd a), tick (fst a) (recordAttempt modelId st)).
Proof.
  intros H. unfold requestGeneration, await. rewrite H. now destruct a.
Qed.

Lemma attempts_after_request (modelId : string) (d : N) (st : state) :
  attempts (tick d (recordAttempt modelId st)) = attempts st ++ [modelId].
Proof. reflexivity. Qed.

(** The sweep stops at the first candidate that succeeds. *)
Lemma sweep_first_success (c : string) (post : list string) (d : N)
    (text : exn + string) :
  forall pre fails st lastError,
    answeredBy w (List.length (attempts st)) prompt (pre ++ [c])
               (map failing fails ++ [(d, GenOk text)]) ->
    exists st',
      sweep w prompt (pre ++ c :: post) lastError st = (Return (inl text), st')
      /\ attempts st' = attempts st ++ map normalizeModelId (pre ++ [c]).
Proof.
  induction pre as [| p pre IH]; intros fails st lastError H.
  - destruct fails as [| f fails]; simpl in H.
    + destruct H as [H _]. simpl. unfold bind.
      rewrite (requestGeneration_answer _ _ _ H). simpl.
      eexists. split; reflexivity.
    + destruct H as [_ H]. destruct (map failing fails ++ _) eqn:E; [| contradiction].
      now destruct (map failing fails).
  - destruct fails as [| f fails]; simpl in H.
    + destruct H as [_ H]. now destruct (pre ++ [c]) eqn:E; [destruct pre |].
    + destruct H as [H Hrest]. simpl. unfold bind.
      rewrite (requestGeneration_answer _ _ _ H). simpl snd. cbv iota.
      set (st1 := tick _ _).
      assert (Hlen : List.length (attempts st1) = S (List.length (attempts st))).
      { unfold st1. rewrite attempts_after_request, length_app. simpl. lia. }
      rewrite <- Hlen in Hrest.
      destruct (IH fails st1 (Some (snd f)) Hrest) as (st' & Hs & Ha).
      exists st'. split; [exact Hs |].
      rewrite Ha. unfold st1. rewrite attempts_after_request, <- app_assoc.
      reflexivity.
Qed.

(** When every candidate fails the sweep ends with the last error. *)
Lemma sweep_all_fail :
  forall candidates fails st lastError,
    answeredBy w (List.length (attempts st)) prompt candidates
               (map failing fails) ->
    exists st',
      sweep w prompt candidates lastError st
      = (Return (inr (last (map (fun f => Some (snd f)) fails) lastError)), st')
      /\ attempts st' = attempts st ++ map normalizeModelId candidates
      /\ cachedModelList st' = cachedModelList st.
Proof.
  induction candidates as [| c cs IH]; intros fails st lastError H.
  - destruct fails; [| contradiction]. simpl. eexists.
    split; [reflexivity |]. now rewrite app_nil_r.
  - destruct fails as [| f fails]; [contradiction |]. simpl in H.
    destruct H as [H Hrest]. simpl sweep. unfold bind.
    rewrite (requestGeneration_answer _ _ _ H).
    change (snd (failing f)) with (GenFails (snd f)). cbv iota.
    set (st1 := tick _ _).
    assert (Hlen : List.length (attempts st1) = S (List.length (attempts st))).
    { unfold st1. rewrite attempts_after_request, length_app. simpl. lia. }
    rewrite <- Hlen in Hrest.
    destruct (IH fails st1 (Some (snd f)) Hrest) as (st' & Hs & Ha & Hc).
    exists st'. split; [| split].
    + rewrite Hs. do 3 f_equal. simpl map. now rewrite last_cons.
    + rewrite Ha. unfold st1. rewrite attempts_after_request, <- app_assoc.
      reflexivity.
    + rewrite Hc. reflexivity.
Qed.

End Sweep.

Lemma sendMessage_with_key (w : world) (prompt : string) (st st1 : state)
    (candidates : list string) :
  truthy (apiKey w) = true ->
  getCandidateModels w st = (Return candidates, st1) ->
  sendMessage w prompt st
  = match sweep w prompt candidates None st1 with
    | (Return (inl text), st2) => (Return text, st2)
    | (Return (inr lastError), st2) =>
        (Throw (JsError (aggregateMessage candidates lastError)), st2)
    | (Throw e, st2) => (Throw e, st2)
    | (Pending, st2) => (Pending, st2)
    end.
Proof.
  intros Hkey Hc. unfold sendMessage. rewrite Hkey.
  change (negb true) with false. cbv iota beta. unfold bind. rewrite Hc.
  destruct (sweep w prompt candidates None st1) as [[[t | e] | e |] st2];
    reflexivity.
Qed.

(** C6: candidates are requested in list order; the first success is
    returned at once and no later candidate is requested; when every
    candidate fails the error names all candidates and ends with the
    message of the last underlying error. *)
Theorem sendMessage_first_success_or_aggregate (w : world) (prompt : string)
    (st st1 : state) (candidates : list string) :
  truthy (apiKey w) = true ->
  getCandidateModels w st = (Return candidates, st1) ->
  (forall pre c post fails d text,
      candidates = pre ++ c :: post ->
      answeredBy w (List.length (attempts st1)) prompt (pre ++ [c])
                 (map failing fails ++ [(d, GenOk text)]) ->
      exists st2,
        sendMessage w prompt st = (Return text, st2)
        /\ attempts st2 = attempts st1 ++ map normalizeModelId (pre ++ [c]))
  /\ (forall fails d m,
        answeredBy w (List.length (attempts st1)) prompt candidates
                   (map failing (fails ++ [(d, JsError m)])) ->
        exists st2,
          sendMessage w prompt st
          = (Throw (JsError ("Gemini failed for models: " ++
                             join ", " candidates ++ ". " ++ m)), st2)
          /\ attempts st2 = attempts st1 ++ map normalizeModelId candidates).
Proof.
  intros Hkey Hc. rewrite (sendMessage_with_key _ _ _ _ _ Hkey Hc). split.
  - intros pre c post fails d text -> H.
    destruct (sweep_first_success w prompt c post d text pre fails st1 None H)
      as (st2 & Hs & Ha).
    exists st2. rewrite Hs. split; [reflexivity | exact Ha].
  - intros fails d m H.
    destruct (sweep_all_fail w prompt candidates _ st1 None H)
      as (st2 & Hs & Ha & _).
    exists st2. rewrite Hs. split; [| exact Ha].
    rewrite map_app. simpl map. rewrite last_last. reflexivity.
Qed.

Lemma sendMessage_first_success_or_aggregate_witness :
  (exists st2,
      sendMessage Samples.thirdSucceeds "p" Samples.threeCandidates
      = (Return (inr Samples.goodText), st2)
      /\ attempts st2 = ["model-a"; "model-b"; "model-c"])
  /\ (exists st2,
        sendMessage Samples.allFail "p" Samples.threeCandidates
        = (Throw (JsError "Gemini failed for models: model-a, model-b, model-c. quota exceeded"),
           st2)
        /\ attempts st2 = ["model-a"; "model-b"; "model-c"]).
Proof.
  split.
  - apply (proj1 (sendMessage_first_success_or_aggregate Samples.thirdSucceeds
                    "p" Samples.threeCandidates Samples.threeCandidates
                    ["model-a"; "model-b"; "model-c"] eq_refl eq_refl)
             ["model-a"; "model-b"] "model-c" []
             [(100%N, JsError "quota exceeded"); (100%N, JsError "quota exceeded")]
             200%N (inr Samples.goodText) eq_refl).
    simpl. repeat split.
  - apply (proj2 (sendMessage_first_success_or_aggregate Samples.allFail
                    "p" Samples.threeCandidates Samples.threeCandidates
                    ["model-a"; "model-b"; "model-c"] eq_refl eq_refl)
             [(100%N, JsError "quota exceeded"); (100%N, JsError "quota exceeded")]
             100%N "quota exceeded").
    simpl. repeat split.
Defined.

Lemma getCandidateModels_nonempty (w : world) (st st1 : state)
    (l : list string) :
  cachedModelList st = None ->
  getCandidateModels w st = (Return l, st1) -> l <> [].
Proof.
  intros Hc H. unfold getCandidateModels in H. rewrite Hc in H.
  unfold bind in H.
  destruct (listAvailableModels w st) as [[available | e |] st0];
    try discriminate H.
  rewrite ordered_candidates in H. injection H as <- _.
  assert (Hin : In (normalizeModelId "gemini-1.5-flash-latest")
                   (uniq (map normalizeModelId
                            (preferredModels (configuredModel w) ++ available)))).
  { unfold uniq. rewrite setSpread_In. split; [| tauto].
    apply in_map, in_or_app. left. unfold preferredModels.
    apply filter_In. split; [| reflexivity].
    apply in_or_app. right. simpl. tauto. }
  intros E. rewrite E in Hin. exact Hin.
Qed.

End ScriptsFacts.

(** ** Validation and the deterministic fallback *)

Module FormFacts.

Import Js Async Json Scripts Form JsFacts.

Lemma trim_head (c : ascii) (r : string) :
  isWhiteSpace c = false -> trim (String c r) = String c (trimEnd r).
Proof.
  intros H. unfold trim. simpl. rewrite H. simpl. now rewrite H.
Qed.

Lemma nonBlank_length (s : string) :
  nonBlankString (Some (JStr (units s))) = true <-> 0 < String.length (trim s).
Proof.
  unfold nonBlankString. rewrite utrim_units, length_units. apply Nat.ltb_lt.
Qed.

Lemma nonBlank_head (c : ascii) (r : string) :
  isWhiteSpace c = false ->
  nonBlankString (Some (JStr (units (String c r)))) = true.
Proof.
  intros H. apply nonBlank_length. rewrite trim_head by exact H. simpl. lia.
Qed.

Lemma validItem_interviewQuestion (q a : string) :
  validItem (interviewQuestion q a)
  = nonBlankString (Some (JStr (units q)))
    && nonBlankString (Some (JStr (units a))).
Proof. reflexivity. Qed.

Lemma nonBlank_units (s : ustring) :
  nonBlankString (Some (JStr s)) = true <-> 0 < List.length (utrim s).
Proof. unfold nonBlankString. apply Nat.ltb_lt. Qed.

Lemma buildFallbackQuestions_valid (data : FormData) :
  isValidQuestions (buildFallbackQuestions data) = true.
Proof.
  unfold buildFallbackQuestions, isValidQuestions, forallb.
  rewrite !validItem_interviewQuestion.
  repeat (match goal with
          | |- context [nonBlankString (Some (JStr (units ?s)))] =>
              let s' := eval cbn [String.append] in s in
              change s with s'
          end;
          rewrite nonBlank_head by reflexivity).
  reflexivity.
Qed.

(** C5, evaluated where it fails: a valid JSON array whose question holds
    a fence marker parses, and passes validation, as it is; the sanitizer
    returns another value, the marker cut out of the string. *)
Theorem cleanAiResponse_cuts_fence_inside_string :
  let raw := quoted "[{'question':'Use ```json fences','answer':'A1'}]" in
  Json.parse raw = Some (JArr [interviewQuestion "Use ```json fences" "A1"])
  /\ isValidQuestions (JArr [interviewQuestion "Use ```json fences" "A1"]) = true
  /\ normalizedPayload raw
     = quoted "[{'question':'Use  fences','answer':'A1'}]"
  /\ (forall (w : world) (st : state),
        cleanAiResponse w raw st
        = (Return (JArr [interviewQuestion "Use  fences" "A1"]), st))
  /\ JArr [interviewQuestion "Use  fences" "A1"]
     <> JArr [interviewQuestion "Use ```json fences" "A1"].
Proof.
  repeat split. intros H. vm_compute in H. discriminate H.
Qed.

(** The sanitizer recovers an array wrapped in prose and a tagged fence. *)
Example cleanAiResponse_fenced_in_prose (w : world) (st : state) :
  cleanAiResponse w (quoted "Sure! ```json
[{'question':'Q1','answer':'A1'}]
```") st
  = (Return (JArr [interviewQuestion "Q1" "A1"]), st).
Proof. reflexivity. Qed.

(** A raw line feed inside a string value is read as a blank. *)
Example cleanAiResponse_raw_newline (w : world) (st : state) :
  cleanAiResponse w (quoted "[{'question':'Q1
more','answer':'A1'}]") st
  = (Return (JArr [interviewQuestion "Q1 more" "A1"]), st).
Proof. reflexivity. Qed.

(** An escape names any code unit, above 00FF as well. *)
Example parse_escape_above_latin1 :
  Json.parse Samples.escapedText = Some Samples.escapedQuestions.
Proof. vm_compute. reflexivity. Qed.

(** A name that occurs twice keeps its first place and its last value. *)
Example parse_duplicate_name :
  Json.parse (quoted "{'a':1,'b':2,'a':3}")
  = Some (JObj [(units "a", JNum "3"); (units "b", JNum "2")]).
Proof. vm_compute. reflexivity. Qed.

(** A reply whose question is given twice is judged by the last one. *)
Example cleanAiResponse_duplicate_question (w : world) (st : state) :
  cleanAiResponse w (quoted "[{'question':'','question':'Q1','answer':'A1'}]")
                  st
  = (Return (JArr [interviewQuestion "Q1" "A1"]), st).
Proof. reflexivity. Qed.


Lemma validItem_wellFormed (item : json) :
  validItem item = true <-> wellFormedItem item.
Proof.
  unfold wellFormedItem. split.
  - destruct item as [| b | n | s | items | members]; try discriminate.
    simpl. rewrite andb_true_iff. intros [Hq Ha].
    destruct (getProp "question" members) as [[| | | q | |] |] eqn:Eq;
      try discriminate Hq.
    destruct (getProp "answer" members) as [[| | | a | |] |] eqn:Ea;
      try discriminate Ha.
    exists members, q, a.
    repeat split; try assumption; now apply nonBlank_units.
  - intros (members & q & a & -> & Hq & Ha & Lq & La). simpl.
    rewrite Hq, Ha, andb_true_iff, !nonBlank_units. tauto.
Qed.

Lemma isValidQuestions_wellFormed (v : json) :
  isValidQuestions v = true
  <-> exists items, v = JArr items /\ Forall wellFormedItem items.
Proof.
  split.
  - destruct v as [| b | n | s | items | members]; try discriminate.
    simpl. rewrite forallb_forall. intros H. exists items.
    split; [reflexivity |]. apply Forall_forall. intros x Hx.
    apply validItem_wellFormed. now apply H.
  - intros (items & -> & H). simpl. apply forallb_forall. intros x Hx.
    apply validItem_wellFormed. rewrite Forall_forall in H. now apply H.
Qed.

Section Validation.

Variable w : world.

Lemma generateAiResponse_text (data : FormData) (st st1 : state)
    (text : string) :
  sendMessage w (promptOf data) st = (Return (inr text), st1) ->
  generateAiResponse w data st
  = match Json.parse (normalizedPayload text) with
    | Some v =>
        if isValidQuestions v then (Return v, st1)
        else (Throw (JsError "AI returned unexpected question format"), st1)
    | None =>
        (Throw (JsError ("Invalid JSON format: " ++
                         syntaxErrorMessage w (normalizedPayload text))), st1)
    end.
Proof.
  intros H. unfold generateAiResponse, bind, cleanAiResponse. rewrite H.
  unfold ret at 1.
  destruct (Json.parse (normalizedPayload text)) as [v |]; [| reflexivity].
  unfold ret at 1. now destruct (isValidQuestions v).
Qed.

End Validation.

(** C8: a parsed value passes validation exactly when it is a sequence of
    entries of the required shape; a value that passes is returned as it
    is, nothing coerced or dropped; any other value raises the
    unexpected-shape error, whose message no parse failure carries. *)
Theorem isValidQuestions_rejects_unexpected_shape (w : world)
    (data : FormData) (st st1 : state) (text : string) :
  sendMessage w (promptOf data) st = (Return (inr text), st1) ->
  (forall v,
      isValidQuestions v = true
      <-> exists items, v = JArr items /\ Forall wellFormedItem items)
  /\ (forall v,
        Json.parse (normalizedPayload text) = Some v ->
        isValidQuestions v = true ->
        generateAiResponse w data st = (Return v, st1))
  /\ (forall v,
        Json.parse (normalizedPayload text) = Some v ->
        isValidQuestions v = false ->
        generateAiResponse w data st
        = (Throw (JsError "AI returned unexpected question format"), st1))
  /\ (Json.parse (normalizedPayload text) = None ->
      exists m,
        generateAiResponse w data st
        = (Throw (JsError ("Invalid JSON format: " ++ m)%string), st1))
  /\ (forall m : string,
        "AI returned unexpected question format"
        <> ("Invalid JSON format: " ++ m)%string).
Proof.
  intros H. rewrite (generateAiResponse_text w data st st1 text H).
  split; [exact isValidQuestions_wellFormed |].
  split; [intros v -> ->; reflexivity |].
  split; [intros v -> ->; reflexivity |].
  split; [intros ->; eexists; reflexivity |].
  intros m. discriminate.
Qed.

Lemma isValidQuestions_rejects_unexpected_shape_witness :
  exists st1,
    generateAiResponse Samples.emptyQuestionEscaped Samples.job initial
    = (Throw (JsError "AI returned unexpected question format"), st1).
Proof.
  eexists.
  refine (proj1 (proj2 (proj2
            (isValidQuestions_rejects_unexpected_shape
               Samples.emptyQuestionEscaped Samples.job initial _
               (quoted "[{'question':'','answer':'It\u2019s A1'}]") _)))
            (JArr [JObj [(units "question", JStr []);
                         (units "answer",
                          JStr (units "It" ++ [8217%N] ++ units "s A1"))]])
            _ _).
  - vm_compute. reflexivity.
  - vm_compute. reflexivity.
  - reflexivity.
Defined.

End FormFacts.

(** ** Tasks: the functions as promises under way *)

Module TasksFacts.

Import Js Async Json Scripts Form Orchestration Samples Observations.

Lemma task_induction {A} (P : task A -> Prop) :
  (forall a, P (Done a)) -> (forall e, P (Failed e)) -> P Never ->
  (forall time resume, (forall st, P (snd (resume st))) -> P (Wake time resume)) ->
  forall t, P t.
Proof.
  intros HD HF HN HW. fix IH 1.
  intros [a | e | | time resume];
    [apply HD | apply HF | exact HN | apply HW; intros st; apply IH].
Qed.

(** *** Run alone, a task is the function of the sequential reading *)

Lemma alone_andThen {A B} (k : A -> T B) (t : task A) :
  forall st,
    (let (st', t') := andThen t k st in alone t' st')
    = match alone t st with
      | (Return a, st') => runAlone (k a) st'
      | (Throw e, st') => (Throw e, st')
      | (Pending, st') => (Pending, st')
      end.
Proof.
  induction t as [a | e | | time resume IH] using task_induction; intros st;
    try reflexivity.
  simpl. specialize (IH (setClock time st) (fst (resume (setClock time st)))).
  destruct (resume (setClock time st)) as [st1 t1]. exact IH.
Qed.

Lemma runAlone_bindT {A B} (m : T A) (k : A -> T B) (st : state) :
  runAlone (bindT m k) st = bind (runAlone m) (fun a => runAlone (k a)) st.
Proof.
  unfold bindT, bind. unfold runAlone at 1 2.
  destruct (m st) as [st1 t]. exact (alone_andThen k t st1).
Qed.

Lemma runAlone_bind {A B} (m : T A) (k : A -> T B) (m' : M A) (k' : A -> M B) :
  (forall st, runAlone m st = m' st) ->
  (forall a st, runAlone (k a) st = k' a st) ->
  forall st, runAlone (bindT m k) st = bind m' k' st.
Proof.
  intros Hm Hk st. rewrite runAlone_bindT. unfold bind. rewrite Hm.
  destruct (m' st) as [[a | e |] st1]; try reflexivity. apply Hk.
Qed.

Lemma runAlone_awaitT {A} (r : settles A) (st : state) :
  runAlone (awaitT r) st = await r st.
Proof. destruct r as [[d a] |]; reflexivity. Qed.

Section Alone.

Variable w : world.

Lemma alone_listAvailableModels (st : state) :
  runAlone (Tasks.listAvailableModels w) st = listAvailableModels w st.
Proof.
  unfold Tasks.listAvailableModels, listAvailableModels.
  destruct (negb (truthy (apiKey w))); [reflexivity |].
  refine (runAlone_bind _ _ _ _ (runAlone_awaitT _) _ (countFetch st)).
  intros r st'. now destruct r.
Qed.

Lemma alone_getCandidateModels (st : state) :
  runAlone (Tasks.getCandidateModels w) st = getCandidateModels w st.
Proof.
  unfold Tasks.getCandidateModels, getCandidateModels.
  destruct (cachedModelList st) as [l |] eqn:E.
  - unfold runAlone. now rewrite E.
  - unfold runAlone. rewrite E.
    refine (runAlone_bind _ _ _ _ alone_listAvailableModels _ st).
    reflexivity.
Qed.

Lemma alone_requestGeneration (modelId prompt : string) (st : state) :
  runAlone (Tasks.requestGeneration w modelId prompt) st
  = requestGeneration w modelId prompt st.
Proof.
  unfold Tasks.requestGeneration, requestGeneration. apply runAlone_awaitT.
Qed.

Lemma alone_sweep (prompt : string) (candidates : list string) :
  forall lastError st,
    runAlone (Tasks.sweep w prompt candidates lastError) st
    = sweep w prompt candidates lastError st.
Proof.
  induction candidates as [| c cs IH]; intros lastError st; [reflexivity |].
  simpl Tasks.sweep. simpl sweep.
  apply runAlone_bind; [apply alone_requestGeneration |].
  intros [e | text] st'; [apply IH | reflexivity].
Qed.

Lemma alone_sendMessage (prompt : string) (st : state) :
  runAlone (Tasks.sendMessage w prompt) st = sendMessage w prompt st.
Proof.
  unfold Tasks.sendMessage, sendMessage.
  destruct (negb (truthy (apiKey w))); [reflexivity |].
  apply runAlone_bind; [apply alone_getCandidateModels |].
  intros cs st'. apply runAlone_bind; [apply alone_sweep |].
  intros [t | le] st''; reflexivity.
Qed.

Lemma alone_cleanAiResponse (text : string) (st : state) :
  runAlone (Tasks.cleanAiResponse w text) st = cleanAiResponse w text st.
Proof.
  unfold Tasks.cleanAiResponse, cleanAiResponse.
  now destruct (Json.parse (normalizedPayload text)).
Qed.

Lemma alone_generateAiResponse (data : FormData) (st : state) :
  runAlone (Tasks.generateAiResponse w data) st = generateAiResponse w data st.
Proof.
  unfold Tasks.generateAiResponse, generateAiResponse.
  apply runAlone_bind; [apply alone_sendMessage |].
  intros r st'. apply runAlone_bind; [now destruct r |].
  intros text st''. apply runAlone_bind; [apply alone_cleanAiResponse |].
  intros v st3. now destruct (negb (isValidQuestions v)).
Qed.

End Alone.


(** *** What a task keeps, returns, and when it wakes *)

Lemma keeps_andThen {A B X} (f : state -> X) (k : A -> T B) (t : task A) :
  keeps f t -> (forall a, holds f (k a)) ->
  forall st,
    f (fst (andThen t k st)) = f st /\ keeps f (snd (andThen t k st)).
Proof.
  intros Ht Hk.
  induction t as [a | e | | time resume IH] using task_induction; intros st;
    try (split; [reflexivity | exact I]).
  - apply Hk.
  - split; [reflexivity |]. simpl. intros st'.
    destruct (Ht st') as [F K]. specialize (IH st' K (fst (resume st'))).
    destruct (resume st') as [st1 t1]. simpl in *.
    destruct IH as [F' K']. split; [congruence | exact K'].
Qed.

Lemma keeps_bindT {A B X} (f : state -> X) (m : T A) (k : A -> T B)
    (st : state) :
  f (fst (m st)) = f st -> keeps f (snd (m st)) ->
  (forall a, holds f (k a)) ->
  f (fst (bindT m k st)) = f st /\ keeps f (snd (bindT m k st)).
Proof.
  intros F K Hk. unfold bindT. destruct (m st) as [st1 t]. simpl in *.
  destruct (keeps_andThen f k t K Hk st1) as [F' K'].
  split; [congruence | exact K'].
Qed.

Lemma holds_bindT {A B X} (f : state -> X) (m : T A) (k : A -> T B) :
  holds f m -> (forall a, holds f (k a)) -> holds f (bindT m k).
Proof.
  intros Hm Hk st. destruct (Hm st) as [F K]. now apply keeps_bindT.
Qed.

Lemma holds_retT {A X} (f : state -> X) (a : A) : holds f (retT a).
Proof. intros st. split; [reflexivity | exact I]. Qed.

Lemma holds_throwT {A X} (f : state -> X) (e : exn) : holds f (@throwT A e).
Proof. intros st. split; [reflexivity | exact I]. Qed.

Lemma holds_awaitT {A X} (f : state -> X) (r : settles A) : holds f (awaitT r).
Proof.
  intros st. destruct r as [[d a] |]; (split; [reflexivity |]); [| exact I].
  intros st'. split; [reflexivity | exact I].
Qed.

Lemma keeps_map {A X Y} (f : state -> X) (g : X -> Y) (t : task A) :
  keeps f t -> keeps (fun st => g (f st)) t.
Proof.
  induction t as [a | e | | time resume IH] using task_induction; intros H;
    try exact I.
  intros st. destruct (H st) as [F K]. split; [now rewrite F | now apply IH].
Qed.

Lemma holds_map {A X Y} (f : state -> X) (g : X -> Y) (m : T A) :
  holds f m -> holds (fun st => g (f st)) m.
Proof.
  intros H st. destruct (H st) as [F K].
  split; [now rewrite F | now apply keeps_map].
Qed.

Lemma yields_andThen {A B} (Qa : A -> Prop) (Q : B -> Prop) (k : A -> T B)
    (t : task A) :
  yields Qa t -> (forall a st, Qa a -> yields Q (snd (k a st))) ->
  forall st, yields Q (snd (andThen t k st)).
Proof.
  intros Ht Hk.
  induction t as [a | e | | time resume IH] using task_induction; intros st;
    try exact I.
  - now apply Hk.
  - simpl. intros st'. specialize (IH st' (Ht st') (fst (resume st'))).
    now destruct (resume st') as [st1 t1].
Qed.

Lemma yields_anything {A} (t : task A) : yields (fun _ => True) t.
Proof.
  induction t as [a | e | | time resume IH] using task_induction;
    try exact I.
  intros st. apply IH.
Qed.

Lemma punctual_andThen {A B} (k : A -> T B) (t : task A) :
  (forall a, onTime (k a)) ->
  forall now st,
    punctual t now -> clock st = now ->
    clock (fst (andThen t k st)) = now
    /\ punctual (snd (andThen t k st)) now.
Proof.
  intros Hk.
  induction t as [a | e | | time resume IH] using task_induction;
    intros now st Ht C; try (split; [exact C | exact I]).
  - destruct (Hk a st) as [C' P]. rewrite C in *. now split.
  - destruct Ht as [L Ht]. split; [exact C |]. split; [exact L |].
    intros st' C'. destruct (Ht st' C') as [C1 P1].
    specialize (IH st' time (fst (resume st')) P1 C1).
    now destruct (resume st') as [st1 t1].
Qed.

Lemma onTime_bindT {A B} (m : T A) (k : A -> T B) :
  onTime m -> (forall a, onTime (k a)) -> onTime (bindT m k).
Proof.
  intros Hm Hk st. unfold bindT. destruct (Hm st) as [C P].
  destruct (m st) as [st1 t]. simpl in *.
  rewrite <- C. apply punctual_andThen; [exact Hk | | reflexivity].
  now rewrite C.
Qed.

Lemma onTime_retT {A} (a : A) : onTime (retT a).
Proof. intros st. split; [reflexivity | exact I]. Qed.

Lemma onTime_throwT {A} (e : exn) : onTime (@throwT A e).
Proof. intros st. split; [reflexivity | exact I]. Qed.

Lemma onTime_awaitT {A} (r : settles A) : onTime (awaitT r).
Proof.
  intros st. destruct r as [[d a] |]; (split; [reflexivity |]); [| exact I].
  split; [lia |]. intros st' C. split; [exact C | exact I].
Qed.


Lemma opens_bindT {A B} (m : T A) (k : A -> T B) :
  opens m -> (forall a, holds quietly (k a)) -> opens (bindT m k).
Proof.
  intros Hm Hk st. unfold bindT.
  destruct (Hm st) as (C & Ti & E & W & F & K).
  destruct (m st) as [st1 t]. simpl in *.
  destruct (keeps_andThen quietly k t K Hk st1) as [Q K'].
  unfold quietly in Q. injection Q as Q1 Q2 Q3 Q4 Q5.
  repeat split; first [congruence | lia | assumption].
Qed.

Lemma holds_opens {A} (m : T A) : holds quietly m -> opens m.
Proof.
  intros H st. destruct (H st) as [Q K].
  unfold quietly in Q. injection Q as Q1 Q2 Q3 Q4 Q5.
  repeat split; first [congruence | lia | assumption].
Qed.

Lemma holds_quietly {A} (m : T A) : holds stilly m -> holds quietly m.
Proof. intros H. exact (holds_map stilly fst m H). Qed.

Create HintDb tasks.

#[local] Hint Resolve holds_retT holds_throwT holds_awaitT
  onTime_retT onTime_throwT onTime_awaitT : tasks.

Section Kept.

Variable w : world.

Lemma holds_requestGeneration (modelId prompt : string) :
  holds stilly (Tasks.requestGeneration w modelId prompt).
Proof.
  intros st. unfold Tasks.requestGeneration.
  destruct (holds_awaitT stilly
              (generate w (List.length (attempts st)) modelId prompt)
              (recordAttempt modelId st)) as [F K].
  split; [rewrite F; reflexivity | exact K].
Qed.

Lemma holds_sweep (prompt : string) (candidates : list string) :
  forall lastError, holds stilly (Tasks.sweep w prompt candidates lastError).
Proof.
  induction candidates as [| c cs IH]; intros lastError; simpl;
    [auto with tasks |].
  apply holds_bindT; [apply holds_requestGeneration |].
  intros [e | text]; auto with tasks.
Qed.

Lemma holds_cleanAiResponse (text : string) :
  holds stilly (Tasks.cleanAiResponse w text).
Proof.
  unfold Tasks.cleanAiResponse.
  destruct (Json.parse (normalizedPayload text)); auto with tasks.
Qed.

Lemma opens_listAvailableModels : opens (Tasks.listAvailableModels w).
Proof.
  unfold Tasks.listAvailableModels.
  destruct (negb (truthy (apiKey w)));
    [apply holds_opens; auto with tasks |].
  intros st.
  assert (H : holds quietly
                (bindT (awaitT (fetchModels w (fetches st)))
                   (fun r =>
                      match r with
                      | FetchOk models => retT (availableOf models)
                      | _ => retT []
                      end))).
  { apply holds_bindT; [auto with tasks |]. intros []; auto with tasks. }
  destruct (H (countFetch st)) as [Q K].
  unfold quietly in Q. injection Q as Q1 Q2 Q3 Q4 Q5. simpl in *.
  repeat split; first [congruence | lia | assumption].
Qed.

Lemma opens_getCandidateModels : opens (Tasks.getCandidateModels w).
Proof.
  intros st. unfold Tasks.getCandidateModels.
  destruct (cachedModelList st) as [l |].
  - simpl. repeat split; try lia.
  - refine (opens_bindT _ _ opens_listAvailableModels _ st).
    intros available st'. split; [reflexivity | exact I].
Qed.

Lemma opens_sendMessage (prompt : string) : opens (Tasks.sendMessage w prompt).
Proof.
  unfold Tasks.sendMessage.
  destruct (negb (truthy (apiKey w)));
    [apply holds_opens; auto with tasks |].
  apply opens_bindT; [apply opens_getCandidateModels |].
  intros cs. apply holds_bindT; [apply holds_quietly, holds_sweep |].
  intros [t | le]; auto with tasks.
Qed.

Lemma holds_validation (r : exn + string) :
  holds stilly
    (bindT (match r with inl e => throwT e | inr t => retT t end)
       (fun text =>
          bindT (Tasks.cleanAiResponse w text)
            (fun cleanedResponse =>
               if negb (isValidQuestions cleanedResponse)
               then throwT (JsError "AI returned unexpected question format")
               else retT cleanedResponse))).
Proof.
  apply holds_bindT; [destruct r; auto with tasks |].
  intros text. apply holds_bindT; [apply holds_cleanAiResponse |].
  intros v. destruct (negb (isValidQuestions v)); auto with tasks.
Qed.

Lemma opens_generateAiResponse (data : FormData) :
  opens (Tasks.generateAiResponse w data).
Proof.
  unfold Tasks.generateAiResponse.
  apply opens_bindT; [apply opens_sendMessage |].
  intros r. apply holds_quietly, holds_validation.
Qed.

(** An attempt that finds the catalogue cached leaves the cache alone. *)
Lemma cached_sendMessage (prompt : string) (st : state) (l : list string) :
  cachedModelList st = Some l ->
  stilly (fst (Tasks.sendMessage w prompt st)) = stilly st
  /\ keeps stilly (snd (Tasks.sendMessage w prompt st)).
Proof.
  intros H. unfold Tasks.sendMessage.
  destruct (negb (truthy (apiKey w))); [split; [reflexivity | exact I] |].
  match goal with
  | |- context [bindT (Tasks.getCandidateModels w) ?K st] =>
      assert (E : bindT (Tasks.getCandidateModels w) K st = K l st)
        by (unfold bindT at 1, Tasks.getCandidateModels; now rewrite H);
      rewrite E
  end.
  refine (holds_bindT stilly _ _ (holds_sweep _ _ _) _ st).
  intros [t | le]; auto with tasks.
Qed.

Lemma cached_generateAiResponse (data : FormData) (st : state)
    (l : list string) :
  cachedModelList st = Some l ->
  stilly (fst (Tasks.generateAiResponse w data st)) = stilly st
  /\ keeps stilly (snd (Tasks.generateAiResponse w data st)).
Proof.
  intros H. unfold Tasks.generateAiResponse.
  destruct (cached_sendMessage (promptOf data) st l H) as [F K].
  apply keeps_bindT; [exact F | exact K | exact holds_validation].
Qed.

Lemma yields_generateAiResponse (data : FormData) (st : state) :
  yields parsedReply (snd (Tasks.generateAiResponse w data st)).
Proof.
  unfold Tasks.generateAiResponse, bindT at 1.
  destruct (Tasks.sendMessage w (promptOf data) st) as [st1 t]. simpl.
  apply (yields_andThen (fun _ => True)); [apply yields_anything |].
  intros r st' _. unfold bindT.
  destruct r as [e | text]; [exact I |]. simpl.
  unfold Tasks.cleanAiResponse.
  destruct (Json.parse (normalizedPayload text)) as [v |] eqn:P; [| exact I].
  simpl. destruct (isValidQuestions v) eqn:V; [| exact I].
  simpl. split; [exact V | now exists text].
Qed.

Lemma onTime_sweep (prompt : string) (candidates : list string) :
  forall lastError, onTime (Tasks.sweep w prompt candidates lastError).
Proof.
  induction candidates as [| c cs IH]; intros lastError; simpl;
    [auto with tasks |].
  apply onTime_bindT.
  - intros st. unfold Tasks.requestGeneration.
    exact (onTime_awaitT _ (recordAttempt (normalizeModelId c) st)).
  - intros [e | text]; auto with tasks.
Qed.

Lemma onTime_listAvailableModels : onTime (Tasks.listAvailableModels w).
Proof.
  unfold Tasks.listAvailableModels.
  destruct (negb (truthy (apiKey w))); [auto with tasks |].
  intros st.
  refine (onTime_bindT _ _ (onTime_awaitT _) _ (countFetch st)).
  intros []; auto with tasks.
Qed.

Lemma onTime_getCandidateModels : onTime (Tasks.getCandidateModels w).
Proof.
  intros st. unfold Tasks.getCandidateModels.
  destruct (cachedModelList st) as [l |]; [split; [reflexivity | exact I] |].
  refine (onTime_bindT _ _ onTime_listAvailableModels _ st).
  intros available st'. split; [reflexivity | exact I].
Qed.

Lemma onTime_sendMessage (prompt : string) : onTime (Tasks.sendMessage w prompt).
Proof.
  unfold Tasks.sendMessage.
  destruct (negb (truthy (apiKey w))); [auto with tasks |].
  apply onTime_bindT; [apply onTime_getCandidateModels |].
  intros cs. apply onTime_bindT; [apply onTime_sweep |].
  intros [t | le]; auto with tasks.
Qed.

Lemma onTime_generateAiResponse (data : FormData) :
  onTime (Tasks.generateAiResponse w data).
Proof.
  unfold Tasks.generateAiResponse.
  apply onTime_bindT; [apply onTime_sendMessage |].
  intros r. apply onTime_bindT; [destruct r; auto with tasks |].
  intros text. apply onTime_bindT.
  - unfold Tasks.cleanAiResponse.
    destruct (Json.parse (normalizedPayload text)); auto with tasks.
  - intros v. destruct (negb (isValidQuestions v)); auto with tasks.
Qed.

End Kept.

End TasksFacts.

(** ** The scheduler: what runs beside a race *)

Module SchedulerFacts.

Import Js Async Json Scripts Form Orchestration Samples Observations.
Import TasksFacts.

Lemma par_keeps {A B X} (f : state -> X) (a : task A) :
  forall b : task B, keeps f a -> keeps f b -> keeps f (par a b).
Proof.
  induction a as [x | e | | ta ra IHa] using task_induction;
    intros b Ha Hb;
    try (induction b as [y | e' | | tb rb IHb] using task_induction;
         try exact I;
         intros st; destruct (Hb st) as [F K];
         specialize (IHb st K); simpl;
         destruct (rb st) as [st1 b1]; simpl in *; now split).
  induction b as [y | e' | | tb rb IHb] using task_induction.
  1-3: intros st; destruct (Ha st) as [F K];
       specialize (IHa st _ K Hb); simpl;
       destruct (ra st) as [st1 a1]; simpl in *; now split.
  simpl. destruct (ta <=? tb)%N; intros st.
  - destruct (Ha st) as [F K]. specialize (IHa st (Wake tb rb) K Hb).
    destruct (ra st) as [st1 a1]. simpl in *. now split.
  - destruct (Hb st) as [F K]. specialize (IHb st K).
    destruct (rb st) as [st1 b1]. simpl in *. now split.
Qed.

Section Within.

Context {X : Type} (g : state -> X) (R : state -> state -> Prop) (d : N).

Hypothesis R_refl : forall st, R st st.
Hypothesis R_trans : forall a b c, R a b -> R b c -> R a c.
Hypothesis R_clock : forall t st, (t < d)%N -> R st (setClock t st).
Hypothesis R_step : forall st st', g st' = g st -> R st st'.

Lemma elapse_within {A} (b : task A) :
  keeps g b ->
  forall st,
    R st (fst (elapse b d st)) /\ keeps g (snd (elapse b d st)).
Proof.
  induction b as [y | e | | tb rb IH] using task_induction; intros Hb st;
    try (split; [apply R_refl | exact I]).
  simpl. destruct (tb <? d)%N eqn:L; [| split; [apply R_refl | exact Hb]].
  apply N.ltb_lt in L. destruct (Hb (setClock tb st)) as [F K].
  specialize (IH (setClock tb st) K (fst (rb (setClock tb st)))).
  destruct (rb (setClock tb st)) as [st1 b1]. simpl in *.
  destruct IH as [IH1 IH2]. split; [| exact IH2].
  eapply R_trans; [apply R_clock; exact L |].
  eapply R_trans; [apply R_step; exact F | exact IH1].
Qed.

Lemma race_within {A} (a : task A) :
  keeps g a ->
  forall b st,
    keeps g b ->
    R st (snd (fst (race a b d st))) /\ keeps g (snd (race a b d st)).
Proof.
  induction a as [x | e | | ta ra IHa] using task_induction; intros Ha b st Hb.
  - destruct b; (split; [apply R_refl | exact Hb]).
  - destruct b; (split; [apply R_refl | exact Hb]).
  - assert (E : race (@Never A) b d st
                = let (st', b') := elapse b d st in (Pending, st', b'))
      by (now destruct b).
    rewrite E. destruct (elapse_within b Hb st) as [H1 H2].
    now destruct (elapse b d st).
  - assert (Turn : forall b st,
               keeps g b ->
               let r := if (ta <? d)%N
                        then let (st', a') := ra (setClock ta st) in
                             race a' b d st'
                        else (Pending, st, par (Wake ta ra) b) in
               R st (snd (fst r)) /\ keeps g (snd r)).
    { clear b st Hb. intros b st Hb. destruct (ta <? d)%N eqn:L.
      - apply N.ltb_lt in L. destruct (Ha (setClock ta st)) as [F K].
        specialize (IHa (setClock ta st) K b (fst (ra (setClock ta st))) Hb).
        destruct (ra (setClock ta st)) as [st1 a1]. simpl in *.
        destruct IHa as [I1 I2]. split; [| exact I2].
        eapply R_trans; [apply R_clock; exact L |].
        eapply R_trans; [apply R_step; exact F | exact I1].
      - split; [apply R_refl | now apply par_keeps]. }
    revert st.
    induction b as [y | e | | tb rb IHb] using task_induction; intros st;
      try (apply Turn; exact Hb).
    change (race (Wake ta ra) (Wake tb rb) d st)
      with (if ((tb <? d) && (tb <? ta))%N
            then let (st', b') := rb (setClock tb st) in
                 race (Wake ta ra) b' d st'
            else if (ta <? d)%N
                 then let (st', a') := ra (setClock ta st) in
                      race a' (Wake tb rb) d st'
                 else (Pending, st, par (Wake ta ra) (Wake tb rb))).
    destruct ((tb <? d) && (tb <? ta))%N eqn:L; [| apply Turn; exact Hb].
    apply andb_true_iff in L. destruct L as [L _]. apply N.ltb_lt in L.
    destruct (Hb (setClock tb st)) as [F K].
    specialize (IHb (setClock tb st) K (fst (rb (setClock tb st)))).
    destruct (rb (setClock tb st)) as [st1 b1]. simpl in *.
    destruct IHb as [I1 I2]. split; [| exact I2].
    eapply R_trans; [apply R_clock; exact L |].
    eapply R_trans; [apply R_step; exact F | exact I1].
Qed.

End Within.

Lemma race_yields {A} (Q : A -> Prop) (a : task A) :
  yields Q a ->
  forall b d st x, fst (fst (race a b d st)) = Return x -> Q x.
Proof.
  induction a as [y | e | | ta ra IHa] using task_induction;
    intros Ha b d st x.
  - destruct b; simpl; now intros [= <-].
  - destruct b; discriminate.
  - assert (E : race (@Never A) b d st
                = let (st', b') := elapse b d st in (Pending, st', b'))
      by (now destruct b).
    rewrite E. destruct (elapse b d st). discriminate.
  - assert (Turn : forall b st,
               fst (fst (if (ta <? d)%N
                         then let (st', a') := ra (setClock ta st) in
                              race a' b d st'
                         else (Pending, st, par (Wake ta ra) b))) = Return x ->
               Q x).
    { clear b st. intros b st. destruct (ta <? d)%N; [| discriminate].
      specialize (IHa (setClock ta st) (Ha (setClock ta st)) b d
                      (fst (ra (setClock ta st))) x).
      now destruct (ra (setClock ta st)). }
    revert st.
    induction b as [y | e | | tb rb IHb] using task_induction; intros st;
      try apply Turn.
    change (race (Wake ta ra) (Wake tb rb) d st)
      with (if ((tb <? d) && (tb <? ta))%N
            then let (st', b') := rb (setClock tb st) in
                 race (Wake ta ra) b' d st'
            else if (ta <? d)%N
                 then let (st', a') := ra (setClock ta st) in
                      race a' (Wake tb rb) d st'
                 else (Pending, st, par (Wake ta ra) (Wake tb rb))).
    destruct ((tb <? d) && (tb <? ta))%N; [| apply Turn].
    specialize (IHb (setClock tb st) (fst (rb (setClock tb st)))).
    now destruct (rb (setClock tb st)).
Qed.


(** *** A race with nothing else in flight *)

Lemma alone_clock {A} (a : task A) :
  forall now st r st',
    punctual a now -> clock st = now -> alone a st = (r, st') ->
    (now <= clock st')%N.
Proof.
  induction a as [x | e | | ta ra IH] using task_induction;
    intros now st r st' P C E; try (injection E as _ <-; lia).
  simpl in E. destruct P as [L P].
  destruct (P (setClock ta st) eq_refl) as [C1 P1].
  specialize (IH (setClock ta st) ta (fst (ra (setClock ta st))) r st' P1 C1).
  destruct (ra (setClock ta st)) as [st1 a1]. simpl in *.
  specialize (IH E). lia.
Qed.

Lemma race_alone {A} (a : task A) (d : N) :
  forall st r st',
    punctual a (clock st) -> alone a st = (r, st') ->
    r <> Pending -> (clock st' < d)%N ->
    race a idle d st = (r, st', idle).
Proof.
  induction a as [x | e | | ta ra IH] using task_induction;
    intros st r st' P E N L.
  - now injection E as <- <-.
  - now injection E as <- <-.
  - injection E as <- _. congruence.
  - pose proof (alone_clock _ _ _ _ _ P eq_refl E) as M.
    simpl in E. destruct P as [L0 P].
    destruct (P (setClock ta st) eq_refl) as [C1 P1].
    assert (La : (ta <? d)%N = true).
    { apply N.ltb_lt.
      assert (ta <= clock st')%N; [| lia].
      specialize (alone_clock (snd (ra (setClock ta st))) ta
                    (fst (ra (setClock ta st))) r st' P1 C1).
      destruct (ra (setClock ta st)) as [st1 a1]. simpl. auto. }
    change (race (Wake ta ra) idle d st)
      with (if (ta <? d)%N
            then let (st1, a1) := ra (setClock ta st) in race a1 idle d st1
            else (Pending, st, par (Wake ta ra) idle)).
    rewrite La.
    specialize (IH (setClock ta st) (fst (ra (setClock ta st))) r st').
    destruct (ra (setClock ta st)) as [st1 a1]. simpl in *.
    apply IH; try assumption. now rewrite C1.
Qed.

Lemma race_late {A} (a : task A) (d : N) :
  forall st r st',
    punctual a (clock st) -> alone a st = (r, st') ->
    r = Pending \/ (d <= clock st')%N -> (clock st < d)%N ->
    fst (fst (race a idle d st)) = Pending.
Proof.
  induction a as [x | e | | ta ra IH] using task_induction;
    intros st r st' P E H L.
  - injection E as <- <-. destruct H as [H | H]; [discriminate H | lia].
  - injection E as <- <-. destruct H as [H | H]; [discriminate H | lia].
  - reflexivity.
  - simpl in E. destruct P as [L0 P].
    destruct (P (setClock ta st) eq_refl) as [C1 P1].
    change (race (Wake ta ra) idle d st)
      with (if (ta <? d)%N
            then let (st1, a1) := ra (setClock ta st) in race a1 idle d st1
            else (Pending, st, par (Wake ta ra) idle)).
    destruct (ta <? d)%N eqn:La; [| reflexivity]. apply N.ltb_lt in La.
    specialize (IH (setClock ta st) (fst (ra (setClock ta st))) r st').
    destruct (ra (setClock ta st)) as [st1 a1]. simpl in *.
    apply IH; try assumption; rewrite C1; [exact P1 | exact La].
Qed.

End SchedulerFacts.

(** ** The timeout, retry and fallback orchestration *)

Module OrchestrationFacts.

Import Js Async Json Scripts Form Orchestration Samples Observations.
Import FormFacts TasksFacts SchedulerFacts.

(** [withTimeout] never stays pending. *)
Lemma withTimeout_settles {A} (promise : T A) (ms : N) (message : string)
    (sys : system) :
  exists r sys', withTimeout promise ms message sys = (r, sys') /\ r <> Pending.
Proof.
  destruct sys as [st bg]. unfold withTimeout.
  destruct (promise (armTimer ms st)) as [st0 a].
  destruct (race a bg (clock st + ms) st0) as [[[x | e |] st'] rest];
    eexists; eexists; (split; [reflexivity | discriminate]).
Qed.

(** What a race against the timer does to the state, whatever is in
    flight beside it. *)
Lemma withTimeout_spec {A} (Q : A -> Prop) (promise : T A) (ms : N)
    (message : string) (st : state) (bg : task unit) :
  opens promise -> (forall st0, yields Q (snd (promise st0))) ->
  keeps quietly bg ->
  exists r st' bg',
    withTimeout promise ms message (st, bg) = (r, (st', bg'))
    /\ r <> Pending
    /\ (forall a, r = Return a -> Q a)
    /\ timers st' = timers st ++ [ms]
    /\ errorsLogged st' = errorsLogged st
    /\ warnings st' = warnings st
    /\ fetches st <= fetches st' <= fetches st + 1
    /\ (clock st' <= clock st + ms)%N
    /\ keeps quietly bg'.
Proof.
  intros Ho Hy Hb. unfold withTimeout.
  destruct (Ho (armTimer ms st)) as (C & Ti & E & W & F & K).
  specialize (Hy (armTimer ms st)).
  destruct (promise (armTimer ms st)) as [st0 a]. simpl in *.
  pose proof (race_within quietly
                (fun s s' => unclocked s' = unclocked s) (clock st + ms)%N
                ltac:(reflexivity) ltac:(congruence) ltac:(reflexivity)
                ltac:(unfold quietly, unclocked; congruence)
                a K bg st0 Hb) as [U Kb].
  pose proof (race_within quietly
                (fun s s' => clock s' = clock s
                             \/ (clock s' < clock st + ms)%N)
                (clock st + ms)%N
                ltac:(now left) ltac:(intros ? ? ? [|] [|]; lia)
                ltac:(intros; simpl; lia)
                ltac:(unfold quietly; intros ? ? [= -> _ _ _ _]; now left)
                a K bg st0 Hb) as [Ck _].
  pose proof (race_yields Q a Hy bg (clock st + ms)%N st0) as Y.
  destruct (race a bg (clock st + ms) st0) as [[r st'] rest]. simpl in *.
  unfold unclocked in U. injection U as U1 U2 U3 U4.
  destruct r as [x | e |]; eexists; eexists; eexists;
    (split; [reflexivity |]); simpl;
    (split; [discriminate |]);
    (split; [intros ? [=]; subst; auto |]);
    repeat split; first [congruence | lia | assumption].
Qed.

(** The same race begun with the catalogue cached: the cache and the
    count of discovery requests stay as they are. *)
Lemma withTimeout_cached {A} (promise : T A) (ms : N) (message : string)
    (st : state) (bg : task unit) (l : list string) :
  (forall st0, cachedModelList st0 = Some l ->
               stilly (fst (promise st0)) = stilly st0
               /\ keeps stilly (snd (promise st0))) ->
  cachedModelList st = Some l -> keeps stilly bg ->
  let sys' := snd (withTimeout promise ms message (st, bg)) in
  cachedModelList (fst sys') = Some l
  /\ fetches (fst sys') = fetches st
  /\ keeps stilly (snd sys').
Proof.
  intros Hp Hc Hb. unfold withTimeout.
  destruct (Hp (armTimer ms st) Hc) as [F K].
  destruct (promise (armTimer ms st)) as [st0 a]. simpl in *.
  pose proof (race_within stilly
                (fun s s' => cachedModelList s' = cachedModelList s
                             /\ fetches s' = fetches s) (clock st + ms)%N
                ltac:(now split) ltac:(intros ? ? ? [] []; split; congruence)
                ltac:(now split)
                ltac:(unfold stilly, quietly; intros ? ? [=]; now split)
                a K bg st0 Hb) as [[U1 U2] Kb].
  unfold stilly, quietly in F. injection F as F1 F2 F3 F4 F5 F6.
  destruct (race a bg (clock st + ms) st0) as [[r st'] rest]. simpl in *.
  destruct r; simpl; repeat split; first [congruence | assumption].
Qed.


Lemma useFallback_result (data : FormData) (reason : string) (st : state) :
  useFallback data reason st
  = (Return (buildFallbackQuestions data),
     mkState (cachedModelList st) (clock st) (fetches st) (attempts st)
       (timers st) (S (errorsLogged st))
       (warnings st ++ [fallbackWarning reason])).
Proof. reflexivity. Qed.

Section Block.

Variable w : world.
Variable data : FormData.

Let primary : C json :=
  withTimeout (Tasks.generateAiResponse w data) AI_TIMEOUT_MS
              "AI generation timed out".

Let retry : C json :=
  withTimeout (Tasks.generateAiResponse w data) AI_RETRY_TIMEOUT_MS
              "AI generation timed out after retry".

(** The block, by the outcome of the attempts. *)
Lemma generation_cases (sys : system) :
  (exists q sys1,
      primary sys = (Return q, sys1)
      /\ generation w data sys = (Return q, sys1))
  \/ (exists e sys1,
        primary sys = (Throw e, sys1)
        /\ isTimeoutMessage (messageOf e "Unknown AI error") = false
        /\ generation w data sys
           = aside (useFallback data (messageOf e "Unknown AI error")) sys1)
  \/ (exists e sys1,
        primary sys = (Throw e, sys1)
        /\ isTimeoutMessage (messageOf e "Unknown AI error") = true
        /\ ((exists q sys2,
                retry sys1 = (Return q, sys2)
                /\ generation w data sys = (Return q, sys2))
            \/ (exists e2 sys2,
                  retry sys1 = (Throw e2, sys2)
                  /\ generation w data sys
                     = aside (useFallback data
                                (messageOf e2 "Unknown AI error")) sys2))).
Proof.
  unfold generation, tryCatchC. fold primary. fold retry.
  destruct (withTimeout_settles (Tasks.generateAiResponse w data)
              AI_TIMEOUT_MS "AI generation timed out" sys)
    as (r1 & sys1 & E1 & N1).
  fold primary in E1. rewrite E1.
  destruct r1 as [q | e |]; [| | congruence].
  - left. eauto.
  - right. destruct (isTimeoutMessage (messageOf e "Unknown AI error")) eqn:M.
    + right. exists e, sys1. split; [reflexivity |]. split; [exact M |].
      destruct (withTimeout_settles (Tasks.generateAiResponse w data)
                  AI_RETRY_TIMEOUT_MS "AI generation timed out after retry"
                  sys1)
        as (r2 & sys2 & E2 & N2).
      fold retry in E2. rewrite E2.
      destruct r2 as [q | e2 |]; [| | congruence].
      * left. eauto.
      * right. eauto.
    + left. exists e, sys1. auto.
Qed.

(** What the block guarantees, whatever is in flight beside it. *)
Lemma generation_result (st : state) (bg : task unit) :
  keeps quietly bg ->
  exists q st' bg',
    generation w data (st, bg) = (Return q, (st', bg'))
    /\ isValidQuestions q = true
    /\ (clock st' <= clock st + AI_TIMEOUT_MS + AI_RETRY_TIMEOUT_MS)%N
    /\ fetches st <= fetches st' <= fetches st + 2
    /\ keeps quietly bg'
    /\ ((errorsLogged st' = errorsLogged st /\ warnings st' = warnings st)
        \/ (exists reason,
              q = buildFallbackQuestions data
              /\ errorsLogged st' = S (errorsLogged st)
              /\ warnings st' = warnings st ++ [fallbackWarning reason])).
Proof.
  intros Hb.
  destruct (withTimeout_spec parsedReply (Tasks.generateAiResponse w data)
              AI_TIMEOUT_MS "AI generation timed out" st bg
              (opens_generateAiResponse w data)
              (yields_generateAiResponse w data) Hb)
    as (r1 & st1 & bg1 & E1 & N1 & Q1 & _ & L1 & W1 & F1 & C1 & K1).
  fold primary in E1.
  destruct (withTimeout_spec parsedReply (Tasks.generateAiResponse w data)
              AI_RETRY_TIMEOUT_MS "AI generation timed out after retry"
              st1 bg1 (opens_generateAiResponse w data)
              (yields_generateAiResponse w data) K1)
    as (r2 & st2 & bg2 & E2 & N2 & Q2 & _ & L2 & W2 & F2 & C2 & K2).
  fold retry in E2.
  destruct (generation_cases (st, bg))
    as [(q & sys1 & P & G)
       | [(e & sys1 & P & M & G)
         | (e & sys1 & P & M & [(q & sys2 & R & G) | (e2 & sys2 & R & G)])]];
    rewrite E1 in P; injection P as -> <-.
  - exists q, st1, bg1. split; [exact G |].
    split; [apply (Q1 q eq_refl) |].
    unfold AI_RETRY_TIMEOUT_MS.
    repeat split; first [lia | assumption | now left].
  - rewrite G. unfold aside. rewrite useFallback_result. cbn [fst snd].
    eexists. eexists. eexists. split; [reflexivity |].
    split; [apply buildFallbackQuestions_valid |]. simpl.
    unfold AI_RETRY_TIMEOUT_MS.
    repeat split; try first [lia | assumption].
    right. exists (messageOf e "Unknown AI error"). repeat split; congruence.
  - rewrite E2 in R. injection R as -> <-.
    exists q, st2, bg2. split; [exact G |].
    split; [apply (Q2 q eq_refl) |].
    repeat split; try first [lia | assumption].
    left. split; congruence.
  - rewrite E2 in R. injection R as -> <-.
    rewrite G. unfold aside. rewrite useFallback_result. cbn [fst snd].
    eexists. eexists. eexists. split; [reflexivity |].
    split; [apply buildFallbackQuestions_valid |]. simpl.
    repeat split; try first [lia | assumption].
    right. exists (messageOf e2 "Unknown AI error"). repeat split; congruence.
Qed.

(** The block begun with the catalogue cached leaves the cache and the
    count of discovery requests as they are. *)
Lemma generation_cached (st : state) (bg : task unit) (l : list string) :
  cachedModelList st = Some l -> keeps stilly bg ->
  let sys' := snd (generation w data (st, bg)) in
  cachedModelList (fst sys') = Some l /\ fetches (fst sys') = fetches st.
Proof.
  intros Hc Hb.
  pose proof (withTimeout_cached (Tasks.generateAiResponse w data)
                AI_TIMEOUT_MS "AI generation timed out" st bg l
                (fun st0 => cached_generateAiResponse w data st0 l) Hc Hb)
    as P1.
  fold primary in P1. cbv zeta in P1.
  destruct (primary (st, bg)) as [r1 [st1 bg1]] eqn:E1.
  cbn [fst snd] in P1. destruct P1 as (C1 & F1 & K1).
  pose proof (withTimeout_cached (Tasks.generateAiResponse w data)
                AI_RETRY_TIMEOUT_MS "AI generation timed out after retry"
                st1 bg1 l
                (fun st0 => cached_generateAiResponse w data st0 l) C1 K1)
    as P2.
  fold retry in P2. cbv zeta in P2.
  destruct (retry (st1, bg1)) as [r2 [st2 bg2]] eqn:E2.
  cbn [fst snd] in P2. destruct P2 as (C2 & F2 & K2).
  destruct (generation_cases (st, bg))
    as [(q & sys1 & P & G)
       | [(e & sys1 & P & M & G)
         | (e & sys1 & P & M & [(q & sys2 & R & G) | (e2 & sys2 & R & G)])]];
    rewrite E1 in P; injection P as -> <-; rewrite G.
  - now split.
  - unfold aside. rewrite useFallback_result. now split.
  - rewrite E2 in R. injection R as -> <-. cbn [fst snd].
    split; [exact C2 | congruence].
  - rewrite E2 in R. injection R as -> <-.
    unfold aside. rewrite useFallback_result. cbn [fst snd fetches].
    split; [exact C2 | congruence].
Qed.

End Block.

Lemma generateQuestions_generation (w : world) (data : FormData) (st : state) :
  generateQuestions w data st
  = (fst (generation w data (st, idle)),
     fst (snd (generation w data (st, idle)))).
Proof.
  unfold generateQuestions. now destruct (generation w data (st, idle)).
Qed.

(** C1: for every job specification, environment and state the generation
    returns, never throws and never stays pending, and what it returns
    passes validation.  Either an attempt returned it, the primary one or
    the retry after a failed primary one, and nothing was logged or shown;
    or the primary attempt failed and it is the deterministic fallback,
    with one error logged and exactly one warning shown. *)
Theorem generateQuestions_never_rejects (w : world) (data : FormData)
    (st : state) :
  let primary :=
    withTimeout (Tasks.generateAiResponse w data) AI_TIMEOUT_MS
                "AI generation timed out" (st, idle) in
  let retry :=
    withTimeout (Tasks.generateAiResponse w data) AI_RETRY_TIMEOUT_MS
                "AI generation timed out after retry" in
  exists q st',
    generateQuestions w data st = (Return q, st')
    /\ isValidQuestions q = true
    /\ ((((exists sys1, primary = (Return q, sys1))
          \/ (exists e sys1 sys2,
                primary = (Throw e, sys1) /\ retry sys1 = (Return q, sys2)))
         /\ errorsLogged st' = errorsLogged st
         /\ warnings st' = warnings st)
        \/ (exists e sys1 reason,
              primary = (Throw e, sys1)
              /\ q = buildFallbackQuestions data
              /\ errorsLogged st' = S (errorsLogged st)
              /\ warnings st' = warnings st ++ [fallbackWarning reason])).
Proof.
  intros primary retry. rewrite generateQuestions_generation.
  destruct (withTimeout_spec parsedReply (Tasks.generateAiResponse w data)
              AI_TIMEOUT_MS "AI generation timed out" st idle
              (opens_generateAiResponse w data)
              (yields_generateAiResponse w data) I)
    as (r1 & st1 & bg1 & E1 & N1 & Q1 & _ & L1 & W1 & _ & _ & K1).
  fold primary in E1.
  destruct (withTimeout_spec parsedReply (Tasks.generateAiResponse w data)
              AI_RETRY_TIMEOUT_MS "AI generation timed out after retry"
              st1 bg1 (opens_generateAiResponse w data)
              (yields_generateAiResponse w data) K1)
    as (r2 & st2 & bg2 & E2 & N2 & Q2 & _ & L2 & W2 & _ & _ & _).
  fold retry in E2.
  destruct (generation_cases w data (st, idle))
    as [(q & sys1 & P & G)
       | [(e & sys1 & P & M & G)
         | (e & sys1 & P & M & [(q & sys2 & R & G) | (e2 & sys2 & R & G)])]];
    fold primary in P; rewrite E1 in P; injection P as -> <-; rewrite G.
  - exists q, st1. split; [reflexivity |].
    split; [apply (Q1 q eq_refl) |]. left.
    split; [left; now exists (st1, bg1) | now split].
  - unfold aside. rewrite useFallback_result. cbn [fst snd].
    eexists. eexists.
    split; [reflexivity |]. split; [apply buildFallbackQuestions_valid |].
    right. exists e, (st1, bg1), (messageOf e "Unknown AI error"). simpl.
    repeat split; first [exact E1 | congruence].
  - fold retry in R. rewrite E2 in R. injection R as -> <-.
    exists q, st2. split; [reflexivity |].
    split; [apply (Q2 q eq_refl) |]. left. split; [| split; congruence].
    right. exists e, (st1, bg1), (st2, bg2). now split.
  - fold retry in R. rewrite E2 in R. injection R as -> <-.
    unfold aside. rewrite useFallback_result. cbn [fst snd].
    eexists. eexists.
    split; [reflexivity |]. split; [apply buildFallbackQuestions_valid |].
    right. exists e, (st1, bg1), (messageOf e2 "Unknown AI error"). simpl.
    repeat split; first [exact E1 | congruence].
Qed.


Lemma generateAiResponse_no_key (w : world) (data : FormData) (st : state) :
  truthy (apiKey w) = false ->
  Tasks.generateAiResponse w data st
  = (st, Failed (JsError "Missing VITE_GEMINI_API_KEY")).
Proof.
  intros H. unfold Tasks.generateAiResponse, Tasks.sendMessage.
  now rewrite H.
Qed.

(** C2, the claim as stated fails: without a credential the generation
    does not fail; the error is caught and the fallback is returned, with
    a warning. *)
Lemma missing_credential_counterexample :
  truthy (apiKey Samples.noKey) = false
  /\ fst (generateQuestions Samples.noKey Samples.job initial)
     = Return (buildFallbackQuestions Samples.job)
  /\ warnings (snd (generateQuestions Samples.noKey Samples.job initial))
     = ["Using fallback interview questions for now. (Missing VITE_GEMINI_API_KEY)"].
Proof. repeat split. Qed.

(** C2, as amended: without a credential [sendMessage] throws the
    missing-credential error at once, with no request made and the state
    untouched; the generation catches it like any other failure that is
    not a timeout: no retry, the fallback, and one warning that carries the
    message. *)
Theorem missing_credential_falls_back (w : world) (data : FormData)
    (prompt : string) (st : state) :
  truthy (apiKey w) = false ->
  sendMessage w prompt st = (Throw (JsError "Missing VITE_GEMINI_API_KEY"), st)
  /\ exists st',
      generateQuestions w data st = (Return (buildFallbackQuestions data), st')
      /\ fetches st' = fetches st
      /\ attempts st' = attempts st
      /\ timers st' = timers st ++ [AI_TIMEOUT_MS]
      /\ warnings st'
         = warnings st ++ [fallbackWarning "Missing VITE_GEMINI_API_KEY"].
Proof.
  intros H. split; [unfold sendMessage; now rewrite H |].
  unfold generateQuestions, generation, tryCatchC, withTimeout.
  rewrite (generateAiResponse_no_key w data _ H).
  change (race (Failed (JsError "Missing VITE_GEMINI_API_KEY")) idle
            (clock st + AI_TIMEOUT_MS) (armTimer AI_TIMEOUT_MS st))
    with (@Throw json (JsError "Missing VITE_GEMINI_API_KEY"),
          armTimer AI_TIMEOUT_MS st, idle).
  cbv iota beta.
  change (isTimeoutMessage (messageOf (JsError "Missing VITE_GEMINI_API_KEY")
                              "Unknown AI error")) with false.
  cbv iota. unfold aside. rewrite useFallback_result. cbn [fst snd].
  eexists. split; [reflexivity |]. repeat split.
Qed.

Lemma missing_credential_falls_back_witness :
  sendMessage Samples.noKey "p" initial
  = (Throw (JsError "Missing VITE_GEMINI_API_KEY"), initial)
  /\ exists st',
      generateQuestions Samples.noKey Samples.job initial
      = (Return (buildFallbackQuestions Samples.job), st')
      /\ fetches st' = 0
      /\ attempts st' = []
      /\ timers st' = [AI_TIMEOUT_MS]
      /\ warnings st' = [fallbackWarning "Missing VITE_GEMINI_API_KEY"].
Proof.
  exact (missing_credential_falls_back Samples.noKey Samples.job "p" initial
           eq_refl).
Defined.

(** With nothing else in flight a race against the timer is decided by
    the attempt run on its own. *)
Lemma primary_alone (w : world) (data : FormData) (ms : N)
    (message : string) (st : state) (r : outcome json) (st1 : state) :
  (0 < ms)%N ->
  generateAiResponse w data (armTimer ms st) = (r, st1) ->
  (r <> Pending -> (clock st1 - clock st < ms)%N ->
   withTimeout (Tasks.generateAiResponse w data) ms message (st, idle)
   = (r, (st1, idle)))
  /\ (r = Pending \/ (ms <= clock st1 - clock st)%N ->
      exists sys,
        withTimeout (Tasks.generateAiResponse w data) ms message (st, idle)
        = (Throw (JsError message), sys)
        /\ clock (fst sys) = (clock st + ms)%N).
Proof.
  intros Hms E. rewrite <- alone_generateAiResponse in E.
  unfold runAlone in E. unfold withTimeout.
  destruct (onTime_generateAiResponse w data (armTimer ms st)) as [C P].
  destruct (Tasks.generateAiResponse w data (armTimer ms st)) as [st0 a].
  simpl in C, P. rewrite <- C in P.
  pose proof (alone_clock a _ st0 r st1 P eq_refl E) as Mono.
  change (clock (armTimer ms st)) with (clock st) in C.
  split.
  - intros N L.
    rewrite (race_alone a (clock st + ms) st0 r st1 P E N) by lia.
    now destruct r.
  - intros H.
    assert (R : fst (fst (race a idle (clock st + ms) st0)) = Pending).
    { apply (race_late a _ st0 r st1 P E); [| lia].
      destruct H as [H | H]; [now left | right; lia]. }
    destruct (race a idle (clock st + ms) st0) as [[r' st'] rest].
    simpl in R. subst r'. eexists. split; reflexivity.
Qed.

(** C4, the claim as stated fails: a failure that no timer caused, here
    the aggregate error of a sweep that was over after 950 ms, is retried
    all the same when its text holds the words the timeout is detected by. *)
Lemma marked_failure_is_retried_counterexample :
  (exists e st1,
      generateAiResponse markedFailure Samples.job
                         (armTimer AI_TIMEOUT_MS initial)
      = (Throw e, st1)
      /\ clock st1 = 950%N)
  /\ timers (snd (generateQuestions markedFailure Samples.job initial))
     = [60000%N; 90000%N]
  /\ List.length
       (attempts (snd (generateQuestions markedFailure Samples.job initial)))
     = 18.
Proof.
  split; [eexists; eexists; split; [vm_compute; reflexivity | reflexivity] |].
  split; vm_compute; reflexivity.
Qed.

(** C4, as amended: the timeout is what the message says: a failure of the
    primary attempt whose message holds [timed out], whatever the case of
    its letters, is followed by exactly one retry under the 90000 ms
    bound, whether a timer fired or the failure came with these words; a
    timer that fires gives such a message; a failure whose message does
    not hold them goes to the fallback with no retry; a primary success is
    returned with no retry; the success of the retry is returned as the
    real question set and its failure, whatever it is, goes to the
    fallback. *)
Theorem generateQuestions_retry_policy (w : world) (data : FormData)
    (st : state) :
  let primary :=
    withTimeout (Tasks.generateAiResponse w data) AI_TIMEOUT_MS
                "AI generation timed out" (st, idle) in
  let retry :=
    withTimeout (Tasks.generateAiResponse w data) AI_RETRY_TIMEOUT_MS
                "AI generation timed out after retry" in
  let marked (e : exn) :=
    includes (toLowerCase (messageOf e "Unknown AI error")) "timed out" in
  let final := snd (generateQuestions w data st) in
  (forall r st1,
      generateAiResponse w data (armTimer AI_TIMEOUT_MS st) = (r, st1) ->
      r = Pending \/ (AI_TIMEOUT_MS <= clock st1 - clock st)%N ->
      exists sys1,
        primary = (Throw (JsError "AI generation timed out"), sys1)
        /\ marked (JsError "AI generation timed out") = true)
  /\ (forall q sys1,
        primary = (Return q, sys1) ->
        generateQuestions w data st = (Return q, fst sys1)
        /\ timers final = timers st ++ [60000%N])
  /\ (forall e sys1,
        primary = (Throw e, sys1) ->
        marked e = false ->
        generateQuestions w data st
        = useFallback data (messageOf e "Unknown AI error") (fst sys1)
        /\ timers final = timers st ++ [60000%N])
  /\ (forall e sys1,
        primary = (Throw e, sys1) ->
        marked e = true ->
        timers final = timers st ++ [60000%N; 90000%N]
        /\ (forall q sys2,
              retry sys1 = (Return q, sys2) ->
              generateQuestions w data st = (Return q, fst sys2)
              /\ isValidQuestions q = true
              /\ warnings (fst sys2) = warnings st)
        /\ (forall e2 sys2,
              retry sys1 = (Throw e2, sys2) ->
              generateQuestions w data st
              = useFallback data (messageOf e2 "Unknown AI error")
                            (fst sys2))).
Proof.
  intros primary retry marked final.
  destruct (withTimeout_spec parsedReply (Tasks.generateAiResponse w data)
              AI_TIMEOUT_MS "AI generation timed out" st idle
              (opens_generateAiResponse w data)
              (yields_generateAiResponse w data) I)
    as (r1 & s1 & b1 & E1 & _ & _ & T1 & _ & W1 & _ & _ & K1).
  fold primary in E1.
  assert (G : generateQuestions w data st
              = match primary with
                | (Throw e, sys1) =>
                    if marked e then
                      match retry sys1 with
                      | (Throw e2, sys2) =>
                          useFallback data (messageOf e2 "Unknown AI error")
                                      (fst sys2)
                      | (r, sys2) => (r, fst sys2)
                      end
                    else useFallback data (messageOf e "Unknown AI error")
                                     (fst sys1)
                | (r, sys1) => (r, fst sys1)
                end).
  { unfold generateQuestions, generation, tryCatchC. fold primary.
    destruct primary as [[q | e |] sys1]; try reflexivity.
    unfold isTimeoutMessage. fold (marked e).
    destruct (marked e).
    - fold retry. now destruct (retry sys1) as [[q | e2 |] sys2].
    - reflexivity. }
  split; [| split; [| split]].
  - intros r st1 E H.
    destruct (proj2 (primary_alone w data AI_TIMEOUT_MS
                       "AI generation timed out" st r st1 eq_refl E) H)
      as (sys & P & _).
    exists sys. split; [exact P | reflexivity].
  - intros q sys1 E. rewrite E in E1. injection E1 as <- ->.
    unfold final. rewrite G, E. split; [reflexivity | exact T1].
  - intros e sys1 E Hm. rewrite E in E1. injection E1 as <- ->.
    unfold final. rewrite G, E, Hm. split; [reflexivity |].
    rewrite useFallback_result. exact T1.
  - intros e sys1 E Hm. rewrite E in E1. injection E1 as <- ->.
    destruct (withTimeout_spec parsedReply (Tasks.generateAiResponse w data)
                AI_RETRY_TIMEOUT_MS "AI generation timed out after retry"
                s1 b1 (opens_generateAiResponse w data)
                (yields_generateAiResponse w data) K1)
      as (r2 & s2 & b2 & E2 & N2 & Q2 & T2 & _ & W2 & _ & _ & _).
    fold retry in E2.
    assert (T : timers s2 = timers st ++ [60000%N; 90000%N]).
    { rewrite T2, T1, <- app_assoc. reflexivity. }
    rewrite E, Hm, E2 in G. unfold final. rewrite G.
    split; [| split].
    + destruct r2 as [q | e2 |]; [exact T | | congruence].
      rewrite useFallback_result. exact T.
    + intros q sys2 R. rewrite E2 in R. injection R as -> <-.
      split; [reflexivity |].
      split; [apply (Q2 q eq_refl) | simpl; congruence].
    + intros e2 sys2 R. rewrite E2 in R. injection R as -> <-. reflexivity.
Qed.

Lemma generateQuestions_retry_policy_witness :
  (exists sys1,
      withTimeout (Tasks.generateAiResponse Samples.firstHangs Samples.job)
                  AI_TIMEOUT_MS "AI generation timed out" (initial, idle)
      = (Throw (JsError "AI generation timed out"), sys1)
      /\ includes (toLowerCase "AI generation timed out") "timed out" = true)
  /\ (exists st1,
        generateQuestions Samples.thirdSucceeds Samples.job initial
        = (Return (JArr [interviewQuestion "Q1" "A1"]), st1))
  /\ (exists reason st1,
        generateQuestions Samples.allFail Samples.job initial
        = useFallback Samples.job reason st1)
  /\ (exists st2,
        generateQuestions Samples.firstHangs Samples.job initial
        = (Return (JArr [interviewQuestion "Q1" "A1"]), st2)
        /\ warnings st2 = [])
  /\ timers (snd (generateQuestions markedFailure Samples.job initial))
     = [60000%N; 90000%N]
  /\ (exists reason st2,
        generateQuestions Samples.allHang Samples.job initial
        = useFallback Samples.job reason st2).
Proof.
  split; [| split; [| split; [| split; [| split]]]].
  - refine (proj1 (generateQuestions_retry_policy Samples.firstHangs
                     Samples.job initial) Pending _ _ (or_introl eq_refl)).
    vm_compute. reflexivity.
  - eexists.
    refine (proj1 (proj1 (proj2 (generateQuestions_retry_policy
                                   Samples.thirdSucceeds Samples.job initial))
                     _ _ _)).
    vm_compute. reflexivity.
  - eexists. eexists.
    refine (proj1 (proj1 (proj2 (proj2 (generateQuestions_retry_policy
                                          Samples.allFail Samples.job initial)))
                     _ _ _ _)).
    + vm_compute. reflexivity.
    + vm_compute. reflexivity.
  - eexists.
    refine ((fun H => conj (proj1 H) (proj2 (proj2 H)))
              (proj1 (proj2 (proj2 (proj2 (proj2 (generateQuestions_retry_policy
                 Samples.firstHangs Samples.job initial))) _ _ _ _)) _ _ _)).
    + vm_compute. reflexivity.
    + vm_compute. reflexivity.
    + vm_compute. reflexivity.
  - refine (proj1 (proj2 (proj2 (proj2 (generateQuestions_retry_policy
              markedFailure Samples.job initial))) _ _ _ _)).
    + vm_compute. reflexivity.
    + vm_compute. reflexivity.
  - eexists. eexists.
    refine (proj2 (proj2 (proj2 (proj2 (proj2 (generateQuestions_retry_policy
              Samples.allHang Samples.job initial))) _ _ _ _)) _ _ _).
    + vm_compute. reflexivity.
    + vm_compute. reflexivity.
    + vm_compute. reflexivity.
Defined.

(** An abandoned attempt runs on beside the retry: the discovery of the
    primary attempt answers after 95 s, when the retry, begun at 60 s with
    the catalogue still not cached, has made a discovery request of its
    own; the retry is not answered before its timer fires at 150 s. *)
Example retry_beside_abandoned_attempt :
  let final := snd (generateQuestions slowDiscovery Samples.job initial) in
  fst (generateQuestions slowDiscovery Samples.job initial)
  = Return (buildFallbackQuestions Samples.job)
  /\ fetches final = 2
  /\ attempts final = ["gemini-1.5-flash-latest"]
  /\ clock final = 150000%N
  /\ warnings final
     = [fallbackWarning "AI generation timed out after retry"].
Proof. vm_compute. repeat split. Qed.

End OrchestrationFacts.

(** ** The sanitizer on valid array text *)

Module SanitizerFacts.

Import Js Async Json Scripts Form.

Ltac each_char c :=
  let b0 := fresh in let b1 := fresh in let b2 := fresh in let b3 := fresh in
  let b4 := fresh in let b5 := fresh in let b6 := fresh in let b7 := fresh in
  destruct c as [b0 b1 b2 b3 b4 b5 b6 b7];
  destruct b0, b1, b2, b3, b4, b5, b6, b7.

Ltac each_state st :=
  let acc := fresh "acc" in let ds := fresh "ds" in let ns := fresh "ns" in
  let lit := fresh "lit" in let seen := fresh "seen" in
  destruct st as [| acc | acc | acc ds | ns acc | lit seen];
  [ | | | | destruct ns
    | destruct lit; destruct seen as [| [| [| [| [| seen]]]]] ].

(** The code units below 32. *)
Lemma control_cases (c : ascii) :
  (nat_of_ascii c <? 32)%nat = true ->
  exists b0 b1 b2 b3 b4, c = Ascii b0 b1 b2 b3 b4 false false false.
Proof.
  intros L. destruct c as [b0 b1 b2 b3 b4 b5 b6 b7].
  destruct b5, b6, b7;
    try (destruct b0, b1, b2, b3, b4; discriminate L).
  now exists b0, b1, b2, b3, b4.
Qed.

Lemma whiteSpace_cases (c : ascii) :
  isWhiteSpace c = true ->
  In c ["009"; "010"; "011"; "012"; "013"; " "; "160"]%char.
Proof.
  intros H. each_char c; try discriminate H; simpl; tauto.
Qed.

Lemma jsonSpace_whiteSpace (c : ascii) :
  isJsonSpace c = true -> isWhiteSpace c = true.
Proof.
  intros H. each_char c; try discriminate H; reflexivity.
Qed.

Ltac each_control c L :=
  let b0 := fresh in let b1 := fresh in let b2 := fresh in let b3 := fresh in
  let b4 := fresh in
  destruct (control_cases c L) as (b0 & b1 & b2 & b3 & b4 & ->);
  destruct b0, b1, b2, b3, b4.

Ltac each_space c H :=
  apply whiteSpace_cases in H; simpl in H;
  repeat (destruct H as [<- | H]); [.. | contradiction].

Lemma lexStep_blank (st : lexState) (c : ascii) (r : lexState * list token) :
  lexStep st c = Some r -> lexStep st (blankControl c) = Some r.
Proof.
  unfold blankControl. destruct (nat_of_ascii c <? 32)%nat eqn:L; [| auto].
  intros H. each_control c L; each_state st; try discriminate H; exact H.
Qed.

Lemma lexFrom_blank (text : string) :
  forall st ts,
    lexFrom st text = Some ts ->
    lexFrom st (mapChars blankControl text) = Some ts.
Proof.
  induction text as [| c r IH]; intros st ts H; [exact H |].
  simpl in H |- *.
  destruct (lexStep st c) as [[st' tc] |] eqn:E; [| discriminate H].
  rewrite (lexStep_blank _ _ _ E).
  destruct (lexFrom st' r) as [more |] eqn:E'; [| discriminate H].
  now rewrite (IH _ _ E').
Qed.

Lemma lexDefault_space (c : ascii) (r : lexState * list token) :
  isWhiteSpace c = true -> lexDefault c = Some r -> r = (LDefault, []).
Proof.
  intros W H. each_space c W; try discriminate H; now injection H.
Qed.

Lemma lex_trimStart (text : string) (ts : list token) :
  lex text = Some ts -> lex (trimStart text) = Some ts.
Proof.
  unfold lex. induction text as [| c r IH]; intros H; [exact H |].
  simpl. destruct (isWhiteSpace c) eqn:W; [| exact H].
  apply IH. simpl in H.
  destruct (lexDefault c) as [[st' tc] |] eqn:E; [| discriminate H].
  apply (lexDefault_space _ _ W) in E. injection E as -> ->.
  now destruct (lexFrom LDefault r).
Qed.

(** A blank that ends the text adds nothing to what the state owes. *)
Lemma lexEnd_space (st st' : lexState) (c : ascii) (tc more : list token) :
  isWhiteSpace c = true ->
  lexStep st c = Some (st', tc) -> lexEnd st' = Some more ->
  lexEnd st = Some (tc ++ more).
Proof.
  intros W H E. each_space c W; each_state st; try discriminate H;
    injection H as <- <-; try discriminate E; injection E as <-; reflexivity.
Qed.

Lemma lexFrom_trimEnd (text : string) :
  forall st ts,
    lexFrom st text = Some ts -> lexFrom st (trimEnd text) = Some ts.
Proof.
  induction text as [| c r IH]; intros st ts H; [exact H |].
  simpl in H.
  destruct (lexStep st c) as [[st' tc] |] eqn:E; [| discriminate H].
  destruct (lexFrom st' r) as [more |] eqn:E'; [| discriminate H].
  injection H as <-. apply IH in E'. simpl.
  destruct (isWhiteSpace c && isEmpty (trimEnd r)) eqn:B.
  - apply andb_true_iff in B. destruct B as [W B].
    destruct (trimEnd r); [| discriminate B]. simpl in E' |- *.
    eapply lexEnd_space; eassumption.
  - simpl. now rewrite E, E'.
Qed.

Lemma lex_trim (text : string) (ts : list token) :
  lex text = Some ts -> lex (trim text) = Some ts.
Proof.
  intros H. unfold trim, lex. apply lexFrom_trimEnd.
  now apply lex_trimStart.
Qed.

Lemma scanArray_step (text rest : string) (c : ascii) (i : nat) (start : Z)
    (depth : nat) (inS isE : bool) :
  scanArray text (String c rest) i start depth inS isE
  = let continue := fun start' depth' =>
      scanArray text rest (S i) start' depth' (scanIn inS isE c)
                (scanEsc inS isE c) in
    if (scanDelta inS c =? 1)%Z then
      continue (if (depth =? 0)%nat then Z.of_nat i else start) (depth + 1)
    else if (scanDelta inS c =? -1)%Z && (0 <? depth)%nat then
      if (depth - 1 =? 0)%nat && (0 <=? start)%Z
      then Some (slice (Z.to_nat start) (i + 1) text)
      else continue start (depth - 1)
    else continue start depth.
Proof.
  unfold scanDelta, scanIn, scanEsc. simpl.
  destruct inS, isE; try reflexivity.
  - destruct (Ascii.eqb c "\"); [reflexivity |].
    destruct (Ascii.eqb c dquote); reflexivity.
  - destruct (Ascii.eqb c dquote); [reflexivity |].
    destruct (Ascii.eqb c "["); [reflexivity |].
    destruct (Ascii.eqb c "]"); [| reflexivity]. simpl.
    destruct (0 <? depth)%nat; reflexivity.
  - destruct (Ascii.eqb c dquote); [reflexivity |].
    destruct (Ascii.eqb c "["); [reflexivity |].
    destruct (Ascii.eqb c "]"); [| reflexivity]. simpl.
    destruct (0 <? depth)%nat; reflexivity.
Qed.

Ltac split_ifs H :=
  repeat match type of H with
         | (if ?b then _ else _) = _ => destruct b eqn:?
         | match ?o with Some _ => _ | None => _ end = _ => destruct o eqn:?
         | (let (_, _) := ?p in _) = _ => destruct p eqn:?
         end.

Lemma brackets_literal (lit : literal) : brackets [literalToken lit] = 0%Z.
Proof. now destruct lit. Qed.

(** Away from the quote, the backslash and the two brackets the reader
    neither enters nor leaves a string and yields no bracket. *)
Lemma lexDefault_plain (c : ascii) (st' : lexState) (tc : list token) :
  Ascii.eqb c dquote = false -> Ascii.eqb c "[" = false ->
  Ascii.eqb c "]" = false ->
  lexDefault c = Some (st', tc) ->
  inStr st' = false /\ escaped st' = false /\ brackets tc = 0%Z.
Proof.
  intros Q O C H. unfold lexDefault in H. rewrite Q, O, C in H.
  split_ifs H; try discriminate H; injection H as <- <-; repeat split.
Qed.

Lemma lexStep_plain (st st' : lexState) (c : ascii) (tc : list token) :
  Ascii.eqb c dquote = false -> Ascii.eqb c "\" = false ->
  Ascii.eqb c "[" = false -> Ascii.eqb c "]" = false ->
  lexStep st c = Some (st', tc) ->
  inStr st' = inStr st /\ escaped st' = false /\ brackets tc = 0%Z.
Proof.
  intros Q B O C H.
  destruct st as [| acc | acc | acc ds | ns acc | lit seen]; simpl in H.
  - exact (lexDefault_plain c _ _ Q O C H).
  - rewrite Q, B in H. split_ifs H; try discriminate H.
    injection H as <- <-. repeat split.
  - split_ifs H; try discriminate H; injection H as <- <-; repeat split.
  - split_ifs H; try discriminate H; injection H as <- <-; repeat split.
  - destruct (numStep ns c); [injection H as <- <-; repeat split |].
    destruct (numAccepting ns); [| discriminate H].
    destruct (lexDefault c) as [[s t] |] eqn:E; [| discriminate H].
    injection H as <- <-. exact (lexDefault_plain c _ _ Q O C E).
  - split_ifs H; try discriminate H; injection H as <- <-; repeat split.
    apply brackets_literal.
Qed.

Lemma lexStep_scan (st st' : lexState) (c : ascii) (tc : list token) :
  lexStep st c = Some (st', tc) ->
  inStr st' = scanIn (inStr st) (escaped st) c
  /\ escaped st' = scanEsc (inStr st) (escaped st) c
  /\ brackets tc = scanDelta (inStr st) c.
Proof.
  intros H. unfold scanIn, scanEsc, scanDelta.
  destruct (Ascii.eqb_spec c dquote) as [-> | Q].
  { each_state st; try discriminate H; injection H as <- <-; repeat split. }
  destruct (Ascii.eqb_spec c "\") as [-> | B].
  { each_state st; try discriminate H; injection H as <- <-; repeat split. }
  destruct (Ascii.eqb_spec c "[") as [-> | O].
  { each_state st; try discriminate H; injection H as <- <-; repeat split. }
  destruct (Ascii.eqb_spec c "]") as [-> | C].
  { each_state st; try discriminate H; injection H as <- <-; repeat split. }
  apply Ascii.eqb_neq in Q, B, O, C.
  destruct (lexStep_plain _ _ _ _ Q B O C H) as (I & E & K).
  rewrite I, E, K. destruct st; repeat split.
Qed.

Lemma brackets_app (a b : list token) :
  brackets (a ++ b) = (brackets a + brackets b)%Z.
Proof. induction a as [| t a IH]; simpl; [reflexivity | rewrite IH; lia]. Qed.

Lemma live_app (a b : list token) :
  forall d, live d (a ++ b) ->
            live (d + brackets a) b /\ (a <> [] -> (0 < d)%Z).
Proof.
  induction a as [| t a IH]; intros d H; simpl in *.
  - rewrite Z.add_0_r. tauto.
  - destruct H as [P H]. apply IH in H. destruct H as [H _].
    rewrite Z.add_assoc. tauto.
Qed.

Lemma nonneg_mono (ts : list token) :
  forall d d', (d <= d')%Z -> nonneg d ts -> nonneg d' ts.
Proof.
  induction ts as [| t r IH]; intros d d' L H; simpl in *; [exact I |].
  destruct H as [P H]. split; [lia |]. apply (IH (d + brk t)%Z); [lia | exact H].
Qed.

Lemma nonneg_app (a b : list token) :
  forall d, nonneg d a -> nonneg (d + brackets a) b -> nonneg d (a ++ b).
Proof.
  induction a as [| t a IH]; intros d Ha Hb; simpl in *.
  - now rewrite Z.add_0_r in Hb.
  - destruct Ha as [P Ha]. split; [exact P |]. apply IH; [exact Ha |].
    now rewrite Z.add_assoc in Hb.
Qed.

Lemma live_of_nonneg (t : token) (body : list token) :
  forall d, (0 <= d)%Z -> nonneg d body -> live (d + 1) (body ++ [t]).
Proof.
  induction body as [| x r IH]; intros d L H; simpl in *.
  - split; [lia | exact I].
  - destruct H as [P H]. split; [lia |].
    replace (d + 1 + brk x)%Z with (d + brk x + 1)%Z by lia.
    now apply IH.
Qed.

Lemma trimEnd_tail (c : ascii) (r : string) :
  trimEnd (String c r) = String c r -> trimEnd r = r.
Proof.
  simpl. destruct (isWhiteSpace c && isEmpty (trimEnd r)); [discriminate |].
  now intros [= ->].
Qed.

Lemma silent_default (st : lexState) (c : ascii) :
  lexStep st c = Some (LDefault, []) -> st = LDefault /\ isJsonSpace c = true.
Proof.
  intros H.
  destruct st as [| acc | acc | acc ds | ns acc | lit seen]; simpl in H.
  - split; [reflexivity |]. unfold lexDefault in H.
    destruct (isJsonSpace c); [reflexivity |].
    split_ifs H; discriminate H.
  - split_ifs H; discriminate H.
  - split_ifs H; discriminate H.
  - split_ifs H; discriminate H.
  - split_ifs H; discriminate H.
  - split_ifs H; discriminate H.
Qed.

(** A text that yields no token is blank. *)
Lemma lex_nothing (r : string) :
  forall st, lexFrom st r = Some [] -> st = LDefault /\ trimEnd r = "".
Proof.
  induction r as [| c r IH]; intros st H; simpl in H.
  - split; [| reflexivity].
    destruct st; simpl in H; try discriminate H; [reflexivity |].
    destruct (numAccepting ns); discriminate H.
  - destruct (lexStep st c) as [[st' tc] |] eqn:E; [| discriminate H].
    destruct (lexFrom st' r) as [more |] eqn:E'; [| discriminate H].
    injection H as H. apply app_eq_nil in H. destruct H as [-> ->].
    destruct (IH _ E') as [-> T].
    destruct (silent_default _ _ E) as [-> W]. split; [reflexivity |].
    simpl. rewrite T. now rewrite (jsonSpace_whiteSpace _ W).
Qed.

(** The scanner on a text that the reader accepts: as long as the depth
    stays positive before each token, a returned slice ends where the text
    ends. *)
Lemma scanArray_whole (text : string) (r : string) :
  forall st toks i start depth out,
    lexFrom st r = Some toks ->
    live (Z.of_nat depth) toks ->
    trimEnd r = r ->
    scanArray text r i start depth (inStr st) (escaped st) = Some out ->
    out = slice (Z.to_nat start) (i + String.length r) text.
Proof.
  induction r as [| c r IH]; intros st toks i start depth out L V T H;
    [discriminate H |].
  rewrite scanArray_step in H. simpl in L.
  destruct (lexStep st c) as [[st' tc] |] eqn:E; [| discriminate L].
  destruct (lexFrom st' r) as [more |] eqn:E'; [| discriminate L].
  injection L as <-.
  destruct (lexStep_scan _ _ _ _ E) as (I1 & I2 & I3).
  rewrite <- I1, <- I2, <- I3 in H.
  destruct (live_app _ _ _ V) as [V' P].
  pose proof (trimEnd_tail _ _ T) as T'.
  assert (N : tc <> [] -> (0 < depth)%nat) by (intros X; apply P in X; lia).
  replace (i + String.length (String c r)) with (S i + String.length r)
    by (simpl; lia).
  cbv zeta in H.
  destruct (brackets tc =? 1)%Z eqn:D1.
  - apply Z.eqb_eq in D1.
    assert (0 < depth)%nat by (apply N; intros ->; discriminate D1).
    destruct (depth =? 0)%nat eqn:D0; [apply Nat.eqb_eq in D0; lia |].
    apply (IH st' more (S i) start (depth + 1) out E'); try assumption.
    replace (Z.of_nat (depth + 1)) with (Z.of_nat depth + brackets tc)%Z by lia.
    exact V'.
  - destruct ((brackets tc =? -1)%Z && (0 <? depth)%nat) eqn:D2.
    + apply andb_true_iff in D2. destruct D2 as [D2 D3].
      apply Z.eqb_eq in D2. apply Nat.ltb_lt in D3.
      destruct ((depth - 1 =? 0)%nat && (0 <=? start)%Z) eqn:D4.
      * apply andb_true_iff in D4. destruct D4 as [D4 _].
        apply Nat.eqb_eq in D4.
        replace (Z.of_nat depth + brackets tc)%Z with 0%Z in V' by lia.
        destruct more as [| t more]; [| simpl in V'; lia].
        destruct (lex_nothing _ _ E') as [_ B]. rewrite T' in B. subst r.
        injection H as <-. f_equal. simpl. lia.
      * apply (IH st' more (S i) start (depth - 1) out E'); try assumption.
        replace (Z.of_nat (depth - 1)) with (Z.of_nat depth + brackets tc)%Z
          by lia.
        exact V'.
    + assert (K : brackets tc = 0%Z).
      { apply Z.eqb_neq in D1. apply andb_false_iff in D2.
        destruct (lexStep_scan _ _ _ _ E) as (_ & _ & K). rewrite K in *.
        unfold scanDelta in *.
        destruct (inStr st); [reflexivity |].
        destruct (Ascii.eqb c dquote); [reflexivity |].
        destruct (Ascii.eqb c "["); [lia |].
        destruct (Ascii.eqb c "]"); [| reflexivity].
        destruct D2 as [D2 | D2]; [apply Z.eqb_neq in D2; lia |].
        apply Nat.ltb_ge in D2.
        assert (0 < depth)%nat; [| lia].
        apply N. intros ->. discriminate K. }
      apply (IH st' more (S i) start depth out E'); try assumption.
      rewrite K, Z.add_0_r in V'. exact V'.
Qed.

(** ** What the parser consumes is balanced *)

Lemma balanced_nil : balanced [].
Proof. split; [reflexivity | exact I]. Qed.

Lemma balanced_app (a b : list token) :
  balanced a -> balanced b -> balanced (a ++ b).
Proof.
  intros [Ba Na] [Bb Nb]. split.
  - rewrite brackets_app. lia.
  - apply nonneg_app; [exact Na |]. now rewrite Ba.
Qed.

Lemma balanced_neutral (t : token) : brk t = 0%Z -> balanced [t].
Proof. intros H. unfold balanced. simpl. rewrite H. repeat split; lia. Qed.

Lemma balanced_array (body : list token) :
  balanced body -> balanced (TLBrack :: body ++ [TRBrack]).
Proof.
  intros [B N]. split.
  - simpl. rewrite brackets_app, B. reflexivity.
  - simpl. split; [lia |]. apply nonneg_app.
    + apply (nonneg_mono _ 0%Z); [lia | exact N].
    + rewrite B. simpl. repeat split; lia.
Qed.

Lemma parse_balanced (fuel : nat) :
  (forall ts v rest,
      parseValue fuel ts = Some (v, rest) ->
      exists c,
        ts = c ++ rest /\ balanced c
        /\ (isArray v = true ->
            exists body, c = TLBrack :: body ++ [TRBrack] /\ balanced body))
  /\ (forall ts acc v rest,
        parseElements fuel ts acc = Some (v, rest) ->
        exists body, ts = body ++ TRBrack :: rest /\ balanced body)
  /\ (forall ts acc v rest,
        parseMembers fuel ts acc = Some (v, rest) ->
        isArray v = false /\ exists c, ts = c ++ rest /\ balanced c).
Proof.
  induction fuel as [| f (IHv & IHe & IHm)].
  - repeat split; intros; discriminate.
  - split; [| split].
    + intros ts v rest H. simpl in H.
      destruct ts as [| t r]; [discriminate H |].
      destruct t; try discriminate H;
        try (injection H as <- <-; eexists [_]; split; [reflexivity |];
             split; [now apply balanced_neutral | discriminate]).
      * assert (D : (exists r2, r = TRBrack :: r2 /\ v = JArr [] /\ rest = r2)
                    \/ parseElements f r [] = Some (v, rest)).
        { destruct r as [| t2 r2]; [now right |].
          destruct t2; try (now right).
          injection H as <- <-. left. now exists r2. }
        destruct D as [(r2 & -> & -> & ->) | D].
        -- exists [TLBrack; TRBrack]. split; [reflexivity |].
           split; [apply (balanced_array [] balanced_nil) |].
           intros _. exists []. split; [reflexivity | apply balanced_nil].
        -- apply IHe in D. destruct D as (body & E & B).
           exists (TLBrack :: body ++ [TRBrack]). rewrite E.
           split; [simpl; now rewrite <- app_assoc |].
           split; [now apply balanced_array |].
           intros _. now exists body.
      * assert (D : (exists r2, r = TRBrace :: r2 /\ v = JObj [] /\ rest = r2)
                    \/ parseMembers f r [] = Some (v, rest)).
        { destruct r as [| t2 r2]; [now right |].
          destruct t2; try (now right).
          injection H as <- <-. left. now exists r2. }
        destruct D as [(r2 & -> & -> & ->) | D].
        -- exists [TLBrace; TRBrace]. split; [reflexivity |].
           split; [| discriminate].
           apply (balanced_app [TLBrace] [TRBrace]); now apply balanced_neutral.
        -- apply IHm in D. destruct D as (NA & c & E & B).
           exists (TLBrace :: c). rewrite E. split; [reflexivity |].
           split; [| rewrite NA; discriminate].
           apply (balanced_app [TLBrace] c); [now apply balanced_neutral | exact B].
    + intros ts acc v rest H. simpl in H.
      destruct (parseValue f ts) as [[v1 r1] |] eqn:E; [| discriminate H].
      apply IHv in E. destruct E as (c & -> & B & _).
      destruct r1 as [| t r1]; [discriminate H |].
      destruct t; try discriminate H.
      * injection H as _ <-. now exists c.
      * apply IHe in H. destruct H as (body & -> & B').
        exists (c ++ TComma :: body). split; [now rewrite <- app_assoc |].
        apply balanced_app; [exact B |].
        apply (balanced_app [TComma] body); [now apply balanced_neutral | exact B'].
    + intros ts acc v rest H. simpl in H.
      destruct ts as [| t r]; [discriminate H |].
      destruct t; try discriminate H.
      destruct r as [| t r]; [discriminate H |].
      destruct t; try discriminate H.
      destruct (parseValue f r) as [[v1 r1] |] eqn:E; [| discriminate H].
      apply IHv in E. destruct E as (c & -> & B & _).
      destruct r1 as [| t r1]; [discriminate H |].
      destruct t; try discriminate H.
      * injection H as <- <-. split; [reflexivity |].
        exists (TStr s :: TColon :: c ++ [TRBrace]).
        split; [simpl; now rewrite <- app_assoc |].
        apply (balanced_app [TStr s; TColon] (c ++ [TRBrace])).
        -- apply (balanced_app [TStr s] [TColon]); now apply balanced_neutral.
        -- apply balanced_app; [exact B | now apply balanced_neutral].
      * apply IHm in H. destruct H as (NA & c' & -> & B').
        split; [exact NA |].
        exists (TStr s :: TColon :: c ++ TComma :: c').
        split; [simpl; now rewrite <- app_assoc |].
        apply (balanced_app [TStr s; TColon] (c ++ TComma :: c')).
        -- apply (balanced_app [TStr s] [TColon]); now apply balanced_neutral.
        -- apply balanced_app; [exact B |].
           apply (balanced_app [TComma] c'); [now apply balanced_neutral | exact B'].
Qed.

Lemma lexStep_owes (st st' : lexState) (c : ascii) (tc : list token) :
  lexStep st c = Some (st', tc) ->
  match tc with
  | [] => forall t, owes st' t -> owes st t
  | t :: _ => owes st t
  end.
Proof.
  intros H.
  destruct st as [| acc | acc | acc ds | ns acc | lit seen]; simpl in H.
  - now destruct tc.
  - split_ifs H; try discriminate H; injection H as <- <-; simpl; eauto.
  - split_ifs H; try discriminate H; injection H as <- <-; simpl; eauto.
  - split_ifs H; try discriminate H; injection H as <- <-; simpl; eauto.
  - split_ifs H; try discriminate H; injection H as <- <-; simpl; eauto.
  - split_ifs H; try discriminate H; injection H as <- <-; simpl; eauto.
Qed.

Lemma first_token (r : string) :
  forall st t toks, lexFrom st r = Some (t :: toks) -> owes st t.
Proof.
  induction r as [| c r IH]; intros st t toks H; simpl in H.
  - destruct st; simpl in H |- *; try discriminate H.
    destruct (numAccepting ns); [| discriminate H]. injection H as <- _. eauto.
  - destruct (lexStep st c) as [[st' tc] |] eqn:E; [| discriminate H].
    destruct (lexFrom st' r) as [more |] eqn:E'; [| discriminate H].
    injection H as H. pose proof (lexStep_owes _ _ _ _ E) as O.
    destruct tc as [| t' tc]; simpl in H.
    + subst more. apply O. eapply IH. eassumption.
    + injection H as -> _. exact O.
Qed.

Lemma trimStart_length (s : string) :
  String.length (trimStart s) <= String.length s.
Proof.
  induction s as [| c r IH]; simpl; [lia |].
  destruct (isWhiteSpace c); simpl; lia.
Qed.

Lemma trimStart_head (c : ascii) (r : string) :
  trimStart (String c r) = String c r -> isWhiteSpace c = false.
Proof.
  simpl. destruct (isWhiteSpace c); [| reflexivity].
  intros H. pose proof (trimStart_length r) as L. rewrite H in L.
  simpl in L. lia.
Qed.

Lemma substring_all (s : string) : substring 0 (String.length s) s = s.
Proof. induction s as [| c r IH]; simpl; [reflexivity | now rewrite IH]. Qed.

(** On a trimmed text that reads as one balanced array the scanner can
    only return the whole text. *)
Lemma extractFirstJsonArray_whole (text : string) (body : list token) :
  lex text = Some (TLBrack :: body ++ [TRBrack]) ->
  balanced body ->
  trimStart text = text -> trimEnd text = text ->
  forall out, extractFirstJsonArray text = Some out -> out = text.
Proof.
  intros L [_ N] TS TE out H.
  destruct text as [| c r]; [discriminate L |].
  pose proof (trimStart_head _ _ TS) as W.
  unfold lex in L. simpl in L.
  destruct (lexDefault c) as [[st' tc] |] eqn:E; [| discriminate L].
  destruct (lexFrom st' r) as [more |] eqn:E'; [| discriminate L].
  injection L as L.
  assert (K : c = "["%char /\ st' = LDefault /\ more = body ++ [TRBrack]).
  { unfold lexDefault in E.
    destruct (isJsonSpace c) eqn:J;
      [apply jsonSpace_whiteSpace in J; congruence |].
    destruct (Ascii.eqb c "[") eqn:O.
    - apply Ascii.eqb_eq in O. injection E as <- <-. injection L as <-. auto.
    - split_ifs E; try discriminate E; injection E as <- <-;
        simpl in L; try discriminate L; subst more;
        apply first_token in E'; simpl in E';
        match type of E' with
        | ex _ => destruct E' as [x E']; discriminate E'
        | _ => discriminate E'
        end. }
  destruct K as (-> & -> & ->).
  unfold extractFirstJsonArray in H. rewrite scanArray_step in H.
  change (scanArray (String "[" r) r 1 0%Z 1 (inStr LDefault)
                    (escaped LDefault) = Some out) in H.
  rewrite (scanArray_whole _ r LDefault _ 1 0%Z 1 out E'
             (live_of_nonneg TRBrack body 0%Z (Z.le_refl 0) N)
             (trimEnd_tail _ _ TE) H).
  unfold slice. simpl Z.to_nat. rewrite Nat.sub_0_r.
  apply (substring_all (String "[" r)).
Qed.

(** ** Trimming and fence removal on a text without fence *)

Lemma trimEnd_idem (s : string) : trimEnd (trimEnd s) = trimEnd s.
Proof.
  induction s as [| c r IH]; [reflexivity |]. simpl.
  destruct (isWhiteSpace c && isEmpty (trimEnd r)) eqn:B; [reflexivity |].
  simpl. now rewrite IH, B.
Qed.

Lemma trimStart_idem (s : string) : trimStart (trimStart s) = trimStart s.
Proof.
  induction s as [| c r IH]; [reflexivity |]. simpl.
  destruct (isWhiteSpace c) eqn:W; [exact IH |]. simpl. now rewrite W.
Qed.

Lemma trimStart_trim (s : string) : trimStart (trim s) = trim s.
Proof.
  unfold trim. pose proof (trimStart_idem s) as I.
  destruct (trimStart s) as [| c r]; [reflexivity |].
  apply trimStart_head in I. simpl. rewrite I. simpl. now rewrite I.
Qed.

Lemma trimEnd_trim (s : string) : trimEnd (trim s) = trim s.
Proof. apply trimEnd_idem. Qed.

Lemma trim_idem (s : string) : trim (trim s) = trim s.
Proof. unfold trim at 1. now rewrite trimStart_trim, trimEnd_trim. Qed.

Lemma prefix_nil (s : string) : prefix "" s = true.
Proof. now destruct s. Qed.

Lemma prefix_trimEnd (s : string) :
  forall p, prefix p (trimEnd s) = true -> prefix p s = true.
Proof.
  induction s as [| c r IH]; intros p H; [exact H |].
  destruct p as [| a p]; [reflexivity |]. simpl in H |- *.
  destruct (isWhiteSpace c && isEmpty (trimEnd r)); [discriminate H |].
  simpl in H. destruct (ascii_dec a c); [now apply IH | exact H].
Qed.

Lemma includes_trimEnd (p s : string) :
  includes (trimEnd s) p = true -> includes s p = true.
Proof.
  induction s as [| c r IH]; intros H; [exact H |].
  change (includes (String c r) p)
    with (prefix p (String c r) || includes r p).
  apply orb_true_iff.
  assert (T : trimEnd (String c r) = ""
              \/ trimEnd (String c r) = String c (trimEnd r))
    by (simpl; destruct (isWhiteSpace c && isEmpty (trimEnd r)); auto).
  destruct T as [T | T].
  - rewrite T in H. left. destruct p; [reflexivity | discriminate H].
  - rewrite T in H.
    change (includes (String c (trimEnd r)) p)
      with (prefix p (String c (trimEnd r)) || includes (trimEnd r) p) in H.
    apply orb_true_iff in H. destruct H as [H | H].
    + left. apply prefix_trimEnd. now rewrite T.
    + right. now apply IH.
Qed.

Lemma includes_trimStart (p s : string) :
  includes (trimStart s) p = true -> includes s p = true.
Proof.
  induction s as [| c r IH]; intros H; [exact H |]. simpl in H.
  destruct (isWhiteSpace c); [| exact H].
  change (includes (String c r) p)
    with (prefix p (String c r) || includes r p).
  apply orb_true_iff. right. now apply IH.
Qed.

Lemma includes_trim (p s : string) :
  includes s p = false -> includes (trim s) p = false.
Proof.
  intros H. destruct (includes (trim s) p) eqn:E; [| reflexivity].
  apply includes_trimEnd, includes_trimStart in E. congruence.
Qed.

Lemma removeAll_none (matchAt : string -> nat) (s : string) :
  (forall t, prefix "```" t = false -> matchAt t = 0) ->
  includes s "```" = false -> removeAll matchAt 0 s = s.
Proof.
  intros M. induction s as [| c r IH]; intros H; [reflexivity |].
  change (includes (String c r) "```")
    with (prefix "```" (String c r) || includes r "```") in H.
  apply orb_false_iff in H. destruct H as [P H].
  simpl. rewrite (M _ P). now rewrite IH.
Qed.

Lemma removeFences_none (s : string) :
  includes s "```" = false -> removeFences s = s.
Proof.
  intros H. unfold removeFences.
  rewrite (removeAll_none taggedFenceAt s); try assumption.
  - apply removeAll_none; [| assumption].
    intros t P. unfold bareFenceAt. now rewrite P.
  - intros t P. unfold taggedFenceAt. now rewrite P.
Qed.

(** The payload handed to [JSON.parse] for a fence-free array text. *)
Lemma normalizedPayload_array (raw : string) (body : list token) :
  lex raw = Some (TLBrack :: body ++ [TRBrack]) ->
  balanced body ->
  includes raw "```" = false ->
  normalizedPayload raw = mapChars blankControl (trim raw).
Proof.
  intros L B F. unfold normalizedPayload.
  rewrite (removeFences_none _ (includes_trim _ _ F)), trim_idem.
  destruct (extractFirstJsonArray (trim raw)) as [out |] eqn:E; [| reflexivity].
  f_equal.
  apply (extractFirstJsonArray_whole (trim raw) body); try assumption.
  - now apply lex_trim.
  - apply trimStart_trim.
  - apply trimEnd_trim.
Qed.

(** The sanitizer on an array text without fence marker: trimming, fence
    removal, the bracket scanner and the blanking of control characters
    leave [JSON.parse] with a text that parses to the same value. *)
Theorem parse_normalizedPayload_without_fence (raw : string) (v : json) :
  Json.parse raw = Some v -> isArray v = true ->
  includes raw "```" = false ->
  Json.parse (normalizedPayload raw) = Some v.
Proof.
  intros H A F. unfold Json.parse in H.
  destruct (lex raw) as [ts |] eqn:L; [| discriminate H].
  destruct (parseValue (2 * List.length ts + 2) ts) as [[v' rest] |] eqn:P;
    [| discriminate H].
  destruct rest; [| discriminate H]. injection H as ->.
  destruct (proj1 (parse_balanced _) _ _ _ P) as (c & E & _ & K).
  destruct (K A) as (body & -> & B). rewrite app_nil_r in E. subst ts.
  rewrite (normalizedPayload_array raw body L B F).
  unfold Json.parse, lex.
  rewrite (lexFrom_blank _ _ _ (lex_trim _ _ L)). now rewrite P.
Qed.

(** On a valid JSON array text without fence marker the sanitizer returns
    what [JSON.parse] gives for the text itself. *)
Theorem cleanAiResponse_roundtrip_without_fence (w : world) (raw : string)
    (v : json) (st : state) :
  Json.parse raw = Some v -> isArray v = true ->
  includes raw "```" = false ->
  cleanAiResponse w raw st = (Return v, st).
Proof.
  intros H A F. unfold cleanAiResponse.
  now rewrite (parse_normalizedPayload_without_fence raw v H A F).
Qed.

Lemma cleanAiResponse_roundtrip_without_fence_witness :
  cleanAiResponse Samples.allFail
    (quoted "  [ {'question':'Why [brackets]?',
   'answer':'A\'quoted\' one'} ]
") initial
  = (Return (JArr [interviewQuestion "Why [brackets]?"
                                      (quoted "A'quoted' one")]), initial).
Proof.
  apply cleanAiResponse_roundtrip_without_fence; reflexivity.
Defined.

End SanitizerFacts.

(** ** The model catalogue and the candidate sweep *)

Module CatalogueFacts.

Import Js Async Json Scripts Form Orchestration Observations JsFacts ScriptsFacts.
Import TasksFacts SchedulerFacts OrchestrationFacts.


Lemma listAvailableModels_no_throw (w : world) (st st' : state) (e : exn) :
  listAvailableModels w st <> (Throw e, st').
Proof.
  unfold listAvailableModels.
  destruct (negb (truthy (apiKey w))); [discriminate |].
  unfold bind, await.
  destruct (fetchModels w (fetches st)) as [[d r] |]; [| discriminate].
  destruct r; discriminate.
Qed.

(** X1: the discovery of the available models never throws: a refused
    request, a response that is not ok and an unreadable body all give the
    empty list.  Without a credential it returns the empty list at once and
    sends nothing; with one, a response that is not ok gives the empty list
    after the one request. *)
Theorem listAvailableModels_never_throws (w : world) (st : state) :
  (forall e st', listAvailableModels w st <> (Throw e, st'))
  /\ (truthy (apiKey w) = false -> listAvailableModels w st = (Return [], st))
  /\ (forall d r,
        truthy (apiKey w) = true ->
        fetchModels w (fetches st) = Some (d, r) -> okResult r = false ->
        listAvailableModels w st = (Return [], tick d (countFetch st))).
Proof.
  split; [| unfold listAvailableModels; split].
  - intros e st'. apply listAvailableModels_no_throw.
  - intros ->. reflexivity.
  - intros d r -> F K. unfold bind, await. simpl. rewrite F.
    destruct r; try reflexivity. discriminate K.
Qed.

Lemma listAvailableModels_never_throws_witness :
  listAvailableModels Samples.allFail initial
  = (Return [], tick 50 (countFetch initial)).
Proof.
  exact (proj2 (proj2 (listAvailableModels_never_throws Samples.allFail
                         initial))
           50%N FetchNotOk eq_refl eq_refl eq_refl).
Defined.

(** X2: the identifiers read off a discovery response are exactly the
    names of the listed models that support [generateContent], with the
    first [models/] removed, that are not empty after the removal. *)
Theorem availableOf_members (models : option (list modelDescriptor)) (x : string) :
  In x (availableOf models)
  <-> x <> ""
      /\ exists d n,
           In d (modelsOf models) /\ supportsGenerateContent d = true
           /\ name d = Some n /\ x = replaceFirst "models/" "" n.
Proof.
  unfold availableOf. fold (modelsOf models).
  rewrite in_flat_map. split.
  - intros (o & Ho & Hx). apply in_map_iff in Ho.
    destruct Ho as (d & <- & Hd). apply filter_In in Hd. destruct Hd as [Hd S].
    destruct (name d) as [n |] eqn:N; simpl in Hx; [| contradiction].
    destruct (isEmpty (replaceFirst "models/" "" n)) eqn:E; simpl in Hx;
      [contradiction |].
    destruct Hx as [<- | []]. split.
    + intros X. rewrite X in E. discriminate E.
    + exists d, n. auto.
  - intros (Hne & d & n & Hd & S & N & ->).
    exists (Some (replaceFirst "models/" "" n)). split.
    + apply in_map_iff. exists d. rewrite N. split; [reflexivity |].
      apply filter_In. auto.
    + simpl. destruct (replaceFirst "models/" "" n); [congruence |].
      simpl. auto.
Qed.

Lemma setSpread_ext (l : list string) :
  forall seen seen',
    (forall x, In x seen <-> In x seen') -> setSpread seen l = setSpread seen' l.
Proof.
  induction l as [| a l IH]; intros seen seen' H; [reflexivity |]. simpl.
  assert (E : existsb (String.eqb a) seen = existsb (String.eqb a) seen').
  { apply eq_true_iff_eq. rewrite !seen_iff. apply H. }
  rewrite E. destruct (existsb (String.eqb a) seen').
  - now apply IH.
  - f_equal. apply IH. intros x. simpl. rewrite H. tauto.
Qed.

Lemma setSpread_app (a b : list string) :
  forall seen,
    setSpread seen (a ++ b) = setSpread seen a ++ setSpread (rev a ++ seen) b.
Proof.
  induction a as [| x a IH]; intros seen; [reflexivity |]. simpl.
  destruct (existsb (String.eqb x) seen) eqn:E.
  - rewrite IH. f_equal. apply setSpread_ext. intros y.
    apply seen_iff in E. rewrite !in_app_iff. simpl.
    split; [tauto |]. intros [[H | [-> | []]] | H]; tauto.
  - simpl. rewrite IH. do 2 f_equal. apply setSpread_ext. intros y.
    rewrite !in_app_iff. simpl. tauto.
Qed.

(** X3: with an empty cache the candidate list starts with the configured
    and curated identifiers, in their own order, whatever the discovery
    returned; the discovered identifiers that are not among them follow,
    and an empty discovery adds nothing. *)
Theorem getCandidateModels_static_first (w : world) (st st0 : state)
    (available : list string) :
  cachedModelList st = None ->
  listAvailableModels w st = (Return available, st0) ->
  let static := uniq (map normalizeModelId (preferredModels (configuredModel w))) in
  exists extra st1,
    getCandidateModels w st = (Return (static ++ extra), st1)
    /\ (forall x, In x extra <->
                  In x (map normalizeModelId available) /\ ~ In x static)
    /\ (available = [] -> extra = []).
Proof.
  intros Hc Hl static.
  rewrite (getCandidateModels_fresh w st st0 available Hc Hl).
  rewrite map_app. unfold uniq. rewrite setSpread_app.
  eexists. eexists. split; [reflexivity |]. split.
  - intros x. rewrite setSpread_In, in_app_iff, <- in_rev.
    unfold static, uniq. rewrite setSpread_In. simpl. tauto.
  - intros ->. reflexivity.
Qed.

Lemma getCandidateModels_static_first_witness :
  exists extra st1,
    getCandidateModels Samples.thirdSucceeds initial
    = (Return (uniq (map normalizeModelId (preferredModels (Some "pro3")))
               ++ extra), st1)
    /\ (forall x,
          In x extra <->
          In x (map normalizeModelId ["gemini-2.5-pro"; "gemini-3-new"])
          /\ ~ In x (uniq (map normalizeModelId
                             (preferredModels (Some "pro3")))))
    /\ (["gemini-2.5-pro"; "gemini-3-new"] = [] -> extra = []).
Proof.
  exact (getCandidateModels_static_first Samples.thirdSucceeds initial
           (tick 120 (countFetch initial)) ["gemini-2.5-pro"; "gemini-3-new"]
           eq_refl eq_refl).
Defined.

Lemma curated_normal (m : string) :
  In m curatedModels -> normalizeModelId m = m.
Proof. simpl. intuition (subst; reflexivity). Qed.

Lemma curated_NoDup : NoDup curatedModels.
Proof.
  unfold curatedModels.
  repeat (constructor; [simpl; intuition discriminate |]). constructor.
Qed.

(** X4: a candidate list computed from an empty cache holds every curated
    identifier, so it has at least nine entries, whatever is configured
    and whatever the discovery returned. *)
Theorem getCandidateModels_offers_curated (w : world) (st st1 : state)
    (l : list string) :
  cachedModelList st = None ->
  getCandidateModels w st = (Return l, st1) ->
  (forall m, In m curatedModels -> In m l) /\ 9 <= List.length l.
Proof.
  intros Hc H.
  assert (I : forall m, In m curatedModels -> In m l).
  { unfold getCandidateModels in H. rewrite Hc in H. unfold bind in H.
    destruct (listAvailableModels w st) as [[available | e |] st0];
      try discriminate H.
    rewrite ordered_candidates in H. injection H as <- _.
    intros m Hm. unfold uniq. rewrite setSpread_In. split; [| tauto].
    rewrite <- (curated_normal m Hm). apply in_map, in_or_app. left.
    unfold preferredModels. apply filter_In. split.
    - apply in_or_app. now right.
    - simpl in Hm. intuition (subst; reflexivity). }
  split; [exact I |].
  change 9 with (List.length curatedModels).
  apply NoDup_incl_length; [apply curated_NoDup | exact I].
Qed.


Lemma getCandidateModels_offers_curated_witness :
  (forall m, In m curatedModels ->
             In m (uniq (map normalizeModelId
                           (preferredModels None ++ []))))
  /\ 9 <= List.length (uniq (map normalizeModelId (preferredModels None ++ []))).
Proof.
  exact (getCandidateModels_offers_curated Samples.allFail initial
           (setCache (uniq (map normalizeModelId (preferredModels None ++ [])))
              (tick 50 (countFetch initial)))
           _ eq_refl eq_refl).
Defined.

Lemma keepsCache_ret {A} (a : A) : keepsCache (ret a).
Proof. intros st l r st' H [= _ <-]. auto. Qed.

Lemma keepsCache_throw {A} (e : exn) : keepsCache (@throw A e).
Proof. intros st l r st' H [= _ <-]. auto. Qed.

Lemma keepsCache_await {A} (s : settles A) : keepsCache (await s).
Proof.
  intros st l r st' H. unfold await.
  destruct s as [[d a] |]; intros [= _ <-]; auto.
Qed.

Lemma keepsCache_bind {A B} (m : M A) (k : A -> M B) :
  keepsCache m -> (forall a, keepsCache (k a)) -> keepsCache (bind m k).
Proof.
  intros Hm Hk st l r st' H. unfold bind.
  destruct (m st) as [[a | e |] st1] eqn:E; intros R;
    destruct (Hm _ _ _ _ H E) as [H1 F1].
  - destruct (Hk a _ _ _ _ H1 R) as [H2 F2]. split; congruence.
  - injection R as _ <-. auto.
  - injection R as _ <-. auto.
Qed.

Create HintDb cache.
#[local] Hint Resolve keepsCache_ret keepsCache_throw keepsCache_await : cache.

Section Cache.

Variable w : world.

Lemma keepsCache_getCandidateModels : keepsCache (getCandidateModels w).
Proof.
  intros st l r st' H. unfold getCandidateModels. rewrite H.
  intros [= _ <-]. auto.
Qed.

Lemma keepsCache_requestGeneration (modelId prompt : string) :
  keepsCache (requestGeneration w modelId prompt).
Proof.
  intros st l r st' H R. unfold requestGeneration in R.
  exact (keepsCache_await _ (recordAttempt modelId st) l r st' H R).
Qed.

Lemma keepsCache_sweep (prompt : string) (candidates : list string) :
  forall lastError, keepsCache (sweep w prompt candidates lastError).
Proof.
  induction candidates as [| c cs IH]; intros lastError; simpl.
  - auto with cache.
  - apply keepsCache_bind; [apply keepsCache_requestGeneration |].
    intros [e | text]; auto with cache.
Qed.

Lemma keepsCache_sendMessage (prompt : string) :
  keepsCache (sendMessage w prompt).
Proof.
  unfold sendMessage. destruct (negb (truthy (apiKey w))); auto with cache.
  apply keepsCache_bind; [apply keepsCache_getCandidateModels |].
  intros cs. apply keepsCache_bind; [apply keepsCache_sweep |].
  intros [t | e]; auto with cache.
Qed.

End Cache.



Lemma fetchesAtMost_ret {A} (a : A) : fetchesAtMost 0 (ret a).
Proof. intros st r st' [= _ <-]. lia. Qed.

Lemma fetchesAtMost_throw {A} (e : exn) : fetchesAtMost 0 (@throw A e).
Proof. intros st r st' [= _ <-]. lia. Qed.

Lemma fetchesAtMost_await {A} (s : settles A) : fetchesAtMost 0 (await s).
Proof.
  intros st r st'. unfold await.
  destruct s as [[d a] |]; intros [= _ <-]; simpl; lia.
Qed.

Lemma fetchesAtMost_weaken {A} (n n' : nat) (m : M A) :
  n <= n' -> fetchesAtMost n m -> fetchesAtMost n' m.
Proof. intros L H st r st' E. specialize (H _ _ _ E). lia. Qed.

Lemma fetchesAtMost_bind {A B} (n1 n2 : nat) (m : M A) (k : A -> M B) :
  fetchesAtMost n1 m -> (forall a, fetchesAtMost n2 (k a)) ->
  fetchesAtMost (n1 + n2) (bind m k).
Proof.
  intros Hm Hk st r st'. unfold bind.
  destruct (m st) as [[a | e |] st1] eqn:E; intros R;
    pose proof (Hm _ _ _ E) as H1.
  - pose proof (Hk a _ _ _ R). lia.
  - injection R as _ <-. lia.
  - injection R as _ <-. lia.
Qed.

Create HintDb fetch.
#[local] Hint Resolve fetchesAtMost_ret fetchesAtMost_throw fetchesAtMost_await
  : fetch.

Section Budget.

Variable w : world.

Lemma fetchesAtMost_listAvailableModels :
  fetchesAtMost 1 (listAvailableModels w).
Proof.
  intros st r st' H. unfold listAvailableModels in H.
  destruct (negb (truthy (apiKey w))).
  - injection H as _ <-. lia.
  - assert (Q : fetchesAtMost 0
                  (r0 <- await (fetchModels w (fetches st)) ;;
                   match r0 with
                   | FetchRejects | FetchNotOk | FetchBadJson => ret []
                   | FetchOk models => ret (availableOf models)
                   end)).
    { apply (fetchesAtMost_bind 0 0); [auto with fetch |].
      intros []; auto with fetch. }
    specialize (Q _ _ _ H). simpl in Q. lia.
Qed.

Lemma fetchesAtMost_getCandidateModels :
  fetchesAtMost 1 (getCandidateModels w).
Proof.
  intros st r st'. unfold getCandidateModels.
  destruct (cachedModelList st); [intros [= _ <-]; lia |].
  apply (fetchesAtMost_bind 1 0); [apply fetchesAtMost_listAvailableModels |].
  intros a st0 r0 st0' [= _ <-]. simpl. lia.
Qed.

Lemma fetchesAtMost_sweep (prompt : string) (candidates : list string) :
  forall lastError, fetchesAtMost 0 (sweep w prompt candidates lastError).
Proof.
  induction candidates as [| c cs IH]; intros lastError; simpl.
  - auto with fetch.
  - apply (fetchesAtMost_bind 0 0).
    + intros st r st' H. unfold requestGeneration in H.
      pose proof (fetchesAtMost_await _ _ _ _ H) as K. simpl in K. exact K.
    + intros [e | text]; auto with fetch.
Qed.

Lemma fetchesAtMost_sendMessage (prompt : string) :
  fetchesAtMost 1 (sendMessage w prompt).
Proof.
  unfold sendMessage. destruct (negb (truthy (apiKey w))).
  - apply (fetchesAtMost_weaken 0); [lia | auto with fetch].
  - apply (fetchesAtMost_bind 1 0); [apply fetchesAtMost_getCandidateModels |].
    intros cs. apply (fetchesAtMost_bind 0 0); [apply fetchesAtMost_sweep |].
    intros [t | e]; auto with fetch.
Qed.

End Budget.


(** X6: [sendMessage] makes at most one discovery request, and the
    generation block, with its retry, at most two. *)
Theorem fetch_budget (w : world) (data : FormData) (prompt : string)
    (st : state) :
  fetches (snd (sendMessage w prompt st)) <= fetches st + 1
  /\ fetches (snd (generateQuestions w data st)) <= fetches st + 2.
Proof.
  split.
  - destruct (sendMessage w prompt st) as [r st'] eqn:E.
    apply (fetchesAtMost_sendMessage w prompt) in E. simpl. lia.
  - rewrite generateQuestions_generation. cbn [snd].
    destruct (generation_result w data st idle I)
      as (q & st' & bg' & -> & _ & _ & F & _).
    cbn [fst snd]. lia.
Qed.

Section SweepShape.

Variable w : world.
Variable prompt : string.

Lemma sweep_prefix (candidates : list string) :
  forall lastError st,
    exists k,
      k <= List.length candidates
      /\ attempts (snd (sweep w prompt candidates lastError st))
         = attempts st ++ map normalizeModelId (firstn k candidates).
Proof.
  induction candidates as [| c cs IH]; intros lastError st.
  - exists 0. simpl. now rewrite app_nil_r.
  - simpl sweep. unfold bind, requestGeneration, await.
    destruct (generate w (List.length (attempts st)) (normalizeModelId c) prompt)
      as [[d g] |].
    + destruct g as [e | text].
      * destruct (IH (Some e) (tick d (recordAttempt (normalizeModelId c) st)))
          as (k & L & H).
        exists (S k). split; [simpl; lia |]. rewrite H. simpl.
        now rewrite <- app_assoc.
      * exists 1. split; [simpl; lia |]. simpl. now destruct cs.
    + exists 1. split; [simpl; lia |]. simpl. now destruct cs.
Qed.

Lemma sweep_never_throws (candidates : list string) :
  forall lastError st e st',
    sweep w prompt candidates lastError st <> (Throw e, st').
Proof.
  induction candidates as [| c cs IH]; intros lastError st e st';
    [discriminate |].
  simpl sweep. unfold bind, requestGeneration, await.
  destruct (generate w (List.length (attempts st)) (normalizeModelId c) prompt)
    as [[d g] |]; [| discriminate].
  destruct g as [e' | text]; [apply IH | discriminate].
Qed.

Lemma sweep_exhausted (candidates : list string) :
  forall lastError st le st',
    sweep w prompt candidates lastError st = (Return (inr le), st') ->
    attempts st' = attempts st ++ map normalizeModelId candidates.
Proof.
  induction candidates as [| c cs IH]; intros lastError st le st' H.
  - simpl in H. unfold ret in H. injection H as _ <-. now rewrite app_nil_r.
  - simpl sweep in H. unfold bind, requestGeneration, await in H.
    destruct (generate w (List.length (attempts st)) (normalizeModelId c) prompt)
      as [[d g] |]; [| discriminate H].
    destruct g as [e' | text]; [| discriminate H].
    apply IH in H. rewrite H. simpl. now rewrite <- app_assoc.
Qed.

End SweepShape.

(** X7: with a cached catalogue the generation requests [sendMessage]
    issues are the normalized identifiers of a prefix of the catalogue, in
    catalogue order, one request for each entry of the prefix. *)
Theorem sendMessage_requests_prefix (w : world) (prompt : string)
    (st : state) (candidates : list string) :
  cachedModelList st = Some candidates ->
  exists k,
    k <= List.length candidates
    /\ attempts (snd (sendMessage w prompt st))
       = attempts st ++ map normalizeModelId (firstn k candidates).
Proof.
  intros H. unfold sendMessage. destruct (negb (truthy (apiKey w))).
  - exists 0. simpl. split; [lia | now rewrite app_nil_r].
  - unfold bind at 1. rewrite (getCandidateModels_cached w st candidates H).
    destruct (sweep_prefix w prompt candidates None st) as (k & L & A).
    exists k. split; [exact L |]. rewrite <- A. unfold bind.
    destruct (sweep w prompt candidates None st) as [[[t | e] | e |] st'];
      reflexivity.
Qed.

Lemma sendMessage_requests_prefix_witness :
  exists k,
    k <= 3
    /\ attempts (snd (sendMessage Samples.firstHangs "p" Samples.threeCandidates))
       = map normalizeModelId (firstn k ["model-a"; "model-b"; "model-c"]).
Proof.
  exact (sendMessage_requests_prefix Samples.firstHangs "p"
           Samples.threeCandidates _ eq_refl).
Defined.

Lemma getCandidateModels_never_throws (w : world) (st : state) (e : exn)
    (st' : state) :
  getCandidateModels w st <> (Throw e, st').
Proof.
  unfold getCandidateModels. destruct (cachedModelList st); [discriminate |].
  unfold bind.
  destruct (listAvailableModels w st) as [[a | e0 |] st0] eqn:E;
    try discriminate.
  exfalso. exact (listAvailableModels_no_throw w st _ _ E).
Qed.

Lemma getCandidateModels_caches (w : world) (st st1 : state)
    (l : list string) :
  getCandidateModels w st = (Return l, st1) -> cachedModelList st1 = Some l.
Proof.
  unfold getCandidateModels.
  destruct (cachedModelList st) as [l0 |] eqn:C.
  - intros [= <- <-]. exact C.
  - unfold bind. destruct (listAvailableModels w st) as [[a | e0 |] st0];
      try discriminate.
    intros [= <- <-]. reflexivity.
Qed.

(** X8: [sendMessage] throws two errors only: the missing-credential
    error, with the state untouched, and the aggregate error, after every
    candidate of the catalogue was requested.  What a single request throws
    never leaves [sendMessage] as it is. *)
Theorem sendMessage_throws_two_errors (w : world) (prompt : string)
    (st st' : state) (e : exn) :
  sendMessage w prompt st = (Throw e, st') ->
  (truthy (apiKey w) = false
   /\ e = JsError "Missing VITE_GEMINI_API_KEY" /\ st' = st)
  \/ (exists candidates lastError st1,
        getCandidateModels w st = (Return candidates, st1)
        /\ e = JsError (aggregateMessage candidates lastError)
        /\ attempts st' = attempts st1 ++ map normalizeModelId candidates).
Proof.
  unfold sendMessage. destruct (truthy (apiKey w)).
  - change (negb true) with false. cbv iota beta. unfold bind.
    intros H. right.
    destruct (getCandidateModels w st) as [[cs | e0 |] st1] eqn:G.
    + destruct (sweep w prompt cs None st1) as [[[t | le] | e1 |] st2] eqn:S;
        try discriminate H.
      * unfold throw in H. injection H as <- <-. exists cs, le, st1.
        split; [reflexivity |]. split; [reflexivity |].
        eapply sweep_exhausted. eassumption.
      * exfalso. exact (sweep_never_throws _ _ _ _ _ _ _ S).
    + exfalso. exact (getCandidateModels_never_throws _ _ _ _ G).
    + discriminate H.
  - intros [= <- <-]. left. auto.
Qed.

Lemma sendMessage_throws_two_errors_witness :
  (truthy (apiKey Samples.allFail) = false
   /\ JsError "Gemini failed for models: model-a, model-b, model-c. quota exceeded"
      = JsError "Missing VITE_GEMINI_API_KEY"
   /\ snd (sendMessage Samples.allFail "p" Samples.threeCandidates)
      = Samples.threeCandidates)
  \/ (exists candidates lastError st1,
        getCandidateModels Samples.allFail Samples.threeCandidates
        = (Return candidates, st1)
        /\ JsError "Gemini failed for models: model-a, model-b, model-c. quota exceeded"
           = JsError (aggregateMessage candidates lastError)
        /\ attempts (snd (sendMessage Samples.allFail "p"
                            Samples.threeCandidates))
           = attempts st1 ++ map normalizeModelId candidates).
Proof.
  exact (sendMessage_throws_two_errors Samples.allFail "p"
           Samples.threeCandidates
           (snd (sendMessage Samples.allFail "p" Samples.threeCandidates))
           (JsError "Gemini failed for models: model-a, model-b, model-c. quota exceeded")
           eq_refl).
Defined.

End CatalogueFacts.

(** ** The bracket scanner *)

Module ScannerFacts.

Import Js Async Json Scripts Form Observations SanitizerFacts.


Lemma scanArray_locate (text rest : string) :
  forall i start depth inS isE,
    scanArray text rest i start depth inS isE
    = option_map (fun p => slice (fst p) (snd p) text)
                 (locate rest i start depth inS isE).
Proof.
  induction rest as [| c r IH]; intros; [reflexivity |]. simpl.
  repeat match goal with
         | |- context [if ?b then _ else _] => destruct b
         end; try apply IH; reflexivity.
Qed.

Lemma locate_step (rest : string) (c : ascii) (i : nat) (start : Z)
    (depth : nat) (inS isE : bool) :
  locate (String c rest) i start depth inS isE
  = let continue := fun start' depth' =>
      locate rest (S i) start' depth' (scanIn inS isE c) (scanEsc inS isE c) in
    if (scanDelta inS c =? 1)%Z then
      continue (if (depth =? 0)%nat then Z.of_nat i else start) (depth + 1)
    else if (scanDelta inS c =? -1)%Z && (0 <? depth)%nat then
      if (depth - 1 =? 0)%nat && (0 <=? start)%Z
      then Some (Z.to_nat start, i + 1)
      else continue start (depth - 1)
    else continue start depth.
Proof.
  unfold scanDelta, scanIn, scanEsc. simpl.
  destruct inS, isE; try reflexivity.
  - destruct (Ascii.eqb c "\"); [reflexivity |].
    destruct (Ascii.eqb c dquote); reflexivity.
  - destruct (Ascii.eqb c dquote); [reflexivity |].
    destruct (Ascii.eqb c "["); [reflexivity |].
    destruct (Ascii.eqb c "]"); [| reflexivity]. simpl.
    destruct (0 <? depth)%nat; reflexivity.
  - destruct (Ascii.eqb c dquote); [reflexivity |].
    destruct (Ascii.eqb c "["); [reflexivity |].
    destruct (Ascii.eqb c "]"); [| reflexivity]. simpl.
    destruct (0 <? depth)%nat; reflexivity.
Qed.

(** strings *)
Lemma append_assoc (a b c : string) : ((a ++ b) ++ c = a ++ (b ++ c))%string.
Proof. induction a as [| x a IH]; simpl; [reflexivity | now rewrite IH]. Qed.

Lemma append_nil_r (a : string) : (a ++ "")%string = a.
Proof. induction a as [| x a IH]; simpl; [reflexivity | now rewrite IH]. Qed.

Lemma length_append (a b : string) :
  String.length (a ++ b) = String.length a + String.length b.
Proof. induction a as [| x a IH]; simpl; [reflexivity | now rewrite IH]. Qed.

Lemma substring_skip (pre s : string) (a m : nat) :
  substring (String.length pre + a) m (pre ++ s) = substring a m s.
Proof. induction pre as [| x pre IH]; simpl; [reflexivity | exact IH]. Qed.

Lemma substring_app_l (s post : string) :
  forall a m, a + m <= String.length s ->
              substring a m (s ++ post) = substring a m s.
Proof.
  induction s as [| x s IH]; intros a m L; simpl in L.
  - assert (a = 0) by lia. assert (m = 0) by lia. subst. simpl.
    now destruct post.
  - destruct a as [| a]; simpl.
    + destruct m as [| m]; [reflexivity |]. f_equal. apply IH. lia.
    + apply IH. lia.
Qed.

Lemma length_substring (s : string) :
  forall a m, a + m <= String.length s -> String.length (substring a m s) = m.
Proof.
  induction s as [| x s IH]; intros a m L; simpl in L.
  - assert (a = 0) by lia. assert (m = 0) by lia. now subst.
  - destruct a as [| a]; simpl.
    + destruct m as [| m]; [reflexivity |]. simpl. f_equal. apply IH. lia.
    + apply IH. lia.
Qed.

Lemma substring_drop (s : string) :
  forall a m, substring a m s = substring 0 m (drop a s).
Proof.
  induction s as [| x s IH]; intros a m.
  - destruct a, m; reflexivity.
  - destruct a as [| a]; [reflexivity |]. simpl substring at 1.
    rewrite IH. reflexivity.
Qed.

Lemma substring_split (s : string) :
  forall a m, a + m <= String.length s ->
              s = (substring 0 a s ++ substring a m s ++ drop (a + m) s)%string.
Proof.
  induction s as [| x s IH]; intros a m L; simpl in L.
  - assert (a = 0) by lia. assert (m = 0) by lia. now subst.
  - destruct a as [| a].
    + destruct m as [| m]; [reflexivity |]. simpl. f_equal.
      assert (E : s = (substring 0 0 s ++ substring 0 m s ++ drop (0 + m) s)%string)
        by (apply IH; lia).
      replace (substring 0 0 s) with "" in E by (now destruct s). exact E.
    + simpl. f_equal. apply IH. lia.
Qed.

(** ** Where the scanner cuts *)

Lemma locate_bounds (rest : string) :
  forall i start depth inS isE s e,
    (start < Z.of_nat i)%Z ->
    locate rest i start depth inS isE = Some (s, e) ->
    s < e /\ i < e <= i + String.length rest
    /\ ((0 < depth)%nat -> (0 <= start)%Z -> s = Z.to_nat start)
    /\ (depth = 0 -> i <= s).
Proof.
  induction rest as [| c r IH]; intros i start depth inS isE s e B H;
    [discriminate H |].
  rewrite locate_step in H. cbv zeta in H. simpl String.length.
  destruct (scanDelta inS c =? 1)%Z.
  - destruct (depth =? 0)%nat eqn:D.
    + apply Nat.eqb_eq in D. subst depth.
      apply IH in H; [| lia]. destruct H as (H1 & H2 & H3 & _).
      assert (s = Z.to_nat (Z.of_nat i)) by (apply H3; lia).
      repeat split; lia.
    + apply Nat.eqb_neq in D.
      apply IH in H; [| lia]. destruct H as (H1 & H2 & H3 & _).
      repeat split; lia.
  - destruct ((scanDelta inS c =? -1)%Z && (0 <? depth)%nat) eqn:D2.
    + apply andb_true_iff in D2. destruct D2 as [_ D3]. apply Nat.ltb_lt in D3.
      destruct ((depth - 1 =? 0)%nat && (0 <=? start)%Z) eqn:D4.
      * apply andb_true_iff in D4. destruct D4 as [_ D5]. apply Z.leb_le in D5.
        injection H as <- <-. repeat split; lia.
      * apply IH in H; [| lia]. destruct H as (H1 & H2 & H3 & H4).
        apply andb_false_iff in D4.
        rewrite Nat.eqb_neq, Z.leb_gt in D4.
        repeat split; lia.
    + apply IH in H; [| lia]. destruct H as (H1 & H2 & H3 & H4).
      repeat split; lia.
Qed.

Lemma locate_shift (n : nat) (rest : string) :
  forall i start depth inS isE,
    locate rest (n + i) (shiftStart n start) depth inS isE
    = option_map (fun p => (n + fst p, n + snd p))
                 (locate rest i start depth inS isE).
Proof.
  induction rest as [| c r IH]; intros i start depth inS isE; [reflexivity |].
  rewrite !locate_step. cbv zeta.
  replace (S (n + i)) with (n + S i) by lia.
  destruct (scanDelta inS c =? 1)%Z.
  - destruct (depth =? 0)%nat.
    + replace (Z.of_nat (n + i)) with (shiftStart n (Z.of_nat i)); [apply IH |].
      unfold shiftStart. destruct (0 <=? Z.of_nat i)%Z eqn:E; [lia |].
      apply Z.leb_gt in E. lia.
    + apply IH.
  - destruct ((scanDelta inS c =? -1)%Z && (0 <? depth)%nat); [| apply IH].
    assert (E : (0 <=? shiftStart n start)%Z = (0 <=? start)%Z).
    { unfold shiftStart. destruct (0 <=? start)%Z eqn:E; [| exact E].
      apply Z.leb_le in E. apply Z.leb_le. lia. }
    rewrite E.
    destruct ((depth - 1 =? 0)%nat && (0 <=? start)%Z) eqn:D; [| apply IH].
    apply andb_true_iff in D. destruct D as [_ D]. apply Z.leb_le in D.
    simpl. unfold shiftStart. rewrite (proj2 (Z.leb_le _ _) D).
    do 2 f_equal; lia.
Qed.

Lemma locate_app (post rest : string) :
  forall i start depth inS isE p,
    locate rest i start depth inS isE = Some p ->
    locate (rest ++ post) i start depth inS isE = Some p.
Proof.
  induction rest as [| c r IH]; intros i start depth inS isE p H;
    [discriminate H |].
  simpl append. rewrite locate_step in *. cbv zeta in *.
  destruct (scanDelta inS c =? 1)%Z; [now apply IH |].
  destruct ((scanDelta inS c =? -1)%Z && (0 <? depth)%nat); [| now apply IH].
  destruct ((depth - 1 =? 0)%nat && (0 <=? start)%Z); [exact H | now apply IH].
Qed.

Lemma locate_truncate (rest : string) :
  forall i start depth inS isE s e,
    (start < Z.of_nat i)%Z ->
    locate rest i start depth inS isE = Some (s, e) ->
    locate (substring 0 (e - i) rest) i start depth inS isE = Some (s, e).
Proof.
  induction rest as [| c r IH]; intros i start depth inS isE s e B H;
    [discriminate H |].
  pose proof (locate_bounds _ _ _ _ _ _ _ _ B H) as (_ & L & _).
  destruct (e - i) as [| m] eqn:M; [lia |]. simpl substring.
  rewrite locate_step in *. cbv zeta in *.
  assert (K : forall start' depth' inS' isE',
             (start' < Z.of_nat (S i))%Z ->
             locate r (S i) start' depth' inS' isE' = Some (s, e) ->
             locate (substring 0 m r) (S i) start' depth' inS' isE' = Some (s, e)).
  { intros start' depth' inS' isE' B' H'.
    replace m with (e - S i) by lia. now apply IH. }
  destruct (scanDelta inS c =? 1)%Z.
  - apply K; [| exact H]. destruct (depth =? 0)%nat; lia.
  - destruct ((scanDelta inS c =? -1)%Z && (0 <? depth)%nat).
    + destruct ((depth - 1 =? 0)%nat && (0 <=? start)%Z); [exact H |].
      apply K; [lia | exact H].
    + apply K; [lia | exact H].
Qed.

(** The scanner ends on a closing bracket. *)
Lemma locate_closes (rest : string) :
  forall i start depth inS isE s,
    locate rest i start depth inS isE = Some (s, i + String.length rest) ->
    (start < Z.of_nat i)%Z ->
    exists r', rest = (r' ++ "]")%string.
Proof.
  induction rest as [| c r IH]; intros i start depth inS isE s H B;
    [discriminate H |].
  rewrite locate_step in H. cbv zeta in H. simpl String.length in H.
  assert (K : forall start' depth' inS' isE',
             (start' < Z.of_nat (S i))%Z ->
             locate r (S i) start' depth' inS' isE'
             = Some (s, i + S (String.length r)) ->
             exists r', String c r = (r' ++ "]")%string).
  { intros start' depth' inS' isE' B' H'.
    replace (i + S (String.length r)) with (S i + String.length r) in H' by lia.
    destruct (IH _ _ _ _ _ _ H' B') as (r' & ->). now exists (String c r'). }
  destruct (scanDelta inS c =? 1)%Z.
  - eapply K; [| exact H]. destruct (depth =? 0)%nat; lia.
  - destruct ((scanDelta inS c =? -1)%Z && (0 <? depth)%nat) eqn:D.
    + destruct ((depth - 1 =? 0)%nat && (0 <=? start)%Z).
      * injection H as _ H. assert (String.length r = 0) by lia.
        destruct r; [| discriminate]. exists "".
        apply andb_true_iff in D. destruct D as [D _].
        unfold scanDelta in D. destruct inS; [discriminate D |].
        destruct (Ascii.eqb c dquote); [discriminate D |].
        destruct (Ascii.eqb c "["); [discriminate D |].
        destruct (Ascii.eqb_spec c "]") as [-> | _]; [reflexivity |].
        discriminate D.
      * eapply K; [| exact H]. lia.
    + eapply K; [| exact H]. lia.
Qed.

(** Up to the opening bracket the scanner only skips. *)
Lemma locate_opens (rest : string) :
  forall i inS isE s e,
    (inS = false -> isE = false) ->
    locate rest i (-1)%Z 0 inS isE = Some (s, e) ->
    i <= s
    /\ locate (drop (s - i) rest) s (-1)%Z 0 false false = Some (s, e)
    /\ exists tail, drop (s - i) rest = String "[" tail.
Proof.
  induction rest as [| c r IH]; intros i inS isE s e V H;
    [discriminate H |].
  pose proof H as H0.
  rewrite locate_step in H. cbv zeta in H.
  destruct (scanDelta inS c =? 1)%Z eqn:D1.
  - simpl in H.
    pose proof (locate_bounds r (S i) (Z.of_nat i) 1 _ _ s e ltac:(lia) H)
      as (_ & _ & P & _).
    assert (s = i) by (rewrite (P ltac:(lia) ltac:(lia)); lia). subst s.
    rewrite Nat.sub_diag. simpl drop.
    unfold scanDelta in D1. destruct inS; [discriminate D1 |].
    rewrite (V eq_refl) in H0.
    destruct (Ascii.eqb c dquote); [discriminate D1 |].
    destruct (Ascii.eqb_spec c "[") as [-> | _]; [| now destruct (Ascii.eqb c "]")].
    split; [lia |]. split; [exact H0 | now exists r].
  - assert (H' : locate r (S i) (-1)%Z 0 (scanIn inS isE c) (scanEsc inS isE c)
                 = Some (s, e)).
    { destruct ((scanDelta inS c =? -1)%Z && (0 <? 0)%nat) eqn:D2; [| exact H].
      rewrite andb_false_r in D2. discriminate D2. }
    assert (V' : scanIn inS isE c = false -> scanEsc inS isE c = false).
    { unfold scanIn, scanEsc. destruct inS; [| intros _; now apply V].
      destruct isE; [reflexivity |]. now destruct (Ascii.eqb c "\"). }
    destruct (IH _ _ _ _ _ V' H') as (L & Q & T).
    replace (s - i) with (S (s - S i)) by lia. simpl drop.
    split; [lia |]. split; assumption.
Qed.

Lemma extract_located (text out : string) :
  extractFirstJsonArray text = Some out ->
  exists s e,
    locate text 0 (-1)%Z 0 false false = Some (s, e)
    /\ out = substring s (e - s) text
    /\ s < e <= String.length text
    /\ locate out 0 (-1)%Z 0 false false = Some (0, e - s)
    /\ String.length out = e - s
    /\ exists tail, drop s text = String "[" tail.
Proof.
  unfold extractFirstJsonArray. rewrite scanArray_locate.
  destruct (locate text 0 (-1)%Z 0 false false) as [[s e] |] eqn:L;
    [| discriminate].
  simpl. intros [= <-]. exists s, e.
  pose proof (locate_bounds text 0 (-1)%Z 0 false false s e ltac:(lia) L)
    as (B1 & B2 & _).
  destruct (locate_opens _ _ _ _ _ _ (fun _ => eq_refl) L) as (_ & O & T).
  rewrite Nat.sub_0_r in O, T.
  pose proof (locate_shift s (drop s text) 0 (-1)%Z 0 false false) as S.
  rewrite Nat.add_0_r in S. change (shiftStart s (-1)) with (-1)%Z in S.
  rewrite O in S.
  destruct (locate (drop s text) 0 (-1)%Z 0 false false) as [[s' e'] |] eqn:L';
    [| discriminate S].
  simpl in S. injection S as S1 S2.
  assert (s' = 0) by lia. assert (e' = e - s) by lia. subst s' e'.
  pose proof (locate_truncate (drop s text) 0 (-1)%Z 0 false false 0 (e - s)
                ltac:(lia) L') as Tr.
  rewrite Nat.sub_0_r, <- substring_drop in Tr.
  unfold slice. repeat split; try assumption; try lia.
  apply length_substring. lia.
Qed.

(** X9: the scanner is idempotent: what it extracts, it extracts from its
    own result unchanged. *)
Theorem extractFirstJsonArray_idempotent (text out : string) :
  extractFirstJsonArray text = Some out ->
  extractFirstJsonArray out = Some out.
Proof.
  intros H. destruct (extract_located _ _ H) as (s & e & _ & _ & _ & L & N & _).
  unfold extractFirstJsonArray. rewrite scanArray_locate, L. simpl.
  unfold slice. rewrite Nat.sub_0_r, <- N. f_equal. apply substring_all.
Qed.

Lemma extractFirstJsonArray_idempotent_witness :
  extractFirstJsonArray (quoted "[1, '][', [2]]") = Some (quoted "[1, '][', [2]]").
Proof.
  exact (extractFirstJsonArray_idempotent
           (quoted "Sure: [1, '][', [2]] and [3]") _ eq_refl).
Defined.

Lemma extract_brackets (text out : string) :
  extractFirstJsonArray text = Some out ->
  exists mid, out = String "[" (mid ++ "]").
Proof.
  intros H.
  destruct (extract_located _ _ H) as (s & e & _ & E & B & L & N & tail & T).
  exists (substring 0 (String.length out - 2) (drop 1 out)).
  assert (Hd : exists rest, out = String "[" rest).
  { rewrite E, substring_drop, T. destruct (e - s) eqn:Q; [lia |].
    simpl. eauto. }
  destruct Hd as (rest & ->).
  rewrite <- N in L.
  destruct (locate_closes (String "[" rest) 0 (-1)%Z 0 false false 0 L
              ltac:(lia)) as (r' & R).
  destruct r' as [| c r']; [discriminate R |].
  simpl in R. injection R as <- ->. f_equal. simpl.
  rewrite length_append. simpl.
  replace (String.length r' + 1 - 1) with (String.length r') by lia.
  f_equal. rewrite <- (append_nil_r r') at 1.
  rewrite substring_app_l by (simpl; lia).
  rewrite append_nil_r. symmetry. apply substring_all.
Qed.

Lemma locate_prose (s : string) (pre : string) :
  forall i,
    plainProse pre = true ->
    locate (pre ++ s) i (-1)%Z 0 false false
    = locate s (i + String.length pre) (-1)%Z 0 false false.
Proof.
  induction pre as [| c r IH]; intros i P; simpl.
  - now rewrite Nat.add_0_r.
  - simpl in P. apply andb_true_iff in P. destruct P as [P R].
    apply andb_true_iff in P. destruct P as [Q O].
    apply negb_true_iff in Q, O. rewrite Q, O.
    replace (i + S (String.length r)) with (S i + String.length r) by lia.
    destruct (Ascii.eqb c "]"); simpl; now apply IH.
Qed.

Lemma extract_skips_prose (pre s post out : string) :
  plainProse pre = true ->
  extractFirstJsonArray s = Some out ->
  extractFirstJsonArray (pre ++ s ++ post) = Some out.
Proof.
  intros P H. unfold extractFirstJsonArray in *.
  rewrite scanArray_locate in *.
  destruct (locate s 0 (-1)%Z 0 false false) as [[a b] |] eqn:L;
    [| discriminate H].
  simpl in H. injection H as <-.
  pose proof (locate_bounds s 0 (-1)%Z 0 false false a b ltac:(lia) L)
    as (B1 & B2 & _).
  rewrite locate_prose by exact P. simpl.
  pose proof (locate_shift (String.length pre) (s ++ post) 0 (-1)%Z 0 false false)
    as S.
  change (shiftStart (String.length pre) (-1)) with (-1)%Z in S.
  rewrite Nat.add_0_r in S. rewrite S.
  rewrite (locate_app post s _ _ _ _ _ _ L). simpl. f_equal.
  unfold slice.
  replace (String.length pre + b - (String.length pre + a)) with (b - a) by lia.
  rewrite substring_skip. apply substring_app_l. lia.
Qed.

(** The scanner returns on a text that reads as tokens whose brackets
    close the open depth. *)
Lemma scanArray_returns (text : string) (r : string) :
  forall st toks i start depth,
    lexFrom st r = Some toks ->
    (0 < depth)%nat -> (0 <= start)%Z ->
    (Z.of_nat depth + brackets toks = 0)%Z ->
    exists out,
      scanArray text r i start depth (inStr st) (escaped st) = Some out.
Proof.
  induction r as [| c r IH]; intros st toks i start depth L D S B.
  - simpl in L. destruct st; simpl in L; try discriminate L.
    + injection L as <-. simpl in B. lia.
    + destruct (numAccepting ns); [| discriminate L].
      injection L as <-. simpl in B. lia.
  - rewrite scanArray_step. simpl in L.
    destruct (lexStep st c) as [[st' tc] |] eqn:E; [| discriminate L].
    destruct (lexFrom st' r) as [more |] eqn:E'; [| discriminate L].
    injection L as <-. rewrite brackets_app in B.
    destruct (lexStep_scan _ _ _ _ E) as (I1 & I2 & I3).
    rewrite <- I1, <- I2. cbv zeta.
    assert (V : scanDelta (inStr st) c = 1%Z \/ scanDelta (inStr st) c = (-1)%Z
                \/ scanDelta (inStr st) c = 0%Z).
    { unfold scanDelta. destruct (inStr st); [tauto |].
      destruct (Ascii.eqb c dquote); [tauto |].
      destruct (Ascii.eqb c "["); [tauto |].
      destruct (Ascii.eqb c "]"); tauto. }
    destruct V as [V | [V | V]]; rewrite V; rewrite V in I3; simpl Z.eqb; cbv iota.
    + destruct (depth =? 0)%nat eqn:Z0; [apply Nat.eqb_eq in Z0; lia |].
      apply (IH st' more); try assumption; lia.
    + rewrite (proj2 (Nat.ltb_lt 0 depth) D). simpl andb. cbv iota.
      destruct ((depth - 1 =? 0)%nat && (0 <=? start)%Z) eqn:R; [eauto |].
      apply andb_false_iff in R. rewrite Nat.eqb_neq, Z.leb_gt in R.
      apply (IH st' more); try assumption; lia.
    + simpl andb. cbv iota. apply (IH st' more); try assumption; lia.
Qed.

Lemma array_tokens (a : string) (v : json) :
  Json.parse a = Some v -> isArray v = true ->
  exists body, lex a = Some (TLBrack :: body ++ [TRBrack]) /\ balanced body.
Proof.
  intros H A. unfold Json.parse in H.
  destruct (lex a) as [ts |] eqn:L; [| discriminate H].
  destruct (parseValue (2 * List.length ts + 2) ts) as [[v' rest] |] eqn:P;
    [| discriminate H].
  destruct rest; [| discriminate H]. injection H as ->.
  destruct (proj1 (parse_balanced _) _ _ _ P) as (c & E & _ & K).
  destruct (K A) as (body & -> & B). rewrite app_nil_r in E. subst ts.
  now exists body.
Qed.

Lemma array_head (c : ascii) (r : string) (body : list token) :
  lex (String c r) = Some (TLBrack :: body ++ [TRBrack]) ->
  isWhiteSpace c = false ->
  c = "["%char /\ lexFrom LDefault r = Some (body ++ [TRBrack]).
Proof.
  intros L W. unfold lex in L. simpl in L.
  destruct (lexDefault c) as [[st' tc] |] eqn:E; [| discriminate L].
  destruct (lexFrom st' r) as [more |] eqn:E'; [| discriminate L].
  injection L as L. unfold lexDefault in E.
  destruct (isJsonSpace c) eqn:J;
    [apply jsonSpace_whiteSpace in J; congruence |].
  destruct (Ascii.eqb c "[") eqn:O.
  - apply Ascii.eqb_eq in O. injection E as <- <-. injection L as <-. auto.
  - split_ifs E; try discriminate E; injection E as <- <-;
      simpl in L; try discriminate L; subst more;
      apply first_token in E'; simpl in E';
      match type of E' with
      | ex _ => destruct E' as [x E']; discriminate E'
      | _ => discriminate E'
      end.
Qed.

Lemma extract_array (a : string) (v : json) :
  Json.parse a = Some v -> isArray v = true -> trim a = a ->
  extractFirstJsonArray a = Some a.
Proof.
  intros H A T. destruct (array_tokens a v H A) as (body & L & B).
  assert (TS : trimStart a = a) by (rewrite <- T; apply trimStart_trim).
  assert (TE : trimEnd a = a) by (rewrite <- T; apply trimEnd_trim).
  assert (R : exists out, extractFirstJsonArray a = Some out).
  { destruct a as [| c r]; [discriminate L |].
    destruct (array_head c r body L (trimStart_head _ _ TS)) as [-> L'].
    unfold extractFirstJsonArray. rewrite scanArray_step.
    change (exists out,
               scanArray (String "[" r) r 1 0%Z 1 (inStr LDefault)
                         (escaped LDefault) = Some out).
    apply (scanArray_returns _ r LDefault (body ++ [TRBrack]));
      try assumption; try lia.
    rewrite brackets_app. destruct B as [B _]. rewrite B. reflexivity. }
  destruct R as (out & R). rewrite R. f_equal.
  now apply (extractFirstJsonArray_whole a body).
Qed.

(** X10: what the scanner returns is a contiguous slice of the text that
    opens with a bracket and closes with a bracket. *)
Theorem extractFirstJsonArray_slice (text out : string) :
  extractFirstJsonArray text = Some out ->
  exists pre mid post,
    text = (pre ++ out ++ post)%string
    /\ out = String "[" (mid ++ "]").
Proof.
  intros H.
  destruct (extract_located _ _ H) as (s & e & _ & E & B & _).
  destruct (extract_brackets _ _ H) as (mid & M).
  exists (substring 0 s text), mid, (drop (s + (e - s)) text).
  split; [rewrite E; apply substring_split; lia | exact M].
Qed.

Lemma extractFirstJsonArray_slice_witness :
  exists pre mid post,
    quoted "Sure: [1, '][', [2]] and [3]"
    = (pre ++ quoted "[1, '][', [2]]" ++ post)%string
    /\ quoted "[1, '][', [2]]" = String "[" (mid ++ "]").
Proof.
  exact (extractFirstJsonArray_slice (quoted "Sure: [1, '][', [2]] and [3]")
           _ eq_refl).
Defined.

(** X11: a valid JSON array text, trimmed, is recovered exactly from any
    surrounding text, provided what precedes it has no double quote and no
    opening bracket; what follows it is arbitrary. *)
Theorem extractFirstJsonArray_recovers_embedded (pre a post : string)
    (v : json) :
  Json.parse a = Some v -> isArray v = true -> trim a = a ->
  plainProse pre = true ->
  extractFirstJsonArray (pre ++ a ++ post) = Some a.
Proof.
  intros H A T P. apply extract_skips_prose; [exact P |].
  now apply (extract_array a v).
Qed.

Lemma extractFirstJsonArray_recovers_embedded_witness :
  extractFirstJsonArray
    ("Here are the questions: " ++ Samples.goodText ++ quoted " and '[more'")
  = Some Samples.goodText.
Proof.
  exact (extractFirstJsonArray_recovers_embedded "Here are the questions: "
           Samples.goodText (quoted " and '[more'")
           (JArr [interviewQuestion "Q1" "A1"])
           eq_refl eq_refl eq_refl eq_refl).
Defined.

End ScannerFacts.

(** ** The text handed to the parser *)

Module PayloadFacts.

Import Js Async Json Scripts Form Observations SanitizerFacts ScannerFacts.


Lemma prefix_cons (a b : ascii) (p s : string) :
  prefix (String a p) (String b s) = true <-> a = b /\ prefix p s = true.
Proof.
  simpl. destruct (ascii_dec a b); split; try tauto; discriminate.
Qed.

Lemma fence_prefix (s : string) :
  prefix "```" s = true
  <-> exists r, s = String "`" (String "`" (String "`" r)).
Proof.
  split.
  - destruct s as [| c1 s]; [discriminate |].
    intros H. apply prefix_cons in H. destruct H as [<- H].
    destruct s as [| c2 s]; [discriminate H |].
    apply prefix_cons in H. destruct H as [<- H].
    destruct s as [| c3 s]; [discriminate H |].
    apply prefix_cons in H. destruct H as [<- _]. eauto.
  - intros (r & ->). simpl. now destruct r.
Qed.

Lemma includes_cons (c : ascii) (r p : string) :
  includes (String c r) p = prefix p (String c r) || includes r p.
Proof. reflexivity. Qed.

Lemma removeAll_skip (matchAt : string -> nat) (s : string) :
  forall n, removeAll matchAt n s = removeAll matchAt 0 (drop n s).
Proof.
  induction s as [| c r IH]; intros n; [now destruct n |].
  destruct n as [| n]; [reflexivity |]. simpl. apply IH.
Qed.

Lemma length_drop (s : string) :
  forall n, String.length (drop n s) <= String.length s.
Proof.
  induction s as [| c r IH]; intros n; [destruct n; simpl; lia |].
  destruct n as [| n]; simpl; [lia |]. specialize (IH n). lia.
Qed.

Section Removal.

Variable matchAt : string -> nat.
Hypothesis matches_fence :
  forall s, matchAt s = 0 <-> prefix "```" s = false.

Lemma removeAll_head (n : nat) :
  forall s c r,
    String.length s <= n ->
    removeAll matchAt 0 s = String c r -> c = "`"%char ->
    exists t, s = String "`" t.
Proof.
  induction n as [| n IH]; intros s c r L H ->.
  - destruct s; [discriminate H | simpl in L; lia].
  - destruct s as [| x s]; [discriminate H |]. simpl in H.
    destruct (matchAt (String x s)) eqn:M.
    + injection H as -> _. eauto.
    + assert (P : prefix "```" (String x s) = true).
      { destruct (prefix "```" (String x s)) eqn:P; [reflexivity |].
        apply matches_fence in P. congruence. }
      apply fence_prefix in P. destruct P as (t & P). injection P as -> _.
      eauto.
Qed.

Lemma removeAll_no_fence (n : nat) :
  forall s, String.length s <= n ->
            includes (removeAll matchAt 0 s) "```" = false.
Proof.
  induction n as [| n IH]; intros s L.
  - destruct s; [reflexivity | simpl in L; lia].
  - destruct s as [| x s]; [reflexivity |]. simpl in L. simpl removeAll.
    destruct (matchAt (String x s)) eqn:M.
    + rewrite includes_cons. rewrite (IH s) by lia. rewrite orb_false_r.
      destruct (prefix "```" (String x (removeAll matchAt 0 s))) eqn:P;
        [| reflexivity].
      exfalso. apply fence_prefix in P. destruct P as (t & P).
      injection P as -> P.
      apply matches_fence in M.
      destruct (removeAll_head (String.length s) s _ _ (le_n _) P eq_refl)
        as (s2 & ->).
      simpl in P.
      destruct (matchAt (String "`" s2)) eqn:M2.
      * injection P as P.
        destruct (removeAll_head (String.length s2) s2 _ _ (le_n _) P eq_refl)
          as (s3 & ->).
        rewrite (proj2 (fence_prefix _)) in M by eauto. discriminate M.
      * assert (Q : prefix "```" (String "`" s2) = true).
        { destruct (prefix "```" (String "`" s2)) eqn:Q; [reflexivity |].
          apply matches_fence in Q. congruence. }
        apply fence_prefix in Q. destruct Q as (t' & Q). injection Q as ->.
        rewrite (proj2 (fence_prefix _)) in M by eauto. discriminate M.
    + rewrite removeAll_skip. apply IH.
      pose proof (length_drop s n0). lia.
Qed.

End Removal.

Lemma taggedFenceAt_matches (s : string) :
  taggedFenceAt s = 0 <-> prefix "```" s = false.
Proof.
  unfold taggedFenceAt. destruct (prefix "```" s).
  - destruct (prefix "json" _); split; discriminate.
  - tauto.
Qed.

Lemma removeFences_no_fence (s : string) :
  includes (removeFences s) "```" = false.
Proof.
  unfold removeFences.
  assert (F : includes (removeAll taggedFenceAt 0 s) "```" = false).
  { apply (removeAll_no_fence taggedFenceAt taggedFenceAt_matches
             (String.length s)). lia. }
  rewrite removeAll_none; [exact F | | exact F].
  intros t P. unfold bareFenceAt. now rewrite P.
Qed.

Lemma blankControl_tick (c : ascii) :
  blankControl c = "`"%char -> c = "`"%char.
Proof.
  unfold blankControl. destruct (nat_of_ascii c <? 32)%nat; [discriminate |].
  auto.
Qed.

Lemma prefix_fence_blank (s : string) :
  prefix "```" (mapChars blankControl s) = true -> prefix "```" s = true.
Proof.
  intros H. apply fence_prefix in H. destruct H as (r & H).
  destruct s as [| c1 [| c2 [| c3 t]]]; try discriminate H.
  simpl in H. injection H as H1 H2 H3 _.
  apply blankControl_tick in H1, H2, H3. subst. apply fence_prefix. eauto.
Qed.

Lemma includes_fence_blank (s : string) :
  includes s "```" = false ->
  includes (mapChars blankControl s) "```" = false.
Proof.
  induction s as [| c r IH]; intros H; [reflexivity |].
  rewrite includes_cons in H. apply orb_false_iff in H. destruct H as [P H].
  change (mapChars blankControl (String c r))
    with (String (blankControl c) (mapChars blankControl r)).
  rewrite includes_cons, (IH H), orb_false_r.
  destruct (prefix "```" (String (blankControl c) (mapChars blankControl r)))
    eqn:Q; [| reflexivity].
  apply (prefix_fence_blank (String c r)) in Q. congruence.
Qed.

Lemma prefix_app (p s post : string) :
  prefix p s = true -> prefix p (s ++ post) = true.
Proof.
  revert s. induction p as [| a p IH]; intros s H.
  - now destruct (s ++ post)%string.
  - destruct s as [| b s]; [discriminate H |].
    simpl append. apply prefix_cons in H. apply prefix_cons.
    destruct H as [-> H]. auto.
Qed.

Lemma includes_app_r (p s post : string) :
  includes s p = true -> includes (s ++ post) p = true.
Proof.
  induction s as [| c r IH]; intros H.
  - simpl in H. rewrite orb_false_r in H.
    destruct p; [| discriminate H]. now destruct post.
  - simpl append. rewrite includes_cons in *.
    apply orb_true_iff in H. apply orb_true_iff. destruct H as [H | H].
    + left. now apply (prefix_app p (String c r) post).
    + right. now apply IH.
Qed.

Lemma includes_app_l (p pre s : string) :
  includes s p = true -> includes (pre ++ s) p = true.
Proof.
  intros H. induction pre as [| c r IH]; [exact H |].
  simpl append. rewrite includes_cons, IH. apply orb_true_r.
Qed.

Lemma noControl_blank (s : string) : noControl (mapChars blankControl s) = true.
Proof.
  induction s as [| c r IH]; [reflexivity |].
  change (noControl (mapChars blankControl (String c r)))
    with ((32 <=? nat_of_ascii (blankControl c))%nat
          && noControl (mapChars blankControl r)).
  rewrite IH, andb_true_r. unfold blankControl.
  destruct (nat_of_ascii c <? 32)%nat eqn:E; [reflexivity |].
  apply Nat.leb_le. now apply Nat.ltb_ge in E.
Qed.


(** X12: whatever the model returned, the text handed to [JSON.parse] holds
    no code unit below 32 and no code-fence marker. *)
Theorem normalizedPayload_clean (raw : string) :
  noControl (normalizedPayload raw) = true
  /\ includes (normalizedPayload raw) "```" = false.
Proof.
  unfold normalizedPayload. split; [apply noControl_blank |].
  apply includes_fence_blank.
  set (cleanText := trim (removeFences (trim raw))).
  assert (F : includes cleanText "```" = false)
    by (apply includes_trim, removeFences_no_fence).
  destruct (extractFirstJsonArray cleanText) as [out |] eqn:E; [| exact F].
  destruct (includes out "```") eqn:I; [| reflexivity].
  destruct (extract_located _ _ E) as (s & e & _ & O & B & _).
  rewrite (substring_split cleanText s (e - s)) in F by lia.
  rewrite <- O in F.
  rewrite (includes_app_l _ _ _ (includes_app_r _ _ _ I)) in F.
  discriminate F.
Qed.

(** ** Array text inside prose and fences *)

Lemma trimStart_app (p y : string) :
  trimStart y = y -> trimStart (p ++ y) = (trimStart p ++ y)%string.
Proof.
  intros Y. induction p as [| c p IH]; [exact Y |]. simpl.
  destruct (isWhiteSpace c); [exact IH | reflexivity].
Qed.

Lemma trimEnd_app (x y : string) :
  trimEnd y <> "" -> trimEnd (x ++ y) = (x ++ trimEnd y)%string.
Proof.
  intros Y. induction x as [| c x IH]; [reflexivity |]. simpl.
  rewrite IH. destruct (x ++ trimEnd y)%string eqn:E.
  - destruct x; [simpl in E; congruence | discriminate E].
  - now rewrite andb_false_r.
Qed.

Lemma trimEnd_cons (c : ascii) (s : string) :
  trimEnd (String c s)
  = if isWhiteSpace c && isEmpty (trimEnd s) then "" else String c (trimEnd s).
Proof. reflexivity. Qed.

Lemma trimEnd_keeps (a r : string) :
  a <> "" -> trimEnd a = a -> exists r', trimEnd (a ++ r) = (a ++ r')%string.
Proof.
  induction a as [| c a IH]; intros N T; [congruence |].
  destruct a as [| c' a].
  - simpl in T. rewrite andb_true_r in T.
    destruct (isWhiteSpace c) eqn:W; [discriminate T |].
    exists (trimEnd r). simpl. now rewrite W.
  - destruct (IH ltac:(discriminate) (trimEnd_tail _ _ T)) as (r' & E).
    exists r'. change ((String c (String c' a) ++ r)%string)
      with (String c (String c' a ++ r)).
    rewrite trimEnd_cons, E. simpl. now rewrite andb_false_r.
Qed.

Lemma plainProse_trimStart (p : string) :
  plainProse p = true -> plainProse (trimStart p) = true.
Proof.
  induction p as [| c p IH]; intros H; [reflexivity |]. simpl.
  destruct (isWhiteSpace c); [| exact H].
  simpl in H. apply andb_true_iff in H. now apply IH.
Qed.

Lemma plainProse_removeAll (matchAt : string -> nat) (p : string) :
  forall skip, plainProse p = true ->
               plainProse (removeAll matchAt skip p) = true.
Proof.
  induction p as [| c p IH]; intros skip H; [reflexivity |].
  simpl in H. apply andb_true_iff in H. destruct H as [H P]. simpl.
  destruct skip; [| now apply IH].
  destruct (matchAt (String c p)); [| now apply IH].
  simpl. rewrite H. now apply IH.
Qed.

Lemma removeAll_over (matchAt : string -> nat) (y : string) (n : nat) :
  (forall p : string, matchAt (p ++ y)%string <= String.length p) ->
  forall p : string, String.length p <= n ->
            exists p1,
              removeAll matchAt 0 (p ++ y) = (p1 ++ removeAll matchAt 0 y)%string
              /\ (plainProse p = true -> plainProse p1 = true).
Proof.
  intros M. induction n as [| n IH]; intros p L.
  - destruct p; [| simpl in L; lia]. exists "". auto.
  - destruct p as [| c p]; [exists ""; auto |]. simpl in L.
    simpl append. simpl removeAll.
    pose proof (M (String c p)) as K. simpl append in K. simpl String.length in K.
    destruct (matchAt (String c (p ++ y))) as [| k] eqn:E.
    + destruct (IH p ltac:(lia)) as (p1 & R & P). exists (String c p1).
      split; [simpl; now rewrite R |].
      simpl. intros H. apply andb_true_iff in H. destruct H as [H H'].
      rewrite H. now apply P.
    + rewrite removeAll_skip.
      assert (D : drop k (p ++ y)%string = (drop k p ++ y)%string).
      { clear -K. assert (k <= String.length p) by lia. clear K.
        revert k H. induction p as [| x p IHp]; intros k H.
        - simpl in H. assert (k = 0) by lia. now subst.
        - destruct k; [reflexivity |]. simpl. apply IHp. simpl in H. lia. }
      rewrite D.
      destruct (IH (drop k p)) as (p1 & R & P).
      { pose proof (length_drop p k). lia. }
      exists p1. split; [exact R |].
      simpl. intros H. apply andb_true_iff in H. destruct H as [_ H].
      apply P. clear -H. revert k. induction p as [| x p IHp]; intros k.
      * now destruct k.
      * destruct k; [exact H |]. simpl. simpl in H.
        apply andb_true_iff in H. now apply IHp.
Qed.

Lemma removeFences_tagged (s : string) :
  removeFences s = removeAll taggedFenceAt 0 s.
Proof.
  unfold removeFences. apply removeAll_none.
  - intros t P. unfold bareFenceAt. now rewrite P.
  - apply (removeAll_no_fence taggedFenceAt taggedFenceAt_matches
             (String.length s)). lia.
Qed.

Lemma fence_within (x p : string) :
  taggedFenceAt (p ++ String "[" x) <= String.length p.
Proof.
  unfold taggedFenceAt.
  destruct (prefix "```" (p ++ String "[" x)) eqn:P; [| lia].
  apply fence_prefix in P. destruct P as (r & P).
  destruct p as [| c1 [| c2 [| c3 p]]]; try discriminate P.
  simpl append. simpl drop.
  destruct (prefix "json" (toLowerCase (p ++ String "[" x))) eqn:J;
    [| simpl; lia].
  destruct p as [| d1 [| d2 [| d3 [| d4 p]]]]; simpl String.length; try lia;
    simpl append in J; simpl toLowerCase in J;
    repeat (apply prefix_cons in J; destruct J as [? J]);
    discriminate.
Qed.

Lemma removeAll_array (a0 r : string) :
  includes (a0 ++ "]") "```" = false ->
  removeAll taggedFenceAt 0 ((a0 ++ "]") ++ r)
  = ((a0 ++ "]") ++ removeAll taggedFenceAt 0 r)%string.
Proof.
  induction a0 as [| c a0 IH]; intros F.
  - reflexivity.
  - simpl append in F. rewrite includes_cons in F.
    apply orb_false_iff in F. destruct F as [P F].
    simpl append. simpl removeAll.
    assert (Q : prefix "```" (String c ((a0 ++ "]") ++ r)) = false).
    { destruct (prefix "```" (String c ((a0 ++ "]") ++ r))) eqn:Q;
        [| reflexivity].
      apply fence_prefix in Q. destruct Q as (t & Q).
      destruct a0 as [| c2 [| c3 a0]]; try discriminate Q.
      simpl append in Q. injection Q as -> -> -> _.
      simpl append in P. rewrite (proj2 (fence_prefix _)) in P by eauto.
      discriminate P. }
    rewrite (proj2 (taggedFenceAt_matches _) Q). now rewrite IH.
Qed.

Lemma parse_blank (a : string) (v : json) :
  Json.parse a = Some v -> Json.parse (mapChars blankControl a) = Some v.
Proof.
  unfold Json.parse. intros H.
  destruct (lex a) as [ts |] eqn:L; [| discriminate H].
  unfold lex. now rewrite (lexFrom_blank _ _ _ L).
Qed.

Lemma trim_around (p a r : string) :
  a <> "" -> trim a = a ->
  exists p' r',
    trim (p ++ a ++ r) = (p' ++ a ++ r')%string
    /\ (plainProse p = true -> plainProse p' = true).
Proof.
  intros N T.
  assert (S : trimStart a = a) by (rewrite <- T; apply trimStart_trim).
  assert (E : trimEnd a = a) by (rewrite <- T; apply trimEnd_trim).
  destruct (trimEnd_keeps a r N E) as (r' & K).
  exists (trimStart p), r'. split; [| apply plainProse_trimStart].
  unfold trim. rewrite trimStart_app.
  - rewrite trimEnd_app; rewrite K; [reflexivity |].
    destruct a; [congruence | discriminate].
  - destruct a as [| c a]; [congruence |]. simpl in S |- *.
    destruct (isWhiteSpace c) eqn:W; [| reflexivity].
    exfalso. pose proof (trimStart_length a) as L.
    rewrite S in L. simpl in L. lia.
Qed.

Lemma normalizedPayload_embedded (pre a rest : string) (v : json) :
  Json.parse a = Some v -> isArray v = true -> trim a = a ->
  includes a "```" = false -> plainProse pre = true ->
  normalizedPayload (pre ++ a ++ rest) = mapChars blankControl a.
Proof.
  intros H A T F P.
  pose proof (extract_array a v H A T) as X.
  destruct (extract_brackets _ _ X) as (mid & S).
  assert (N : a <> "") by (rewrite S; discriminate).
  unfold normalizedPayload.
  destruct (trim_around pre a rest N T) as (p0 & r0 & -> & P0).
  rewrite removeFences_tagged.
  assert (B : a = (String "[" mid ++ "]")%string) by exact S.
  destruct (removeAll_over taggedFenceAt (a ++ r0) (String.length p0))
    with (p := p0) as (p1 & -> & P1).
  { intros p. rewrite S. apply fence_within. }
  { lia. }
  rewrite B at 1. rewrite removeAll_array by (now rewrite <- B).
  rewrite <- B.
  destruct (trim_around p1 a (removeAll taggedFenceAt 0 r0) N T)
    as (p2 & r2 & -> & P2).
  now rewrite (extract_skips_prose p2 a r2 a (P2 (P1 (P0 P))) X).
Qed.

(** X13: the sanitizer returns the value of a valid JSON array text,
    trimmed and free of fence markers, from any response that embeds it:
    what precedes the array may hold fences and prose but no double quote
    and no opening bracket, what follows it is arbitrary. *)
Theorem cleanAiResponse_recovers_embedded (w : world) (pre a rest : string)
    (v : json) (st : state) :
  Json.parse a = Some v -> isArray v = true -> trim a = a ->
  includes a "```" = false -> plainProse pre = true ->
  cleanAiResponse w (pre ++ a ++ rest) st = (Return v, st).
Proof.
  intros H A T F P. unfold cleanAiResponse.
  rewrite (normalizedPayload_embedded pre a rest v H A T F P).
  now rewrite (parse_blank a v H).
Qed.
Lemma cleanAiResponse_recovers_embedded_witness :
  cleanAiResponse Samples.allFail
    ("Here you go:
```JSON
" ++ Samples.escapedText ++ quoted "
```
Ask me for 'more' [if needed].") initial
  = (Return Samples.escapedQuestions, initial).
Proof.
  refine (cleanAiResponse_recovers_embedded Samples.allFail
            "Here you go:
```JSON
" Samples.escapedText (quoted "
```
Ask me for 'more' [if needed].")
            Samples.escapedQuestions initial _ eq_refl _ _ eq_refl);
    vm_compute; reflexivity.
Defined.

End PayloadFacts.

(** ** The submit handler *)

Module SubmitFacts.

Import Js Async Json Scripts Form Orchestration Samples Observations.
Import Submit Sessions FormFacts TasksFacts SchedulerFacts OrchestrationFacts.

(** X14: the generation block is over within the two time bounds, 60000 ms
    and 90000 ms, of its start, whatever the network does. *)
Theorem generateQuestions_deadline (w : world) (data : FormData) (st : state) :
  (clock (snd (generateQuestions w data st))
   <= clock st + AI_TIMEOUT_MS + AI_RETRY_TIMEOUT_MS)%N.
Proof.
  rewrite generateQuestions_generation.
  destruct (generation_result w data st idle I)
    as (q & st' & bg' & -> & _ & C & _).
  exact C.
Qed.

(** *** The write *)

Lemma holds_written (reply : settles (option exn)) :
  holds stilly (written reply).
Proof.
  unfold written. apply holds_bindT; [apply holds_awaitT |].
  intros [e |]; [apply holds_throwT | apply holds_retT].
Qed.

(** A promise with one suspension, raced beside what is in flight: what
    is in flight runs until the promise settles or the timer fires. *)
Lemma race_single {A} (ta : N) (f : task A) (o : outcome A) (d : N) :
  (forall b st, race f b d st = (o, st, b)) ->
  forall b st0,
    race (Wake ta (fun st => (st, f))) b d st0
    = if (ta <? d)%N
      then (o, setClock ta (fst (elapse b ta st0)), snd (elapse b ta st0))
      else (Pending, fst (elapse b d st0),
            par (Wake ta (fun st => (st, f))) (snd (elapse b d st0))).
Proof.
  intros H.
  assert (Turn : forall (b : task unit) st0,
             match b with
             | Wake tb _ => ((tb <? d) && (tb <? ta))%N = false
             | _ => True
             end ->
             (if (ta <? d)%N
              then race f b d (setClock ta st0)
              else (Pending, st0, par (Wake ta (fun st => (st, f))) b))
             = if (ta <? d)%N
               then (o, setClock ta (fst (elapse b ta st0)),
                     snd (elapse b ta st0))
               else (Pending, fst (elapse b d st0),
                     par (Wake ta (fun st => (st, f)))
                         (snd (elapse b d st0)))).
  { intros b st0 Hb. rewrite H.
    destruct b as [y | e | | tb rb]; try reflexivity.
    simpl elapse. apply andb_false_iff in Hb.
    destruct (N.ltb_spec ta d) as [Lt | Lt].
    - destruct (N.ltb_spec tb ta) as [La | La]; [| reflexivity].
      exfalso.
      destruct Hb as [Hb | Hb];
        first [discriminate Hb | apply N.ltb_ge in Hb; lia].
    - destruct (N.ltb_spec tb d) as [Ld | Ld]; [| reflexivity].
      exfalso.
      destruct Hb as [Hb | Hb];
        first [discriminate Hb | apply N.ltb_ge in Hb; lia]. }
  induction b as [y | e | | tb rb IH] using task_induction; intros st0;
    [exact (Turn (Done y) st0 I) | exact (Turn (Failed e) st0 I)
    | exact (Turn Never st0 I) |].
  change (race (Wake ta (fun st => (st, f))) (Wake tb rb) d st0)
    with (if ((tb <? d) && (tb <? ta))%N
          then let (st', b') := rb (setClock tb st0) in
               race (Wake ta (fun st => (st, f))) b' d st'
          else if (ta <? d)%N
               then race f (Wake tb rb) d (setClock ta st0)
               else (Pending, st0,
                     par (Wake ta (fun st => (st, f))) (Wake tb rb))).
  destruct ((tb <? d) && (tb <? ta))%N eqn:L;
    [| exact (Turn (Wake tb rb) st0 L)].
  apply andb_true_iff in L. destruct L as [Ld La].
  specialize (IH (setClock tb st0) (fst (rb (setClock tb st0)))).
  simpl elapse. rewrite Ld, La.
  destruct (rb (setClock tb st0)) as [st1 b1]. simpl in IH. exact IH.
Qed.

Lemma race_written (reply : settles (option exn)) (st : state) (b : task unit)
    (d : N) (st0 : state) :
  fst (written reply st) = st
  /\ race (snd (written reply st)) b d st0
     = match reply with
       | Some (latency, r) =>
           if (clock st + latency <? d)%N then
             (match r with
              | None => Return tt
              | Some e => Throw e
              end,
              setClock (clock st + latency)
                       (fst (elapse b (clock st + latency) st0)),
              snd (elapse b (clock st + latency) st0))
           else
             (Pending, fst (elapse b d st0),
              par (snd (written reply st)) (snd (elapse b d st0)))
       | None => (Pending, fst (elapse b d st0), snd (elapse b d st0))
       end.
Proof.
  destruct reply as [[latency [e |]] |]; (split; [reflexivity |]).
  - apply (race_single (clock st + latency) (Failed e) (Throw e) d).
    intros b' st'. now destruct b'.
  - apply (race_single (clock st + latency) (Done tt) (Return tt) d).
    intros b' st'. now destruct b'.
  - assert (E : race (@Never unit) b d st0
                = let (st', b') := elapse b d st0 in (Pending, st', b'))
      by (now destruct b).
    change (snd (written None st)) with (@Never unit). rewrite E.
    now destruct (elapse b d st0).
Qed.

(** *** The handler, by its branches *)

Lemma onSubmit_signed_out (s : session) (w : world) (data : FormData)
    (pg : page) :
  truthy (userId s) = false ->
  onSubmit s w data pg
  = (Return tt,
     mkPage (process pg) false (requests pg) (toasts pg)
       (errorToasts pg ++ ["You must be signed in to create interview"])
       (navigations pg)
       (logged pg ++ [JsError "You must be signed in to create interview"])).
Proof.
  intros U. unfold onSubmit, tryCatchFinally, bindP. now rewrite U.
Qed.

Lemma onSubmit_unsaved (s : session) (w : world) (data : FormData)
    (pg : page) (q : json) (st1 : state) (bg1 : task unit) :
  truthy (userId s) = true -> isValid s = false ->
  generation w data (process pg, idle) = (Return q, (st1, bg1)) ->
  onSubmit s w data pg
  = (Return tt,
     mkPage st1 false (requests pg) (toasts pg) (errorToasts pg)
       (navigations pg ++ ["/generate"]) (logged pg)).
Proof.
  intros U V G. unfold onSubmit, tryCatchFinally, bindP. rewrite U.
  change (negb true) with false. cbv iota beta. unfold retP at 1, fresh at 1.
  cbv beta iota. change (process (setLoading true pg)) with (process pg).
  rewrite G, V. now destruct (initialData s).
Qed.

Lemma onSubmit_saving (s : session) (w : world) (data : FormData)
    (pg : page) (q : json) (st1 : state) (bg1 : task unit) :
  truthy (userId s) = true -> isValid s = true ->
  generation w data (process pg, idle) = (Return q, (st1, bg1)) ->
  onSubmit s w data pg
  = match withTimeout (written (firestore s (List.length (requests pg))))
            SAVE_TIMEOUT_MS (saveTimeoutMessage s) (st1, bg1) with
    | (Return _, sys2) => (Return tt, savedPage s data q (fst sys2) pg)
    | (Throw e, sys2) => (Return tt, failedPage s data q e (fst sys2) pg)
    | (Pending, sys2) =>
        (Pending,
         mkPage (fst sys2) true (requests pg ++ [requestOf s data q])
           (toasts pg) (errorToasts pg) (navigations pg) (logged pg))
    end.
Proof.
  intros U V G. unfold onSubmit, tryCatchFinally, bindP. rewrite U.
  change (negb true) with false. cbv iota beta. unfold retP at 1, fresh at 1.
  cbv beta iota. change (process (setLoading true pg)) with (process pg).
  rewrite G, V.
  unfold savedPage, failedPage, requestOf, saveTimeoutMessage, toastMessage.
  destruct (initialData s) as [id |]; unfold save; cbn [fst snd];
    match goal with
    | |- context [withTimeout ?p ?ms ?m ?sys] =>
        change (withTimeout p ms m sys)
          with (withTimeout (written (firestore s (List.length (requests pg))))
                  ms m (st1, bg1));
        destruct (withTimeout (written (firestore s (List.length (requests pg))))
                    ms m (st1, bg1)) as [[[] | e |] sys2]
    end; reflexivity.
Qed.

Lemma opens_written (reply : settles (option exn)) : opens (written reply).
Proof. apply holds_opens, holds_quietly, holds_written. Qed.

(** The write the store does not answer in time. *)
Lemma save_expired (reply : settles (option exn)) (message : string)
    (st1 : state) (bg1 : task unit) :
  match reply with
  | None => True
  | Some (d, _) => (SAVE_TIMEOUT_MS <= d)%N
  end ->
  exists rest,
    withTimeout (written reply) SAVE_TIMEOUT_MS message (st1, bg1)
    = (Throw (JsError message),
       (during bg1 (clock st1 + SAVE_TIMEOUT_MS)
               (armTimer SAVE_TIMEOUT_MS st1), rest)).
Proof.
  intros L. unfold withTimeout.
  destruct (race_written reply (armTimer SAVE_TIMEOUT_MS st1) bg1
              (clock st1 + SAVE_TIMEOUT_MS) (armTimer SAVE_TIMEOUT_MS st1))
    as [F R].
  destruct (written reply (armTimer SAVE_TIMEOUT_MS st1)) as [st0 a].
  simpl in F, R. subst st0. rewrite R.
  destruct reply as [[d r] |]; [| eexists; reflexivity].
  change (clock (armTimer SAVE_TIMEOUT_MS st1)) with (clock st1).
  assert (T : (clock st1 + d <? clock st1 + SAVE_TIMEOUT_MS)%N = false)
    by (apply N.ltb_ge; lia).
  rewrite T. eexists. reflexivity.
Qed.

(** The write the store answers in time. *)
Lemma save_answered (d : N) (r : option exn) (message : string)
    (st1 : state) (bg1 : task unit) :
  (d < SAVE_TIMEOUT_MS)%N ->
  exists rest,
    withTimeout (written (Some (d, r))) SAVE_TIMEOUT_MS message (st1, bg1)
    = (match r with
       | None => Return tt
       | Some e => Throw e
       end,
       (during bg1 (clock st1 + d) (armTimer SAVE_TIMEOUT_MS st1), rest)).
Proof.
  intros L. unfold withTimeout.
  destruct (race_written (Some (d, r)) (armTimer SAVE_TIMEOUT_MS st1) bg1
              (clock st1 + SAVE_TIMEOUT_MS) (armTimer SAVE_TIMEOUT_MS st1))
    as [F R].
  destruct (written (Some (d, r)) (armTimer SAVE_TIMEOUT_MS st1)) as [st0 a].
  simpl in F, R. subst st0. rewrite R.
  change (clock (armTimer SAVE_TIMEOUT_MS st1)) with (clock st1).
  assert (T : (clock st1 + d <? clock st1 + SAVE_TIMEOUT_MS)%N = true)
    by (apply N.ltb_lt; lia).
  rewrite T. destruct r; eexists; reflexivity.
Qed.

(** X15: [onSubmit] always settles, and never rejects: within 180000 ms
    of its start it is over with [loading] cleared, and it ended in exactly
    one of two ways: it navigated to the listing and showed no error, or it
    logged an error and showed it in one error toast without navigating. *)
Theorem onSubmit_settles (s : session) (w : world) (data : FormData)
    (pg : page) :
  exists pg',
    onSubmit s w data pg = (Return tt, pg')
    /\ loading pg' = false
    /\ (clock (process pg')
         <= clock (process pg) + AI_TIMEOUT_MS + AI_RETRY_TIMEOUT_MS
            + SAVE_TIMEOUT_MS)%N
    /\ ((navigations pg' = navigations pg ++ ["/generate"]
          /\ errorToasts pg' = errorToasts pg /\ logged pg' = logged pg)
         \/ (exists e,
               navigations pg' = navigations pg
               /\ errorToasts pg'
                  = errorToasts pg
                    ++ [messageOf e
                          "Something went wrong. Please try again later"]
               /\ logged pg' = logged pg ++ [e])).
Proof.
  destruct (truthy (userId s)) eqn:U.
  - destruct (generation_result w data (process pg) idle I)
      as (q & st1 & bg1 & G & _ & C & _ & K & _).
    destruct (isValid s) eqn:V.
    + rewrite (onSubmit_saving s w data pg q st1 bg1 U V G).
      destruct (withTimeout_spec (fun _ => True)
                  (written (firestore s (List.length (requests pg))))
                  SAVE_TIMEOUT_MS (saveTimeoutMessage s) st1 bg1
                  (opens_written _) (fun _ => yields_anything _) K)
        as (r & st2 & bg2 & -> & N & _ & _ & _ & _ & _ & C2 & _).
      destruct r as [[] | e |]; [| | congruence].
      * eexists. split; [reflexivity |]. simpl. split; [reflexivity |].
        split; [lia | left; repeat split].
      * eexists. split; [reflexivity |]. simpl. split; [reflexivity |].
        split; [lia | right; exists e; repeat split].
    + rewrite (onSubmit_unsaved s w data pg q st1 bg1 U V G). eexists.
      split; [reflexivity |]. simpl. split; [reflexivity |].
      split; [unfold SAVE_TIMEOUT_MS; lia | left; repeat split].
  - rewrite (onSubmit_signed_out s w data pg U). eexists.
    split; [reflexivity |]. simpl. split; [reflexivity |].
    split; [unfold AI_TIMEOUT_MS, AI_RETRY_TIMEOUT_MS, SAVE_TIMEOUT_MS; lia |].
    right. exists (JsError "You must be signed in to create interview").
    repeat split.
Qed.

(** X16: [onSubmit] sends at most one write to the store, only for a
    signed-in user and a valid form, and the questions it writes pass
    [isValidQuestions]. *)
Theorem onSubmit_requests (s : session) (w : world) (data : FormData)
    (pg : page) :
  requests (snd (onSubmit s w data pg)) = requests pg
  \/ (exists q,
        requests (snd (onSubmit s w data pg))
        = requests pg ++ [requestOf s data q]
        /\ isValidQuestions q = true
        /\ isValid s = true
        /\ truthy (userId s) = true).
Proof.
  destruct (truthy (userId s)) eqn:U.
  - destruct (generation_result w data (process pg) idle I)
      as (q & st1 & bg1 & G & Q & _).
    destruct (isValid s) eqn:V.
    + right. exists q. rewrite (onSubmit_saving s w data pg q st1 bg1 U V G).
      destruct (withTimeout _ _ _ (st1, bg1)) as [[[] | e |] sys2];
        repeat split; assumption.
    + left. now rewrite (onSubmit_unsaved s w data pg q st1 bg1 U V G).
  - left. now rewrite (onSubmit_signed_out s w data pg U).
Qed.

(** X17: without a user id, the empty string included, [onSubmit] asks the
    model nothing, arms no timer, writes nothing and does not navigate; it
    shows the sign-in error. *)
Theorem onSubmit_needs_sign_in (s : session) (w : world) (data : FormData)
    (pg : page) :
  truthy (userId s) = false ->
  let pg' := snd (onSubmit s w data pg) in
  process pg' = process pg
  /\ requests pg' = requests pg
  /\ toasts pg' = toasts pg
  /\ navigations pg' = navigations pg
  /\ errorToasts pg'
     = errorToasts pg ++ ["You must be signed in to create interview"].
Proof.
  intros U pg'. subst pg'. rewrite (onSubmit_signed_out s w data pg U).
  repeat split.
Qed.

Lemma onSubmit_needs_sign_in_witness :
  let pg' := snd (onSubmit signedOut Samples.thirdSucceeds Samples.job
                    blankPage) in
  process pg' = initial
  /\ requests pg' = []
  /\ toasts pg' = []
  /\ navigations pg' = []
  /\ errorToasts pg' = ["You must be signed in to create interview"].
Proof.
  exact (onSubmit_needs_sign_in signedOut Samples.thirdSucceeds Samples.job
           blankPage eq_refl).
Defined.

Lemma generation_abandoned (w : world) (data : FormData) (st : state)
    (q : json) (st1 : state) :
  generateQuestions w data st = (Return q, st1) ->
  generation w data (st, idle) = (Return q, (st1, abandoned w data st)).
Proof.
  unfold generateQuestions, abandoned.
  destruct (generation w data (st, idle)) as [r [st' bg']].
  now intros [= -> ->].
Qed.

(** X18: when the store has not answered 30000 ms after the write was
    sent, [onSubmit] shows the time-out message of the write in an error
    toast, shows no success toast and does not navigate; the write stays
    sent.  The process is then in the state the generation block left,
    with the timer of the write armed and what the block abandoned run on
    for these 30000 ms. *)
Theorem onSubmit_save_timeout (s : session) (w : world) (data : FormData)
    (pg : page) :
  truthy (userId s) = true -> isValid s = true ->
  match firestore s (List.length (requests pg)) with
  | None => True
  | Some (d, _) => (SAVE_TIMEOUT_MS <= d)%N
  end ->
  exists q st1,
    generateQuestions w data (process pg) = (Return q, st1)
    /\ onSubmit s w data pg
       = (Return tt,
          failedPage s data q (JsError (saveTimeoutMessage s))
            (during (abandoned w data (process pg))
                    (clock st1 + SAVE_TIMEOUT_MS)
                    (armTimer SAVE_TIMEOUT_MS st1))
            pg).
Proof.
  intros U V L.
  destruct (generation_result w data (process pg) idle I)
    as (q & st1 & bg1 & G & _).
  assert (G' : generateQuestions w data (process pg) = (Return q, st1))
    by (unfold generateQuestions; now rewrite G).
  exists q, st1. split; [exact G' |].
  apply generation_abandoned in G'.
  rewrite (onSubmit_saving s w data pg q st1 _ U V G').
  destruct (save_expired _ (saveTimeoutMessage s) st1
              (abandoned w data (process pg)) L) as [rest ->].
  reflexivity.
Qed.

Lemma onSubmit_save_timeout_witness :
  exists q st1,
    generateQuestions Samples.thirdSucceeds Samples.job initial
    = (Return q, st1)
    /\ onSubmit silentStore Samples.thirdSucceeds Samples.job blankPage
       = (Return tt,
          failedPage silentStore Samples.job q
            (JsError "Creating interview timed out")
            (during (abandoned Samples.thirdSucceeds Samples.job initial)
                    (clock st1 + SAVE_TIMEOUT_MS)
                    (armTimer SAVE_TIMEOUT_MS st1))
            blankPage).
Proof.
  exact (onSubmit_save_timeout silentStore Samples.thirdSucceeds Samples.job
           blankPage eq_refl eq_refl I).
Defined.

(** X19: when the store answers the write in time, an acknowledgement
    gives the success toast and the navigation, and a rejection gives an
    error toast with the message of the rejection, no success toast and no
    navigation; the questions written are those of the generation block,
    the fallback included.  The process is then in the state the
    generation block left, with the timer of the write armed and what the
    block abandoned run on until the answer. *)
Theorem onSubmit_store_reply (s : session) (w : world) (data : FormData)
    (pg : page) (q : json) (st1 : state) (d : N) (r : option exn) :
  truthy (userId s) = true -> isValid s = true ->
  generateQuestions w data (process pg) = (Return q, st1) ->
  firestore s (List.length (requests pg)) = Some (d, r) ->
  (d < SAVE_TIMEOUT_MS)%N ->
  let after :=
    during (abandoned w data (process pg)) (clock st1 + d)
           (armTimer SAVE_TIMEOUT_MS st1) in
  onSubmit s w data pg
  = (Return tt,
     match r with
     | None => savedPage s data q after pg
     | Some e => failedPage s data q e after pg
     end).
Proof.
  intros U V G F L after. apply generation_abandoned in G.
  rewrite (onSubmit_saving s w data pg q st1 _ U V G), F.
  destruct (save_answered d r (saveTimeoutMessage s) st1
              (abandoned w data (process pg)) L) as [rest ->].
  now destruct r.
Qed.

Lemma onSubmit_store_reply_witness :
  onSubmit refusingStore Samples.noKey Samples.job blankPage
  = (Return tt,
     failedPage refusingStore Samples.job
       (buildFallbackQuestions Samples.job) (JsError "permission-denied")
       (tick 40
          (armTimer SAVE_TIMEOUT_MS
             (snd (generateQuestions Samples.noKey Samples.job initial))))
       blankPage).
Proof.
  exact (onSubmit_store_reply refusingStore Samples.noKey Samples.job
           blankPage (buildFallbackQuestions Samples.job)
           (snd (generateQuestions Samples.noKey Samples.job initial))
           40%N (Some (JsError "permission-denied"))
           eq_refl eq_refl eq_refl eq_refl eq_refl).
Defined.

(** X20: with a signed-in user and a form that is not valid, [onSubmit]
    still runs the generation block, then writes nothing, shows neither
    the success toast nor an error toast and navigates to the listing; the
    one toast it can show is the warning of the generation block, shown
    when the block fell back. *)
Theorem onSubmit_unsaved_navigation (s : session) (w : world)
    (data : FormData) (pg : page) :
  truthy (userId s) = true -> isValid s = false ->
  let pg' := snd (onSubmit s w data pg) in
  process pg' = snd (generateQuestions w data (process pg))
  /\ requests pg' = requests pg
  /\ toasts pg' = toasts pg
  /\ errorToasts pg' = errorToasts pg
  /\ navigations pg' = navigations pg ++ ["/generate"]
  /\ (warnings (process pg') = warnings (process pg)
      \/ (exists reason,
            fst (generateQuestions w data (process pg))
            = Return (buildFallbackQuestions data)
            /\ warnings (process pg')
               = warnings (process pg) ++ [fallbackWarning reason])).
Proof.
  intros U V pg'. subst pg'.
  destruct (generation_result w data (process pg) idle I)
    as (q & st1 & bg1 & G & _ & _ & _ & _ & W).
  rewrite (onSubmit_unsaved s w data pg q st1 bg1 U V G).
  unfold generateQuestions. rewrite G. cbn [fst snd process requests toasts
    errorToasts navigations].
  repeat (split; [reflexivity |]).
  destruct W as [[_ W] | (reason & -> & _ & W)]; [now left |].
  right. now exists reason.
Qed.

Lemma onSubmit_unsaved_navigation_witness :
  let pg' := snd (onSubmit unfinishedForm Samples.noKey Samples.job
                    blankPage) in
  process pg' = snd (generateQuestions Samples.noKey Samples.job initial)
  /\ requests pg' = []
  /\ toasts pg' = []
  /\ errorToasts pg' = []
  /\ navigations pg' = ["/generate"]
  /\ (warnings (process pg') = []
      \/ (exists reason,
            fst (generateQuestions Samples.noKey Samples.job initial)
            = Return (buildFallbackQuestions Samples.job)
            /\ warnings (process pg') = [fallbackWarning reason])).
Proof.
  exact (onSubmit_unsaved_navigation unfinishedForm Samples.noKey Samples.job
           blankPage eq_refl eq_refl).
Defined.

(** The toast of the generation block is shown on a form that is not
    valid as on any other. *)
Example onSubmit_unsaved_warning :
  let pg' := snd (onSubmit unfinishedForm Samples.noKey Samples.job
                    blankPage) in
  toasts pg' = [] /\ errorToasts pg' = []
  /\ warnings (process pg')
     = [fallbackWarning "Missing VITE_GEMINI_API_KEY"].
Proof. repeat split. Qed.

(** What the generation block abandoned runs on during the write: the
    discovery request of the retry, made at 60 s, is answered at 155 s,
    when the write is 5 s under way, and the sweep it belongs to asks the
    first candidate once more. *)
Example onSubmit_beside_abandoned_retry :
  let st1 := snd (generateQuestions slowDiscovery Samples.job initial) in
  let pg' := snd (onSubmit silentStore slowDiscovery Samples.job blankPage) in
  attempts st1 = ["gemini-1.5-flash-latest"]
  /\ attempts (process pg')
     = ["gemini-1.5-flash-latest"; "gemini-1.5-flash-latest"]
  /\ clock (process pg') = 180000%N
  /\ timers (process pg') = [60000%N; 90000%N; 30000%N]
  /\ errorToasts pg' = ["Creating interview timed out"].
Proof. vm_compute. repeat split. Qed.

(** *** The race with nothing else in flight *)

(** X21: [withTimeout] called with nothing else in flight is decided by
    the promise run on its own from the moment the timer is armed: a
    promise that settles before the timer fires gives its own outcome and
    its own final state, and nothing stays in flight; a promise that is
    still pending when the timer fires, or would not settle at all, gives
    the time-out error with the given message at the very time the timer
    fires. *)
Theorem withTimeout_alone {A} (promise : T A) (ms : N) (message : string)
    (st : state) (r : outcome A) (st1 : state) :
  onTime promise -> (0 < ms)%N ->
  runAlone promise (armTimer ms st) = (r, st1) ->
  (r <> Pending -> (clock st1 < clock st + ms)%N ->
   withTimeout promise ms message (st, idle) = (r, (st1, idle)))
  /\ (r = Pending \/ (clock st + ms <= clock st1)%N ->
      exists sys,
        withTimeout promise ms message (st, idle)
        = (Throw (JsError message), sys)
        /\ clock (fst sys) = (clock st + ms)%N).
Proof.
  intros Ho Hms E. unfold runAlone in E. unfold withTimeout.
  destruct (Ho (armTimer ms st)) as [C P].
  destruct (promise (armTimer ms st)) as [st0 a].
  cbn [fst snd] in C, P. rewrite <- C in P.
  change (clock (armTimer ms st)) with (clock st) in C.
  split.
  - intros N L.
    rewrite (race_alone a (clock st + ms) st0 r st1 P E N L).
    now destruct r.
  - intros H.
    assert (R : fst (fst (race a idle (clock st + ms) st0)) = Pending).
    { apply (race_late a _ st0 r st1 P E H). lia. }
    destruct (race a idle (clock st + ms) st0) as [[r' st'] rest].
    cbn [fst] in R. subst r'. eexists. split; reflexivity.
Qed.

Lemma withTimeout_alone_witness :
  withTimeout (Tasks.generateAiResponse Samples.thirdSucceeds Samples.job)
              AI_TIMEOUT_MS "AI generation timed out" (initial, idle)
  = (Return (JArr [interviewQuestion "Q1" "A1"]),
     (snd (generateAiResponse Samples.thirdSucceeds Samples.job
             (armTimer AI_TIMEOUT_MS initial)), idle))
  /\ exists sys,
       withTimeout (Tasks.generateAiResponse slowDiscovery Samples.job)
                   AI_TIMEOUT_MS "AI generation timed out" (initial, idle)
       = (Throw (JsError "AI generation timed out"), sys)
       /\ clock (fst sys) = 60000%N.
Proof.
  split.
  - refine (proj1 (withTimeout_alone
                     (Tasks.generateAiResponse Samples.thirdSucceeds
                        Samples.job)
                     AI_TIMEOUT_MS "AI generation timed out" initial _ _
                     (onTime_generateAiResponse _ _) eq_refl _) _ _).
    + vm_compute. reflexivity.
    + discriminate.
    + vm_compute. reflexivity.
  - refine (proj2 (withTimeout_alone
                     (Tasks.generateAiResponse slowDiscovery Samples.job)
                     AI_TIMEOUT_MS "AI generation timed out" initial
                     (fst (runAlone (Tasks.generateAiResponse slowDiscovery
                                       Samples.job)
                             (armTimer AI_TIMEOUT_MS initial)))
                     (snd (runAlone (Tasks.generateAiResponse slowDiscovery
                                       Samples.job)
                             (armTimer AI_TIMEOUT_MS initial)))
                     (onTime_generateAiResponse _ _) eq_refl _) _).
    + vm_compute. reflexivity.
    + right. vm_compute. discriminate.
Defined.

End SubmitFacts.
